(** * HOOMD-blue: GlobalArray and the MPCD communicator

    A shallow embedding of [hoomd/GlobalArray.h] and
    [hoomd/mpcd/Communicator.cc].

    - unsigned int values are integers in [0, 2^32); every operation of the
      source that can wrap is written with [wrap32];
    - a C++ exception, a failed [assert] and undefined behaviour are the
      three [fault]s of the [result] monad;
    - arrays are lists, read with [!!] and written with [<[i:=x]>];
    - the device synchronisation under [ENABLE_CUDA], what the memory tracer
      of [REGISTER_ALLOCATION] records and the python export change no value
      modelled here and are left out; the dereference of the execution
      configuration that [REGISTER_ALLOCATION] starts with is kept wherever
      nothing before it has dereferenced the pointer already. *)

From stdpp Require Import base list numbers strings pretty sorting.

Local Open Scope Z_scope.
#[local] Set Warnings "-clear-no-such-hyp".

(** ** Machine integers, faults *)

Definition wrap32 (z : Z) : Z := z mod 2 ^ 32.

Definition is_uint (z : Z) : Prop := 0 ≤ z < 2 ^ 32.

(** [(int)u] for an unsigned [u]. *)
Definition to_int (u : Z) : Z :=
  if decide (wrap32 u < 2 ^ 31) then wrap32 u else wrap32 u - 2 ^ 32.

Lemma wrap32_small_nat (k : nat) :
  (k ≤ 27)%nat → wrap32 (Z.of_nat k) = Z.of_nat k.
Proof. intros Hk. unfold wrap32. apply Z.mod_small. lia. Qed.

Lemma to_int_small (z : Z) : 0 ≤ z < 2 ^ 31 → to_int z = z.
Proof.
  intros Hz. unfold to_int, wrap32. rewrite Z.mod_small by lia.
  by rewrite decide_True by lia.
Qed.

Inductive fault : Type :=
| assertion_failed (line : Z)
| runtime_error (what : string)
| undefined_behaviour.

Inductive result (A : Type) : Type :=
| Ok (a : A)
| Raise (f : fault).
Arguments Ok {A} a.
Arguments Raise {A} f.

Definition bind {A B : Type} (m : result A) (k : A → result B) : result B :=
  match m with
  | Ok a => k a
  | Raise f => Raise f
  end.

Notation "'do' x <- m ; k" := (bind m (fun x => k))
  (at level 10, x name, m at level 100, k at level 200).
Notation "'do' ' p <- m ; k" :=
  (bind m (fun x => match x with p => k end))
  (at level 10, p pattern, m at level 100, k at level 200).
Notation "m ;; k" := (bind m (fun _ => k))
  (at level 100, k at level 200, right associativity).

Definition returns {A : Type} (m : result A) (P : A → Prop) : Prop :=
  match m with
  | Ok a => P a
  | Raise _ => False
  end.

(** How a translation unit is compiled: [NDEBUG] removes every [assert];
    [__FILE__] is the path the header was included under. *)
Record build : Type := Build {
  ndebug : bool;
  file : string
}.

(** [assert(c)] at [line]. *)
Definition assert_ (cfg : build) (line : Z) (c : bool) : result unit :=
  if ndebug cfg then Ok tt
  else if c then Ok tt else Raise (assertion_failed line).

(** ** GlobalArray.h *)

Module GlobalArray.

Record ExecutionConfiguration : Type := ExecConf {
  isCUDAEnabled : bool
}.

(** Modelled from the spec: ManagedArray.h is not part of the sources.  A
    [ManagedArray<T>] is the "contiguous storage" a buffer owns: the address
    [get()] returns, the elements behind it ([size()] of them) and whether
    the memory is managed. *)
Record ManagedArray (T : Type) : Type := MkManagedArray {
  ma_ptr : Z;
  ma_data : list T;
  ma_managed : bool
}.
Arguments MkManagedArray {T} _ _ _.
Arguments ma_ptr {T} _.
Arguments ma_data {T} _.
Arguments ma_managed {T} _.

(** What the allocator hands back: an address and the indeterminate initial
    value of each element. *)
Record allocation (T : Type) : Type := Alloc {
  alloc_ptr : Z;
  alloc_init : nat → T
}.
Arguments Alloc {T} _ _.
Arguments alloc_ptr {T} _.
Arguments alloc_init {T} _.

Inductive access_location : Type := host | device.
Inductive access_mode : Type := read | readwrite | overwrite.

Section GlobalArray.
Context {T : Type}.
Variable cfg : build.

(** [ManagedArray<T> array(N, managed)] *)
Definition ManagedArray_new (al : allocation T) (N : Z) (managed : bool)
  : ManagedArray T :=
  MkManagedArray (alloc_ptr al)
                 (alloc_init al <$> seq 0 (Z.to_nat N))
                 managed.

(** [ManagedArray<T>()] *)
Definition ManagedArray_empty : ManagedArray T := MkManagedArray 0 [] false.

Definition size (m : ManagedArray T) : Z := Z.of_nat (length (ma_data m)).

(** [std::copy(src.get() + first, src.get() + last, dst.get() + d_first)].
    Reading or writing past either buffer is undefined. *)
Definition std_copy (src : ManagedArray T) (first last : Z)
    (dst : ManagedArray T) (d_first : Z) : result (ManagedArray T) :=
  if decide (0 ≤ first ≤ last ∧ last ≤ size src ∧
             0 ≤ d_first ∧ d_first + (last - first) ≤ size dst)
  then
    let n := Z.to_nat (last - first) in
    let d := Z.to_nat d_first in
    Ok (MkManagedArray (ma_ptr dst)
          (take d (ma_data dst)
           ++ take n (drop (Z.to_nat first) (ma_data src))
           ++ drop (d + n) (ma_data dst))
          (ma_managed dst))
  else Raise undefined_behaviour.

Record t : Type := MkGlobalArray {
  m_array : ManagedArray T;
  m_pitch : Z;
  m_height : Z;
  m_exec_conf : option ExecutionConfiguration;
  m_acquired : bool
}.

(** [p->...] on a [shared_ptr]: a null pointer must not be dereferenced. *)
Definition deref {A : Type} (p : option A) : result A :=
  match p with
  | Some a => Ok a
  | None => Raise undefined_behaviour
  end.

Definition already_acquired (line : Z) : string :=
  "GlobalArray already acquired in " +:+ file cfg +:+ " line "
    +:+ pretty line +:+ " - ArrayHandle scoping mistake?".

(** The macro [checkAcquired(a)], expanded at [line]. *)
Definition checkAcquired (a : t) (line : Z) : result unit :=
  assert_ cfg line (negb (m_acquired a)) ;;
  if m_acquired a then Raise (runtime_error (already_acquired line))
  else Ok tt.

(** [GlobalArray()] *)
Definition GlobalArray_empty : t :=
  MkGlobalArray ManagedArray_empty 0 0 None false.

(** [GlobalArray(num_elements, exec_conf)] *)
Definition GlobalArray_1d (al : allocation T) (num_elements : Z)
    (exec_conf : option ExecutionConfiguration) : result t :=
  do conf <- deref exec_conf;
  let array := ManagedArray_new al num_elements (isCUDAEnabled conf) in
  Ok (MkGlobalArray array num_elements 1 exec_conf false).

(** [width + (16 - (width & 15))] in unsigned int arithmetic. *)
Definition padded_pitch (width : Z) : Z :=
  wrap32 (width + wrap32 (16 - Z.land width 15)).

(** [GlobalArray(width, height, exec_conf)] *)
Definition GlobalArray_2d (al : allocation T) (width height : Z)
    (exec_conf : option ExecutionConfiguration) : result t :=
  let pitch := padded_pitch width in
  let num_elements := wrap32 (pitch * height) in
  do conf <- deref exec_conf;
  let array := ManagedArray_new al num_elements (isCUDAEnabled conf) in
  Ok (MkGlobalArray array pitch height exec_conf false).

Definition get (a : t) : Z := ma_ptr (m_array a).
Definition getNumElements (a : t) : Z := size (m_array a).
Definition isNull (a : t) : bool := bool_decide (size (m_array a) = 0).
Definition getPitch (a : t) : Z := m_pitch a.
Definition getHeight (a : t) : Z := m_height a.
Definition isAcquired (a : t) : bool := m_acquired a.

(** [operator=(const GlobalArray& rhs)]; [copy] is [ManagedArray]'s copy
    assignment, which the spec leaves free to share or to duplicate the
    storage.  [REGISTER_ALLOCATION(m_exec_conf, m_array)] at the end
    dereferences the configuration just taken over from [rhs]. *)
Definition assign (copy : ManagedArray T → ManagedArray T) (this rhs : t)
  : result t :=
  checkAcquired rhs 79 ;;
  checkAcquired this 80 ;;
  let this := MkGlobalArray (copy (m_array rhs)) (m_pitch rhs) (m_height rhs)
                            (m_exec_conf rhs) false in
  deref (m_exec_conf this) ;;
  Ok this.

(** [swap(GlobalArray& from)]: the new [(this, from)]; [m_acquired] is not
    exchanged. *)
Definition swap (this from : t) : result (t * t) :=
  checkAcquired from 163 ;;
  checkAcquired this 164 ;;
  Ok (MkGlobalArray (m_array from) (m_pitch from) (m_height from)
                    (m_exec_conf from) (m_acquired this),
      MkGlobalArray (m_array this) (m_pitch this) (m_height this)
                    (m_exec_conf this) (m_acquired from)).

(** [resize(num_elements)] *)
Definition resize (al : allocation T) (num_elements : Z) (a : t)
  : result t :=
  checkAcquired a 225 ;;
  do conf <- deref (m_exec_conf a);
  let new_array := ManagedArray_new al num_elements (isCUDAEnabled conf) in
  let num_copy_elements :=
    if decide (size (m_array a) > num_elements) then num_elements
    else size (m_array a) in
  do new_array <- std_copy (m_array a) 0 (0 + num_copy_elements) new_array 0;
  (* std::swap(m_array, new_array) *)
  let m_array' := new_array in
  Ok (MkGlobalArray m_array' (size m_array') 1 (m_exec_conf a)
                    (m_acquired a)).

(** The row loop of the 2D resize, [n] iterations from row [i]. *)
Fixpoint copy_rows (n : nat) (i : Z) (src : ManagedArray T)
    (src_pitch num_copy_columns : Z) (dst : ManagedArray T) (pitch : Z)
  : result (ManagedArray T) :=
  match n with
  | O => Ok dst
  | S n' =>
      do dst' <- std_copy src (wrap32 (i * src_pitch))
                   (wrap32 (i * src_pitch) + num_copy_columns)
                   dst (wrap32 (i * pitch));
      copy_rows n' (wrap32 (i + 1)) src src_pitch num_copy_columns dst' pitch
  end.

(** [resize(width, height)] *)
Definition resize2 (al : allocation T) (width height : Z) (a : t)
  : result t :=
  checkAcquired a 254 ;;
  let pitch := padded_pitch width in
  let num_elements := wrap32 (pitch * height) in
  assert_ cfg 260 (bool_decide (num_elements > 0)) ;;
  do conf <- deref (m_exec_conf a);
  let new_array := ManagedArray_new al num_elements (isCUDAEnabled conf) in
  let num_copy_rows :=
    if decide (m_height a > height) then height else m_height a in
  let num_copy_columns :=
    if decide (m_pitch a > pitch) then pitch else m_pitch a in
  do new_array <- copy_rows (Z.to_nat num_copy_rows) 0 (m_array a)
                    (m_pitch a) num_copy_columns new_array pitch;
  (* m_height = height; m_pitch = pitch; std::swap(m_array, new_array) *)
  Ok (MkGlobalArray new_array pitch height (m_exec_conf a) (m_acquired a)).

(** [acquire(location, mode)]: the array marked acquired, and the pointer. *)
Definition acquire (location : access_location) (mode : access_mode) (a : t)
  : result (t * Z) :=
  checkAcquired a 307 ;;
  let a' := MkGlobalArray (m_array a) (m_pitch a) (m_height a)
                          (m_exec_conf a) true in
  Ok (a', get a').

(** [release()] *)
Definition release (a : t) : t :=
  MkGlobalArray (m_array a) (m_pitch a) (m_height a) (m_exec_conf a) false.

(** The fault [checkAcquired] signals at [line] under this build. *)
Definition scoping_violation (line : Z) : fault :=
  if ndebug cfg then runtime_error (already_acquired line)
  else assertion_failed line.

(** The element at row [r], column [c]. *)
Definition at2 (a : t) (r c : Z) : option T :=
  ma_data (m_array a) !! Z.to_nat (r * m_pitch a + c).

End GlobalArray.

(** *** Facts about the model *)

Section GlobalArray_facts.
Context {T : Type}.
Variable cfg : build.
Implicit Types (a : t (T:=T)) (al : allocation T).

Lemma wrap32_small z : is_uint z → wrap32 z = z.
Proof. unfold is_uint, wrap32. intros Hz. apply Z.mod_small. lia. Qed.

Lemma land_15 w : Z.land w 15 = w mod 16.
Proof. change 15 with (Z.ones 4). rewrite Z.land_ones by lia. reflexivity. Qed.

(** Without wrap-around the pitch is [width] plus what is missing to the
    next multiple of 16, a full 16 when nothing is missing. *)
Lemma padded_pitch_eq w :
  0 ≤ w → w + 16 - w mod 16 < 2 ^ 32 →
  padded_pitch w = w + 16 - w mod 16.
Proof.
  intros Hw Hfit. unfold padded_pitch. rewrite land_15.
  pose proof (Z.mod_pos_bound w 16 ltac:(lia)) as Hm.
  rewrite (wrap32_small (16 - w mod 16)) by (unfold is_uint; lia).
  rewrite wrap32_small by (unfold is_uint; lia). lia.
Qed.

Lemma padded_pitch_above w :
  0 ≤ w → w + 16 - w mod 16 < 2 ^ 32 →
  w < padded_pitch w ∧ padded_pitch w mod 16 = 0.
Proof.
  intros Hw Hfit. rewrite padded_pitch_eq by done.
  pose proof (Z.mod_pos_bound w 16 ltac:(lia)) as Hm. split; [lia|].
  rewrite (Z.div_mod w 16) at 1 by lia.
  replace (16 * (w / 16) + w mod 16 + 16 - w mod 16)
    with ((w / 16 + 1) * 16) by lia.
  apply Z.mod_mul. lia.
Qed.

Lemma checkAcquired_released a line :
  m_acquired a = false → checkAcquired cfg a line = Ok tt.
Proof.
  intros Ha. unfold checkAcquired, assert_. rewrite Ha.
  destruct (ndebug cfg); reflexivity.
Qed.

Lemma checkAcquired_acquired a line :
  m_acquired a = true →
  checkAcquired cfg a line = Raise (scoping_violation cfg line).
Proof.
  intros Ha. unfold checkAcquired, assert_, scoping_violation. rewrite Ha.
  destruct (ndebug cfg); reflexivity.
Qed.

(** With asserts compiled out the fault is the [std::runtime_error]. *)
Lemma scoping_violation_ndebug line :
  ndebug cfg = true →
  scoping_violation cfg line = runtime_error (already_acquired cfg line).
Proof. intros Hn. unfold scoping_violation. rewrite Hn. reflexivity. Qed.

Lemma size_new al N managed :
  0 ≤ N → size (ManagedArray_new al N managed) = N.
Proof.
  intros HN. unfold size, ManagedArray_new. simpl.
  rewrite length_fmap, length_seq. lia.
Qed.

(** Element [k] of the destination after [std::copy]. *)
Lemma std_copy_lookup (src dst dst' : ManagedArray T) first last d_first
    (k : nat) :
  std_copy src first last dst d_first = Ok dst' →
  ma_data dst' !! k =
    if decide (d_first ≤ Z.of_nat k < d_first + (last - first))
    then ma_data src !! Z.to_nat (first + (Z.of_nat k - d_first))
    else ma_data dst !! k.
Proof.
  unfold std_copy, size. intros Hc. case_decide as Hb; [|done].
  injection Hc as <-. simpl. destruct Hb as ([Hf Hfl] & Hl & Hd & Hdl).
  case_decide as Hk.
  - rewrite lookup_app_r by (rewrite length_take; lia).
    rewrite length_take, Nat.min_l by lia.
    rewrite lookup_app_l by (rewrite length_take, length_drop; lia).
    rewrite lookup_take_lt by lia. rewrite lookup_drop. f_equal. lia.
  - destruct (decide (Z.of_nat k < d_first)) as [Hlt|Hge].
    + rewrite lookup_app_l by (rewrite length_take; lia).
      rewrite lookup_take_lt by lia. reflexivity.
    + rewrite lookup_app_r by (rewrite length_take; lia).
      rewrite length_take, Nat.min_l by lia.
      rewrite lookup_app_r by (rewrite length_take, length_drop; lia).
      rewrite length_take, length_drop, Nat.min_l by lia.
      rewrite lookup_drop. f_equal. lia.
Qed.

Lemma std_copy_ok (src dst : ManagedArray T) first last d_first :
  0 ≤ first ≤ last → last ≤ size src →
  0 ≤ d_first → d_first + (last - first) ≤ size dst →
  ∃ dst', std_copy src first last dst d_first = Ok dst' ∧
          size dst' = size dst ∧ ma_ptr dst' = ma_ptr dst.
Proof.
  intros Hfl Hl Hd Hdl. unfold std_copy.
  rewrite decide_True by done. eexists; split; [reflexivity|].
  split; [|reflexivity]. unfold size in *. simpl.
  rewrite !length_app, !length_take, !length_drop. lia.
Qed.

(** The row loop: rows [i .. i+n) of the source land in the same rows of
    the destination, re-aligned to the new pitch; earlier rows stay. *)
Lemma copy_rows_spec (src : ManagedArray T) p1 p2 ncols h1 h2 :
  0 ≤ ncols → ncols ≤ p1 → ncols ≤ p2 →
  size src = p1 * h1 → p1 * h1 < 2 ^ 32 → p2 * h2 < 2 ^ 32 →
  ∀ (n : nat) i (dst : ManagedArray T),
    0 ≤ i → i + Z.of_nat n ≤ h1 → i + Z.of_nat n ≤ h2 →
    i + Z.of_nat n < 2 ^ 32 →
    size dst = p2 * h2 →
    ∃ dst', copy_rows n i src p1 ncols dst p2 = Ok dst' ∧
      size dst' = size dst ∧ ma_ptr dst' = ma_ptr dst ∧
      (∀ k : nat, Z.of_nat k < i * p2 →
         ma_data dst' !! k = ma_data dst !! k) ∧
      (∀ r c, i ≤ r < i + Z.of_nat n → 0 ≤ c < ncols →
         ma_data dst' !! Z.to_nat (r * p2 + c) =
         ma_data src !! Z.to_nat (r * p1 + c)).
Proof.
  intros Hn0 Hn1 Hn2 Hsrc Hfit1 Hfit2.
  induction n as [|n IH]; intros i dst Hi Hh1 Hh2 Hu Hdst.
  { exists dst. simpl. split_and!; try done. intros r c Hr. lia. }
  simpl.
  assert (0 ≤ p1 ∧ 0 ≤ p2) as [Hp1 Hp2] by lia.
  assert (i * p1 + p1 ≤ p1 * h1) as Hrow1 by nia.
  assert (i * p2 + p2 ≤ p2 * h2) as Hrow2 by nia.
  rewrite (wrap32_small (i * p1)) by (unfold is_uint; nia).
  rewrite (wrap32_small (i * p2)) by (unfold is_uint; nia).
  rewrite (wrap32_small (i + 1)) by (unfold is_uint; lia).
  destruct (std_copy_ok src dst (i * p1) (i * p1 + ncols) (i * p2))
    as (dst1 & Hcopy & Hsz1 & Hptr1); [nia|lia|nia|lia|].
  rewrite Hcopy. simpl.
  destruct (IH (i + 1) dst1) as (dst' & Hrows & Hsz & Hptr & Hlow & Hcp);
    [lia|lia|lia|lia|congruence|].
  exists dst'. split; [done|]. split; [congruence|]. split; [congruence|].
  split.
  - intros k Hk. rewrite Hlow by nia.
    rewrite (std_copy_lookup _ _ _ _ _ _ _ Hcopy).
    rewrite decide_False by lia. reflexivity.
  - intros r c Hr Hc. destruct (decide (r = i)) as [->|Hne].
    + rewrite Hlow by (rewrite Z2Nat.id by nia; nia).
      rewrite (std_copy_lookup _ _ _ _ _ _ _ Hcopy).
      rewrite Z2Nat.id by nia. rewrite decide_True by lia.
      f_equal. lia.
    + apply Hcp; lia.
Qed.

(** A two-dimensional array of logical size [(w, h)] that fits unsigned
    int: its pitch and its element count did not wrap. *)
Definition fits (w h : Z) : Prop :=
  0 ≤ w ∧ 0 ≤ h ∧ (w + 16 - w mod 16) < 2 ^ 32 ∧
  (w + 16 - w mod 16) * h < 2 ^ 32.

Definition is_2d a (w h : Z) : Prop :=
  fits w h ∧ m_pitch a = padded_pitch w ∧ m_height a = h ∧
  size (m_array a) = m_pitch a * m_height a.

Lemma resize_released al num a conf :
  m_acquired a = false → m_exec_conf a = Some conf → is_uint num →
  ∃ a', resize cfg al num a = Ok a' ∧
    m_height a' = 1 ∧ m_pitch a' = num ∧ size (m_array a') = num ∧
    ma_ptr (m_array a') = alloc_ptr al ∧
    m_acquired a' = false ∧ m_exec_conf a' = Some conf ∧
    ∀ i : nat, Z.of_nat i < size (m_array a) → Z.of_nat i < num →
      ma_data (m_array a') !! i = ma_data (m_array a) !! i.
Proof.
  intros Hrel Hconf [Hn0 Hn1]. unfold resize.
  rewrite checkAcquired_released by done. simpl. rewrite Hconf. simpl.
  set (new := ManagedArray_new al num (isCUDAEnabled conf)).
  set (ncopy := if decide (size (m_array a) > num) then num
                else size (m_array a)).
  assert (0 ≤ size (m_array a)) as Hsz by (unfold size; lia).
  assert (0 ≤ ncopy ∧ ncopy ≤ num ∧ ncopy ≤ size (m_array a)) as Hnc
    by (unfold ncopy; case_decide; lia).
  assert (size new = num) as Hnew by (apply size_new; done).
  destruct (std_copy_ok (m_array a) new 0 (0 + ncopy) 0)
    as (new' & Hcopy & Hsz' & Hptr'); [lia|lia|lia|lia|].
  rewrite Hcopy. simpl. eexists; split; [reflexivity|]. simpl.
  split_and!; [done|lia|lia|by rewrite Hptr'|done|done|].
  intros i Hi1 Hi2. rewrite (std_copy_lookup _ _ _ _ _ _ _ Hcopy).
  rewrite decide_True by (unfold ncopy; case_decide; lia).
  f_equal. lia.
Qed.

Lemma resize2_released al w2 h2 a conf :
  m_acquired a = false → m_exec_conf a = Some conf →
  is_uint (m_pitch a) → is_uint (m_height a) →
  size (m_array a) = m_pitch a * m_height a →
  is_uint (size (m_array a)) →
  fits w2 h2 → 0 < h2 →
  ∃ a', resize2 cfg al w2 h2 a = Ok a' ∧ is_2d a' w2 h2 ∧
    ma_ptr (m_array a') = alloc_ptr al ∧
    m_acquired a' = false ∧ m_exec_conf a' = Some conf ∧
    ∀ r c, 0 ≤ r → r < m_height a → r < h2 →
           0 ≤ c → c < m_pitch a → c < padded_pitch w2 →
      at2 a' r c = at2 a r c.
Proof.
  intros Hrel Hconf Hp1 Hh1 Hsz [_ Hsmall] (Hw2 & Hh2 & Hfp & Hfn) Hpos.
  pose proof (padded_pitch_eq w2 Hw2 Hfp) as Hp2.
  pose proof (padded_pitch_above w2 Hw2 Hfp) as [Habove _].
  unfold resize2. rewrite checkAcquired_released by done. simpl.
  set (p2 := padded_pitch w2) in *.
  assert (is_uint (p2 * h2)) as Hu by (unfold is_uint; nia).
  rewrite (wrap32_small _ Hu).
  assert (assert_ cfg 260 (bool_decide (p2 * h2 > 0)) = Ok tt) as ->.
  { unfold assert_. destruct (ndebug cfg); [done|].
    rewrite bool_decide_eq_true_2 by nia. done. }
  simpl. rewrite Hconf. simpl.
  set (new := ManagedArray_new al (p2 * h2) (isCUDAEnabled conf)).
  set (nrows := if decide (m_height a > h2) then h2 else m_height a).
  set (ncols := if decide (m_pitch a > p2) then p2 else m_pitch a).
  assert (size new = p2 * h2) as Hnew by (apply size_new; nia).
  unfold is_uint in Hp1, Hh1.
  assert (0 ≤ nrows ∧ nrows ≤ h2 ∧ nrows ≤ m_height a) as Hnr
    by (unfold nrows; case_decide; lia).
  assert (0 ≤ ncols ∧ ncols ≤ p2 ∧ ncols ≤ m_pitch a) as Hncl
    by (unfold ncols; case_decide; lia).
  destruct (copy_rows_spec (m_array a) (m_pitch a) p2 ncols (m_height a) h2
              ltac:(lia) ltac:(lia) ltac:(lia) Hsz ltac:(lia) ltac:(lia)
              (Z.to_nat nrows) 0 new)
    as (new' & Hrows & Hsz' & Hptr' & _ & Hcp); [lia|lia|lia|lia|done|].
  rewrite Hrows. simpl. eexists; split; [reflexivity|].
  unfold is_2d, fits, at2. simpl. fold p2.
  split_and!; try lia; try congruence; try done.
  intros r c Hr0 Hr1 Hr2 Hc0 Hc1 Hc2. apply Hcp.
  - unfold nrows. case_decide; lia.
  - unfold ncols. case_decide; lia.
Qed.

Lemma is_2d_uint a w h :
  is_2d a w h →
  is_uint (m_pitch a) ∧ is_uint (m_height a) ∧ is_uint (size (m_array a)) ∧
  w < m_pitch a.
Proof.
  intros ((Hw & Hh & Hfp & Hfn) & Hp & Hht & Hsz).
  pose proof (padded_pitch_eq w Hw Hfp) as Heq.
  pose proof (padded_pitch_above w Hw Hfp) as [Habove _].
  unfold is_uint. rewrite Hsz, Hp, Hht, Heq.
  pose proof (Z.mod_pos_bound w 16 ltac:(lia)). split_and!; nia.
Qed.

End GlobalArray_facts.

(** *** The claims about GlobalArray *)

(** C1.  At width 16, a multiple of 16, the constructor and the 2D resize
    both set the pitch to 32: the pitch is the next multiple of 16 strictly
    above the width, not the width itself. *)
Theorem pitch_of_width_16_is_32 :
  16 mod 16 = 0 ∧ padded_pitch 16 = 32 ∧
  (∀ (T : Type) (al : allocation T) h conf,
     returns (GlobalArray_2d al 16 h (Some conf))
             (λ a, getPitch a = 32 ∧ getPitch a ≠ 16)) ∧
  (∀ (T : Type) cfg (al al' : allocation T) conf,
     returns (do a <- GlobalArray_2d al 16 1 (Some conf);
              resize2 cfg al' 16 1 a)
             (λ a, getPitch a = 32 ∧ getPitch a ≠ 16)).
Proof.
  split; [reflexivity|]. split; [reflexivity|]. split.
  - intros T al h conf. simpl. split; [reflexivity|discriminate].
  - intros T [[] f] al al' conf; vm_compute; split; congruence.
Qed.

(** Every width that is a multiple of 16 gets a full extra 16 columns. *)
Lemma padded_pitch_of_multiple w :
  0 ≤ w → w + 16 < 2 ^ 32 → w mod 16 = 0 → padded_pitch w = w + 16.
Proof.
  intros Hw Hfit Hm. rewrite padded_pitch_eq by lia. lia.
Qed.

(** C2.  While an array is acquired, a second acquire, both resizes, copy
    assignment (on either side) and swap (on either side) stop with the
    scoping violation of their [checkAcquired]; once released, acquire
    succeeds, marks the array acquired and returns the data pointer. *)
Theorem acquired_array_rejects_structural_operations
    {T : Type} (cfg : build) (a : t (T:=T)) :
  m_acquired a = true →
  (∀ loc mode, acquire cfg loc mode a = Raise (scoping_violation cfg 307)) ∧
  (∀ al n, resize cfg al n a = Raise (scoping_violation cfg 225)) ∧
  (∀ al w h, resize2 cfg al w h a = Raise (scoping_violation cfg 254)) ∧
  (∀ copy b, ∃ line,
     assign cfg copy a b = Raise (scoping_violation cfg line)) ∧
  (∀ copy b, assign cfg copy b a = Raise (scoping_violation cfg 79)) ∧
  (∀ b, ∃ line, swap cfg a b = Raise (scoping_violation cfg line)) ∧
  (∀ b, swap cfg b a = Raise (scoping_violation cfg 163)) ∧
  (ndebug cfg = true →
   ∀ line, scoping_violation cfg line
           = runtime_error (already_acquired cfg line)) ∧
  (∀ loc mode, acquire cfg loc mode (release a) = Ok (a, get a)).
Proof.
  intros Ha.
  assert (∀ line,
            checkAcquired cfg a line = Raise (scoping_violation cfg line))
    as Hchk by (intros; by apply checkAcquired_acquired).
  split_and!.
  - intros loc mode. unfold acquire. by rewrite Hchk.
  - intros al n. unfold resize. by rewrite Hchk.
  - intros al w h. unfold resize2. by rewrite Hchk.
  - intros copy b. unfold assign. destruct (m_acquired b) eqn:Hb.
    + exists 79. by rewrite (checkAcquired_acquired cfg b 79 Hb).
    + exists 80. rewrite (checkAcquired_released cfg b 79 Hb). simpl.
      by rewrite Hchk.
  - intros copy b. unfold assign. by rewrite Hchk.
  - intros b. unfold swap. destruct (m_acquired b) eqn:Hb.
    + exists 163. by rewrite (checkAcquired_acquired cfg b 163 Hb).
    + exists 164. rewrite (checkAcquired_released cfg b 163 Hb). simpl.
      by rewrite Hchk.
  - intros b. unfold swap. by rewrite Hchk.
  - intros Hn line. by apply scoping_violation_ndebug.
  - intros loc mode. unfold acquire.
    rewrite checkAcquired_released by reflexivity. simpl.
    destruct a as [arr p h conf acq]. simpl in Ha. subst acq. reflexivity.
Qed.

(** C3.  A 1D resize from [N] to [M > N] elements keeps elements [0 .. N) at
    their indices; a 2D resize from [(w1, h1)] to [(w2, h2)] keeps element
    [(r, c)] for [r < min h1 h2] and [c < min w1 w2]; either way the array
    ends up on the replacement storage, which holds the copied prefix. *)
Theorem resize_preserves_overlapping_prefix
    {T : Type} (cfg : build) (a1 a2 : t (T:=T)) (al1 al2 : allocation T)
    (conf1 conf2 : ExecutionConfiguration) (N M w1 h1 w2 h2 : Z) :
  m_acquired a1 = false → m_exec_conf a1 = Some conf1 →
  getNumElements a1 = N → N < M → M < 2 ^ 32 →
  m_acquired a2 = false → m_exec_conf a2 = Some conf2 →
  is_2d a2 w1 h1 → fits w2 h2 → 0 < h2 →
  (∃ a1', resize cfg al1 M a1 = Ok a1' ∧
     get a1' = alloc_ptr al1 ∧ getNumElements a1' = M ∧
     ∀ i : nat, Z.of_nat i < N →
       ma_data (m_array a1') !! i = ma_data (m_array a1) !! i ∧
       is_Some (ma_data (m_array a1) !! i)) ∧
  (∃ a2', resize2 cfg al2 w2 h2 a2 = Ok a2' ∧
     get a2' = alloc_ptr al2 ∧ is_2d a2' w2 h2 ∧
     ∀ r c, 0 ≤ r < Z.min h1 h2 → 0 ≤ c < Z.min w1 w2 →
       at2 a2' r c = at2 a2 r c ∧ is_Some (at2 a2 r c)).
Proof.
  intros Hrel1 Hconf1 HN HNM HM Hrel2 Hconf2 H2d Hfit Hh2.
  unfold getNumElements in HN. split.
  - assert (0 ≤ N) by (subst N; unfold size; lia).
    destruct (resize_released cfg al1 M a1 conf1 Hrel1 Hconf1)
      as (a1' & Hr & _ & _ & Hsz & Hptr & _ & _ & Hkeep);
      [unfold is_uint; lia|].
    exists a1'. split_and!; [done|done|done|]. intros i Hi. split.
    + apply Hkeep; lia.
    + apply lookup_lt_is_Some. unfold size in HN. lia.
  - destruct (is_2d_uint a2 w1 h1 H2d) as (Hp & Hh & Hs & Hwp).
    pose proof H2d as (_ & _ & Hht & Hsz).
    destruct (resize2_released cfg al2 w2 h2 a2 conf2 Hrel2 Hconf2 Hp Hh Hsz
                Hs Hfit Hh2)
      as (a2' & Hr & H2d' & Hptr & _ & _ & Hkeep).
    exists a2'. split_and!; [done|done|done|]. intros r c Hr' Hc.
    destruct (is_2d_uint a2' w2 h2 H2d') as (_ & _ & _ & Hwp').
    destruct H2d' as (_ & Hp2 & _ & _). split.
    + apply Hkeep; lia.
    + unfold at2. apply lookup_lt_is_Some. unfold size in Hsz.
      unfold is_uint in *. nia.
Qed.

(** C10.  The 1D resize leaves any released array, 2D or not,
    one-dimensional: height 1, pitch exactly [num_elements], and
    [num_elements] elements. *)
Theorem resize_1d_makes_array_one_dimensional
    {T : Type} (cfg : build) (a : t (T:=T)) (al : allocation T)
    (conf : ExecutionConfiguration) (num_elements : Z) :
  m_acquired a = false → m_exec_conf a = Some conf → is_uint num_elements →
  ∃ a', resize cfg al num_elements a = Ok a' ∧
    getHeight a' = 1 ∧ getPitch a' = num_elements ∧
    getNumElements a' = num_elements.
Proof.
  intros Hrel Hconf Hn.
  destruct (resize_released cfg al num_elements a conf Hrel Hconf Hn)
    as (a' & Hr & Hh & Hp & Hsz & _).
  exists a'. by split_and!.
Qed.

(** *** Concrete arrays *)

Definition example_build : build := Build true "hoomd/GlobalArray.h".
Definition example_conf : ExecutionConfiguration := ExecConf false.
Definition example_alloc : allocation Z := Alloc 8192 (λ _, -1).

(** Three elements at address 4096. *)
Definition example_1d (acquired : bool) : t (T:=Z) :=
  MkGlobalArray (MkManagedArray 4096 [10; 20; 30] false) 3 1
                (Some example_conf) acquired.

(** Logical size (3, 2) at pitch 16; element [(r, c)] holds [16 r + c]. *)
Definition example_2d : t (T:=Z) :=
  MkGlobalArray (MkManagedArray 4096 (Z.of_nat <$> seq 0 32) false) 16 2
                (Some example_conf) false.

Lemma acquired_array_rejects_structural_operations_witness :
  acquire example_build host read (example_1d true)
    = Raise (runtime_error
        "GlobalArray already acquired in hoomd/GlobalArray.h line 307 - ArrayHandle scoping mistake?") ∧
  resize example_build example_alloc 5 (example_1d true)
    = Raise (scoping_violation example_build 225) ∧
  acquire example_build host read (release (example_1d true))
    = Ok (example_1d true, 4096).
Proof.
  destruct (acquired_array_rejects_structural_operations
              example_build (example_1d true) eq_refl)
    as (Hacq & Hres & _ & _ & _ & _ & _ & _ & Hrel).
  split; [exact (Hacq host read)|].
  split; [exact (Hres example_alloc 5)|exact (Hrel host read)].
Defined.

Lemma resize_preserves_overlapping_prefix_witness :
  ∃ a1' a2',
    resize example_build example_alloc 5 (example_1d false) = Ok a1' ∧
    ma_data (m_array a1') !! 2%nat = Some 30 ∧
    resize2 example_build example_alloc 20 3 example_2d = Ok a2' ∧
    getPitch a2' = 32 ∧ at2 a2' 1 2 = Some 18.
Proof.
  assert (is_2d example_2d 3 2) as H2d
    by (unfold is_2d, fits; vm_compute; intuition congruence).
  assert (fits 20 3) as Hfit
    by (unfold fits; vm_compute; intuition congruence).
  destruct (resize_preserves_overlapping_prefix example_build
              (example_1d false) example_2d example_alloc example_alloc
              example_conf example_conf 3 5 3 2 20 3
              eq_refl eq_refl eq_refl ltac:(lia) ltac:(lia)
              eq_refl eq_refl H2d Hfit ltac:(lia))
    as [(a1' & Hr1 & _ & _ & Hkeep1) (a2' & Hr2 & _ & H2d' & Hkeep2)].
  exists a1', a2'. split; [exact Hr1|].
  split; [exact (proj1 (Hkeep1 2%nat ltac:(lia)))|].
  split; [exact Hr2|].
  split; [exact (proj1 (proj2 H2d'))|].
  exact (proj1 (Hkeep2 1 2 ltac:(lia) ltac:(lia))).
Defined.

Lemma resize_1d_makes_array_one_dimensional_witness :
  ∃ a', resize example_build example_alloc 40 example_2d = Ok a' ∧
    getHeight a' = 1 ∧ getPitch a' = 40 ∧ getNumElements a' = 40.
Proof.
  apply (resize_1d_makes_array_one_dimensional example_build example_2d
           example_alloc example_conf 40 eq_refl eq_refl).
  unfold is_uint. lia.
Defined.

(** *** The remaining members *)

(** [GlobalArray(const GlobalArray& from)]; [copy] is [ManagedArray]'s copy
    assignment, as in [assign], and [REGISTER_ALLOCATION] at the end
    dereferences the copied configuration. *)
Definition copy_construct {T : Type} (cfg : build)
    (copy : ManagedArray T → ManagedArray T) (from : t (T:=T))
  : result (t (T:=T)) :=
  checkAcquired cfg from 57 ;;
  let this := MkGlobalArray (copy (m_array from)) (m_pitch from)
                            (m_height from) (m_exec_conf from) false in
  deref (m_exec_conf this) ;;
  Ok this.

(** [GlobalArray(GlobalArray&& other)]: the new array and what is left of
    [other].  [move] is [ManagedArray]'s move: the storage handed over and
    the storage left behind.  Moving a [shared_ptr] leaves it null; moving a
    [bool] or an [unsigned int] copies it. *)
Definition move_construct {T : Type} (cfg : build)
    (move : ManagedArray T → ManagedArray T * ManagedArray T)
    (other : t (T:=T)) : result (t (T:=T) * t (T:=T)) :=
  let '(array, rest) := move (m_array other) in
  let this := MkGlobalArray array (m_pitch other) (m_height other)
                            (m_exec_conf other) (m_acquired other) in
  checkAcquired cfg other 114 ;;
  Ok (this, MkGlobalArray rest 0 0 None false).

(** [operator=(GlobalArray&& other)]: the new [(this, other)]. *)
Definition move_assign {T : Type} (cfg : build)
    (move : ManagedArray T → ManagedArray T * ManagedArray T)
    (this other : t (T:=T)) : result (t (T:=T) * t (T:=T)) :=
  checkAcquired cfg this 125 ;;
  checkAcquired cfg other 126 ;;
  let '(array, rest) := move (m_array other) in
  Ok (MkGlobalArray array (m_pitch other) (m_height other)
                    (m_exec_conf other) (m_acquired other),
      MkGlobalArray rest 0 0 None false).

(** [swap(GPUArray<T>& from)] *)
Definition swap_GPUArray : result unit :=
  Raise (runtime_error "GlobalArray::swap() not supported with GPUArray()").

(** An array whose storage is what its pitch and height say, within
    unsigned int. *)
Definition well_formed {T : Type} (a : t (T:=T)) : Prop :=
  is_uint (m_pitch a) ∧ is_uint (m_height a) ∧
  size (m_array a) = m_pitch a * m_height a ∧ is_uint (size (m_array a)).

Section GlobalArray_more.
Context {T : Type}.
Variable cfg : build.
Implicit Types (a b : t (T:=T)) (al : allocation T).

Lemma padded_pitch_uint w : is_uint (padded_pitch w).
Proof.
  unfold padded_pitch, wrap32, is_uint. apply Z.mod_pos_bound. lia.
Qed.

Lemma new_lookup al N managed (i : nat) :
  Z.of_nat i < N →
  ma_data (ManagedArray_new al N managed) !! i = Some (alloc_init al i).
Proof.
  intros Hi. unfold ManagedArray_new. simpl.
  rewrite list_lookup_fmap, lookup_seq_lt by lia. done.
Qed.

(** The 2D resize in terms of the pitch it computes, wrapped or not. *)
Lemma resize2_general al w2 h2 a conf :
  m_acquired a = false → m_exec_conf a = Some conf → well_formed a →
  is_uint h2 → padded_pitch w2 * h2 < 2 ^ 32 →
  ndebug cfg = true ∨ 0 < padded_pitch w2 * h2 →
  ∃ a', resize2 cfg al w2 h2 a = Ok a' ∧
    m_pitch a' = padded_pitch w2 ∧ m_height a' = h2 ∧ well_formed a' ∧
    ma_ptr (m_array a') = alloc_ptr al ∧
    m_acquired a' = false ∧ m_exec_conf a' = Some conf ∧
    ∀ r c, 0 ≤ r → r < m_height a → r < h2 →
           0 ≤ c → c < m_pitch a → c < padded_pitch w2 →
      at2 a' r c = at2 a r c.
Proof.
  intros Hrel Hconf (Hp1 & Hh1 & Hsz & [_ Hsmall]) Hh2 Hfn Hassert.
  pose proof (padded_pitch_uint w2) as Hp2.
  unfold resize2. rewrite checkAcquired_released by done. simpl.
  set (p2 := padded_pitch w2) in *. unfold is_uint in Hp2, Hh2.
  assert (is_uint (p2 * h2)) as Hu by (unfold is_uint; nia).
  rewrite (wrap32_small _ Hu).
  assert (assert_ cfg 260 (bool_decide (p2 * h2 > 0)) = Ok tt) as ->.
  { unfold assert_. destruct Hassert as [-> | Hpos]; [done|].
    destruct (ndebug cfg); [done|].
    rewrite bool_decide_eq_true_2 by lia. done. }
  simpl. rewrite Hconf. simpl.
  set (new := ManagedArray_new al (p2 * h2) (isCUDAEnabled conf)).
  set (nrows := if decide (m_height a > h2) then h2 else m_height a).
  set (ncols := if decide (m_pitch a > p2) then p2 else m_pitch a).
  assert (size new = p2 * h2) as Hnew by (apply size_new; nia).
  unfold is_uint in Hp1, Hh1.
  assert (0 ≤ nrows ∧ nrows ≤ h2 ∧ nrows ≤ m_height a) as Hnr
    by (unfold nrows; case_decide; lia).
  assert (0 ≤ ncols ∧ ncols ≤ p2 ∧ ncols ≤ m_pitch a) as Hncl
    by (unfold ncols; case_decide; lia).
  destruct (copy_rows_spec (m_array a) (m_pitch a) p2 ncols (m_height a) h2
              ltac:(lia) ltac:(lia) ltac:(lia) Hsz ltac:(lia) ltac:(lia)
              (Z.to_nat nrows) 0 new)
    as (new' & Hrows & Hsz' & Hptr' & _ & Hcp); [lia|lia|lia|lia|done|].
  rewrite Hrows. simpl. eexists; split; [reflexivity|].
  unfold well_formed, is_uint, at2. simpl.
  split_and!; try lia; try congruence; try done.
  intros r c Hr0 Hr1 Hr2 Hc0 Hc1 Hc2. apply Hcp.
  - unfold nrows. case_decide; lia.
  - unfold ncols. case_decide; lia.
Qed.

(** What the row loop leaves alone: every destination element outside the
    copied block of rows [i .. i+n) and columns [0 .. ncols). *)
Lemma copy_rows_outside (src : ManagedArray T) p1 p2 ncols h2 :
  0 ≤ ncols → ncols ≤ p2 → p2 * h2 < 2 ^ 32 →
  ∀ (n : nat) i (dst dst' : ManagedArray T),
    0 ≤ i → i + Z.of_nat n ≤ h2 → i + Z.of_nat n < 2 ^ 32 →
    copy_rows n i src p1 ncols dst p2 = Ok dst' →
    ∀ r c, 0 ≤ r < h2 → 0 ≤ c < p2 →
      ¬ (i ≤ r < i + Z.of_nat n ∧ c < ncols) →
      ma_data dst' !! Z.to_nat (r * p2 + c) =
      ma_data dst !! Z.to_nat (r * p2 + c).
Proof.
  intros Hn0 Hn2 Hfit2.
  induction n as [|n IH]; intros i dst dst' Hi Hh2 Hu Hrows r c Hr Hc Hout.
  { simpl in Hrows. by injection Hrows as <-. }
  simpl in Hrows.
  destruct (std_copy src (wrap32 (i * p1)) (wrap32 (i * p1) + ncols) dst
              (wrap32 (i * p2))) as [dst1|e] eqn:Hcopy; [|done].
  simpl in Hrows.
  rewrite (wrap32_small (i + 1)) in Hrows by (unfold is_uint; lia).
  rewrite (wrap32_small (i * p2)) in Hcopy by (unfold is_uint; nia).
  rewrite (IH (i + 1) dst1 dst' ltac:(lia) ltac:(lia) ltac:(lia) Hrows r c
             Hr Hc ltac:(lia)).
  rewrite (std_copy_lookup _ _ _ _ _ _ _ Hcopy).
  rewrite Z2Nat.id by nia.
  rewrite decide_False; [done|].
  intros [Hlo Hhi]. apply Hout.
  assert (r = i) as -> by nia. lia.
Qed.

End GlobalArray_more.

(** *** More about GlobalArray *)

(** X1.  The 2D constructor, for a size that fits unsigned int: the pitch
    is the one multiple of 16 in (width, width + 16], the height is the
    one asked for, the storage holds pitch * height elements, and the array
    is released. *)
Theorem GlobalArray_2d_layout {T : Type} (al : allocation T) (w h : Z)
    (conf : ExecutionConfiguration) :
  fits w h →
  ∃ a, GlobalArray_2d al w h (Some conf) = Ok a ∧
    w < getPitch a ≤ w + 16 ∧ getPitch a mod 16 = 0 ∧
    getHeight a = h ∧ getNumElements a = getPitch a * h ∧
    isAcquired a = false ∧ get a = alloc_ptr al ∧
    isNull a = bool_decide (h = 0).
Proof.
  intros (Hw & Hh & Hfp & Hfn). unfold GlobalArray_2d. simpl.
  eexists. split; [reflexivity|].
  pose proof (padded_pitch_eq w Hw Hfp) as Heq.
  pose proof (padded_pitch_above w Hw Hfp) as [Habove Hmod].
  pose proof (Z.mod_pos_bound w 16 ltac:(lia)) as Hm.
  unfold getPitch, getHeight, getNumElements, isAcquired, get, isNull. simpl.
  rewrite wrap32_small by (unfold is_uint; nia).
  rewrite size_new by nia.
  split_and!; try done; try lia.
  apply bool_decide_ext. nia.
Qed.

Lemma GlobalArray_2d_layout_witness :
  ∃ a, GlobalArray_2d (Alloc 64 (λ _, 0)) 17 3 (Some (ExecConf false)) = Ok a ∧
    getPitch a = 32 ∧ getNumElements a = 96.
Proof.
  destruct (GlobalArray_2d_layout (Alloc 64 (λ _, 0)) 17 3 (ExecConf false))
    as (a & Hctor & Hp & Hmod & _ & Hn & _).
  - unfold fits; vm_compute; intuition congruence.
  - exists a. split; [exact Hctor|].
    assert (getPitch a = 32) as Hp32.
    { assert (getPitch a = 16 * (getPitch a / 16)) as Hdiv
        by (rewrite (Z.div_mod (getPitch a) 16) at 1 by lia; lia).
      lia. }
    split; [exact Hp32|]. rewrite Hn, Hp32. reflexivity.
Defined.

(** X2.  A width within 16 of the unsigned int range wraps the pitch to 0.
    The constructor then builds a null array whatever the height; the 2D
    resize of a well-formed array fails its assertion when asserts are
    compiled in, and with NDEBUG returns a null array, all elements
    gone. *)
Theorem pitch_wraps_to_zero {T : Type} (al : allocation T) (w h : Z)
    (conf : ExecutionConfiguration) (file : string) (a : t (T:=T)) :
  2 ^ 32 - 16 ≤ w < 2 ^ 32 → is_uint h →
  m_acquired a = false → m_exec_conf a = Some conf → well_formed a →
  padded_pitch w = 0 ∧
  (∃ a0, GlobalArray_2d al w h (Some conf) = Ok a0 ∧
     getPitch a0 = 0 ∧ getHeight a0 = h ∧ isNull a0 = true) ∧
  resize2 (Build false file) al w h a = Raise (assertion_failed 260) ∧
  (∃ a', resize2 (Build true file) al w h a = Ok a' ∧
     getPitch a' = 0 ∧ getHeight a' = h ∧ isNull a' = true).
Proof.
  intros Hw Hh Hrel Hconf Hwf.
  assert (padded_pitch w = 0) as Hp.
  { unfold padded_pitch. rewrite land_15.
    pose proof (Z.mod_pos_bound w 16 ltac:(lia)) as Hm.
    rewrite (wrap32_small (16 - w mod 16)) by (unfold is_uint; lia).
    assert (w mod 16 = w - (2 ^ 32 - 16)) as ->.
    { symmetry. apply Z.mod_unique with (q := 2 ^ 28 - 1); lia. }
    unfold wrap32. replace (w + (16 - (w - (2 ^ 32 - 16)))) with (2 ^ 32) by lia.
    reflexivity. }
  split; [done|]. split_and!.
  - unfold GlobalArray_2d. rewrite Hp. simpl. eexists. split; [reflexivity|].
    done.
  - unfold resize2. rewrite checkAcquired_released by done. simpl.
    rewrite Hp. reflexivity.
  - destruct (resize2_general (Build true file) al w h a conf Hrel Hconf Hwf Hh)
      as (a' & Hr & Hp' & Hh' & (_ & _ & Hsz & _) & _);
      [rewrite Hp; lia|by left|].
    exists a'. unfold getPitch, getHeight, isNull.
    rewrite Hsz, Hp', Hh', Hp. done.
Qed.

Lemma pitch_wraps_to_zero_witness :
  padded_pitch 4294967290 = 0 ∧
  resize2 (Build false "GlobalArray.h") example_alloc 4294967290 2 example_2d
  = Raise (assertion_failed 260).
Proof.
  destruct (pitch_wraps_to_zero example_alloc 4294967290 2 example_conf
              "GlobalArray.h" example_2d) as (Hp & _ & Hres & _).
  - lia.
  - unfold is_uint. lia.
  - reflexivity.
  - reflexivity.
  - unfold well_formed, is_uint; vm_compute; intuition congruence.
  - split; [exact Hp|exact Hres].
Defined.

(** X3.  The 1D resize of a released array, shrinking or growing: the
    result has exactly [M] elements; element [i] is the old element [i]
    wherever the old array had one, and beyond the old end it is whatever
    the allocator handed out, never written by the resize. *)
Theorem resize_contents {T : Type} (cfg : build) (a : t (T:=T))
    (al : allocation T) (conf : ExecutionConfiguration) (M : Z) :
  m_acquired a = false → m_exec_conf a = Some conf → is_uint M →
  ∃ a', resize cfg al M a = Ok a' ∧ getNumElements a' = M ∧
    ∀ i : nat, Z.of_nat i < M →
      ma_data (m_array a') !! i =
        if decide (Z.of_nat i < getNumElements a)
        then ma_data (m_array a) !! i
        else Some (alloc_init al i).
Proof.
  intros Hrel Hconf [Hn0 Hn1]. unfold resize, getNumElements.
  rewrite checkAcquired_released by done. simpl. rewrite Hconf. simpl.
  set (new := ManagedArray_new al M (isCUDAEnabled conf)).
  set (ncopy := if decide (size (m_array a) > M) then M
                else size (m_array a)).
  assert (0 ≤ size (m_array a)) as Hsz by (unfold size; lia).
  assert (0 ≤ ncopy ∧ ncopy ≤ M ∧ ncopy ≤ size (m_array a)) as Hnc
    by (unfold ncopy; case_decide; lia).
  assert (size new = M) as Hnew by (apply size_new; done).
  destruct (std_copy_ok (m_array a) new 0 (0 + ncopy) 0)
    as (new' & Hcopy & Hsz' & Hptr'); [lia|lia|lia|lia|].
  rewrite Hcopy. simpl. eexists; split; [reflexivity|]. simpl.
  split; [lia|].
  intros i Hi. rewrite (std_copy_lookup _ _ _ _ _ _ _ Hcopy).
  destruct (decide (Z.of_nat i < size (m_array a))) as [Hold|Hold].
  - rewrite decide_True by (unfold ncopy; case_decide; lia).
    f_equal. lia.
  - rewrite decide_False by (unfold ncopy; case_decide; lia).
    by apply new_lookup.
Qed.

Lemma resize_contents_witness :
  ∃ a', resize example_build example_alloc 5 (example_1d false) = Ok a' ∧
    getNumElements a' = 5 ∧
    ma_data (m_array a') !! 2%nat = Some 30 ∧
    ma_data (m_array a') !! 3%nat = Some (-1).
Proof.
  destruct (resize_contents example_build (example_1d false) example_alloc
              example_conf 5 eq_refl eq_refl) as (a' & Hr & Hn & Hel).
  - unfold is_uint. lia.
  - exists a'. split; [exact Hr|]. split; [exact Hn|].
    split; [exact (Hel 2%nat ltac:(lia))|exact (Hel 3%nat ltac:(lia))].
Defined.

(** X4.  The 2D resize of a released, well-formed array, completely: the
    new array has the padded pitch and the new height; element [(r, c)]
    for a column [c] below BOTH PITCHES (padding columns included) and a
    row below both heights is the old element [(r, c)]; every other
    element is as the allocator handed it out.  So widening leaves the new
    columns unset, and a 1D array keeps its leading elements as row 0. *)
Theorem resize2_contents {T : Type} (cfg : build) (a : t (T:=T))
    (al : allocation T) (conf : ExecutionConfiguration) (w2 h2 : Z) :
  m_acquired a = false → m_exec_conf a = Some conf → well_formed a →
  fits w2 h2 → 0 < h2 →
  ∃ a', resize2 cfg al w2 h2 a = Ok a' ∧
    getPitch a' = w2 + 16 - w2 mod 16 ∧ getHeight a' = h2 ∧
    getNumElements a' = getPitch a' * h2 ∧
    ∀ r c, 0 ≤ r < h2 → 0 ≤ c < getPitch a' →
      at2 a' r c =
        if decide (r < getHeight a ∧ c < getPitch a) then at2 a r c
        else Some (alloc_init al (Z.to_nat (r * getPitch a' + c))).
Proof.
  intros Hrel Hconf (Hp1 & Hh1 & Hsz & [_ Hsmall]) (Hw2 & Hh2 & Hfp & Hfn)
    Hpos.
  pose proof (padded_pitch_eq w2 Hw2 Hfp) as Hp2.
  pose proof (padded_pitch_above w2 Hw2 Hfp) as [Habove _].
  unfold resize2. rewrite checkAcquired_released by done. simpl.
  set (p2 := padded_pitch w2) in *.
  assert (is_uint (p2 * h2)) as Hu by (unfold is_uint; nia).
  rewrite (wrap32_small _ Hu).
  assert (assert_ cfg 260 (bool_decide (p2 * h2 > 0)) = Ok tt) as ->.
  { unfold assert_. destruct (ndebug cfg); [done|].
    rewrite bool_decide_eq_true_2 by nia. done. }
  simpl. rewrite Hconf. simpl.
  set (new := ManagedArray_new al (p2 * h2) (isCUDAEnabled conf)).
  set (nrows := if decide (m_height a > h2) then h2 else m_height a).
  set (ncols := if decide (m_pitch a > p2) then p2 else m_pitch a).
  assert (size new = p2 * h2) as Hnew by (apply size_new; nia).
  unfold is_uint in Hp1, Hh1.
  assert (0 ≤ nrows ∧ nrows ≤ h2 ∧ nrows ≤ m_height a) as Hnr
    by (unfold nrows; case_decide; lia).
  assert (0 ≤ ncols ∧ ncols ≤ p2 ∧ ncols ≤ m_pitch a) as Hncl
    by (unfold ncols; case_decide; lia).
  destruct (copy_rows_spec (m_array a) (m_pitch a) p2 ncols (m_height a) h2
              ltac:(lia) ltac:(lia) ltac:(lia) Hsz ltac:(lia) ltac:(lia)
              (Z.to_nat nrows) 0 new)
    as (new' & Hrows & Hsz' & Hptr' & _ & Hcp); [lia|lia|lia|lia|done|].
  rewrite Hrows. simpl. eexists; split; [reflexivity|].
  unfold getPitch, getHeight, getNumElements, at2. simpl. fold p2.
  split_and!; try lia.
  intros r c Hr Hc. case_decide as Hin.
  - apply Hcp.
    + unfold nrows. case_decide; lia.
    + unfold ncols. case_decide; lia.
  - rewrite (copy_rows_outside (m_array a) (m_pitch a) p2 ncols h2
               ltac:(lia) ltac:(lia) ltac:(lia) (Z.to_nat nrows) 0 new new'
               ltac:(lia) ltac:(lia) ltac:(lia) Hrows r c Hr Hc).
    + apply new_lookup. rewrite Z2Nat.id by nia. nia.
    + intros [Hrr Hcc]. apply Hin.
      revert Hrr Hcc. unfold nrows, ncols. repeat case_decide; lia.
Qed.

Lemma resize2_contents_witness :
  ∃ a', resize2 example_build example_alloc 20 3 (example_1d false) = Ok a' ∧
    getPitch a' = 32 ∧
    at2 a' 0 2 = Some 30 ∧ at2 a' 0 3 = Some (-1) ∧ at2 a' 1 0 = Some (-1).
Proof.
  assert (well_formed (example_1d false)) as Hwf
    by (unfold well_formed, is_uint; vm_compute; intuition congruence).
  assert (fits 20 3) as Hfit
    by (unfold fits; vm_compute; intuition congruence).
  destruct (resize2_contents example_build (example_1d false) example_alloc
              example_conf 20 3 eq_refl eq_refl Hwf Hfit ltac:(lia))
    as (a' & Hr & Hp & _ & _ & Hel).
  exists a'. split; [exact Hr|]. change (20 + 16 - 20 mod 16) with 32 in Hp.
  split; [exact Hp|]. rewrite Hp in Hel.
  split; [exact (Hel 0 2 ltac:(lia) ltac:(lia))|].
  split; [exact (Hel 0 3 ltac:(lia) ltac:(lia))|].
  exact (Hel 1 0 ltac:(lia) ltac:(lia)).
Defined.

(** X5.  When the element count of a 2D resize wraps around unsigned int
    to less than one row of the copy, the first [std::copy] of the row loop
    writes past the new allocation: undefined behaviour, which the
    assertion [num_elements > 0] does not catch unless the count wrapped to
    exactly 0. *)
Theorem resize2_overflow_is_undefined {T : Type} (cfg : build)
    (a : t (T:=T)) (al : allocation T) (conf : ExecutionConfiguration)
    (w2 h2 : Z) :
  m_acquired a = false → m_exec_conf a = Some conf → well_formed a →
  0 < m_height a → 0 < h2 →
  wrap32 (padded_pitch w2 * h2) < Z.min (m_pitch a) (padded_pitch w2) →
  ndebug cfg = true ∨ 0 < wrap32 (padded_pitch w2 * h2) →
  resize2 cfg al w2 h2 a = Raise undefined_behaviour.
Proof.
  intros Hrel Hconf (Hp1 & Hh1 & Hsz & _) Hh1pos Hh2pos Hsmall Hassert.
  unfold resize2. rewrite checkAcquired_released by done. simpl.
  set (p2 := padded_pitch w2) in *. set (ne := wrap32 (p2 * h2)) in *.
  assert (0 ≤ ne) as Hne
    by (unfold ne, wrap32; apply Z.mod_pos_bound; lia).
  assert (assert_ cfg 260 (bool_decide (ne > 0)) = Ok tt) as ->.
  { unfold assert_. destruct Hassert as [-> | Hpos]; [done|].
    destruct (ndebug cfg); [done|].
    rewrite bool_decide_eq_true_2 by lia. done. }
  simpl. rewrite Hconf. simpl.
  set (nrows := if decide (m_height a > h2) then h2 else m_height a).
  set (ncols := if decide (m_pitch a > p2) then p2 else m_pitch a).
  assert (0 < nrows) as Hnr by (unfold nrows; case_decide; lia).
  assert (ne < ncols) as Hnc by (unfold ncols; case_decide; lia).
  destruct (Z.to_nat nrows) as [|n] eqn:Hn; [lia|].
  simpl. unfold std_copy at 1.
  rewrite decide_False; [done|].
  rewrite size_new by done.
  change (wrap32 (0 * p2)) with 0. change (wrap32 (0 * m_pitch a)) with 0.
  lia.
Qed.

(** One row of 48 elements. *)
Definition example_row : t (T:=Z) :=
  MkGlobalArray (MkManagedArray 4096 (Z.of_nat <$> seq 0 48) false) 48 1
                (Some example_conf) false.

Lemma resize2_overflow_is_undefined_witness :
  wrap32 (padded_pitch 40 * 178956971) = 16 ∧
  resize2 (Build false "hoomd/GlobalArray.h") example_alloc 40 178956971
          example_row
  = Raise undefined_behaviour.
Proof.
  split; [reflexivity|].
  apply (resize2_overflow_is_undefined (Build false "hoomd/GlobalArray.h")
           example_row example_alloc example_conf 40 178956971
           eq_refl eq_refl).
  - unfold well_formed, is_uint; vm_compute; intuition congruence.
  - reflexivity.
  - reflexivity.
  - reflexivity.
  - right. reflexivity.
Defined.

(** X6.  Swapping two released arrays exchanges storage, pitch, height and
    execution configuration, and swapping them a second time puts both
    back exactly as they were. *)
Theorem swap_twice_restores {T : Type} (cfg : build) (a b : t (T:=T)) :
  m_acquired a = false → m_acquired b = false →
  ∃ a' b', swap cfg a b = Ok (a', b') ∧ a' = b ∧ b' = a ∧
    swap cfg a' b' = Ok (a, b).
Proof.
  intros Ha Hb. destruct a as [arr1 p1 h1 c1 acq1], b as [arr2 p2 h2 c2 acq2].
  simpl in Ha, Hb. subst acq1 acq2.
  do 2 eexists. unfold swap.
  rewrite !checkAcquired_released by reflexivity. simpl.
  split; [reflexivity|]. split; [reflexivity|]. split; [reflexivity|].
  rewrite !checkAcquired_released by reflexivity. reflexivity.
Qed.

Lemma swap_twice_restores_witness :
  swap example_build (example_1d false) example_2d
  = Ok (example_2d, example_1d false) ∧
  swap example_build example_2d (example_1d false)
  = Ok (example_1d false, example_2d).
Proof.
  destruct (swap_twice_restores example_build (example_1d false) example_2d
              eq_refl eq_refl) as (a' & b' & Hs & -> & -> & Hs').
  split; [exact Hs|exact Hs'].
Defined.

(** X7.  Acquire and release leave nothing behind: acquiring a released
    array returns its data pointer and changes only the acquired flag, and
    releasing afterwards gives back the array it started from, storage,
    pitch, height and configuration untouched; release is harmless on an
    array that is not acquired. *)
Theorem acquire_release_round_trip {T : Type} (cfg : build)
    (loc : access_location) (mode : access_mode) (a : t (T:=T)) :
  m_acquired a = false →
  ∃ a', acquire cfg loc mode a = Ok (a', get a) ∧
    isAcquired a' = true ∧
    m_array a' = m_array a ∧ getPitch a' = getPitch a ∧
    getHeight a' = getHeight a ∧ m_exec_conf a' = m_exec_conf a ∧
    release a' = a ∧ release a = a.
Proof.
  intros Ha. destruct a as [arr p h c acq]. simpl in Ha. subst acq.
  eexists. unfold acquire. rewrite checkAcquired_released by reflexivity.
  simpl. split; [reflexivity|]. by split_and!.
Qed.

Lemma acquire_release_round_trip_witness :
  ∃ a', acquire example_build device overwrite example_2d = Ok (a', 4096) ∧
    release a' = example_2d.
Proof.
  destruct (acquire_release_round_trip example_build device overwrite
              example_2d eq_refl) as (a' & Hacq & _ & _ & _ & _ & _ & Hrel & _).
  exists a'. split; [exact Hacq|exact Hrel].
Defined.

(** X8.  Resizing needs an execution configuration.  On a released array
    without one the 1D resize dereferences the null pointer; so does the 2D
    resize whenever its assertion lets it through.  The default-constructed
    array is such an array, and the 1D and 2D constructors dereference the
    pointer they are given just the same. *)
Theorem resize_without_exec_conf_is_undefined {T : Type} (cfg : build)
    (a : t (T:=T)) (al : allocation T) :
  m_acquired a = false → m_exec_conf a = None →
  (∀ n, resize cfg al n a = Raise undefined_behaviour) ∧
  (∀ w h, ndebug cfg = true ∨ 0 < wrap32 (padded_pitch w * h) →
     resize2 cfg al w h a = Raise undefined_behaviour) ∧
  (∀ w h, ndebug cfg = false → wrap32 (padded_pitch w * h) = 0 →
     resize2 cfg al w h a = Raise (assertion_failed 260)) ∧
  (∀ n, GlobalArray_1d al n None = Raise undefined_behaviour) ∧
  (∀ w h, GlobalArray_2d al w h None = Raise undefined_behaviour).
Proof.
  intros Hrel Hconf. split_and!.
  - intros n. unfold resize. rewrite checkAcquired_released by done.
    simpl. by rewrite Hconf.
  - intros w h Hassert. unfold resize2.
    rewrite checkAcquired_released by done. simpl.
    assert (assert_ cfg 260 (bool_decide (wrap32 (padded_pitch w * h) > 0))
            = Ok tt) as ->.
    { unfold assert_. destruct Hassert as [-> | Hpos]; [done|].
      destruct (ndebug cfg); [done|].
      rewrite bool_decide_eq_true_2 by lia. done. }
    simpl. by rewrite Hconf.
  - intros w h Hdbg Hzero. unfold resize2.
    rewrite checkAcquired_released by done. simpl.
    unfold assert_. rewrite Hdbg, Hzero. reflexivity.
  - reflexivity.
  - reflexivity.
Qed.

Lemma resize_without_exec_conf_is_undefined_witness :
  resize example_build example_alloc 8 GlobalArray_empty
  = Raise undefined_behaviour ∧
  resize2 example_build example_alloc 3 2 GlobalArray_empty
  = Raise undefined_behaviour.
Proof.
  destruct (resize_without_exec_conf_is_undefined example_build
              GlobalArray_empty example_alloc eq_refl eq_refl)
    as (H1 & H2 & _).
  split; [exact (H1 8)|]. apply H2. left. reflexivity.
Defined.

(** X9.  Move assignment between released arrays hands the target the
    source's storage, pitch, height and configuration, and leaves the
    source with pitch 0, height 0, released and WITHOUT an execution
    configuration: resizing the moved-from array dereferences a null
    pointer.  The move constructor does the same. *)
Theorem move_leaves_source_without_exec_conf {T : Type} (cfg : build)
    (move : ManagedArray T → ManagedArray T * ManagedArray T)
    (this other : t (T:=T)) (al : allocation T) :
  m_acquired this = false → m_acquired other = false →
  ∃ this' other',
    move_assign cfg move this other = Ok (this', other') ∧
    move_construct cfg move other = Ok (this', other') ∧
    m_array this' = (move (m_array other)).1 ∧
    getPitch this' = getPitch other ∧ getHeight this' = getHeight other ∧
    m_exec_conf this' = m_exec_conf other ∧ isAcquired this' = false ∧
    m_array other' = (move (m_array other)).2 ∧
    getPitch other' = 0 ∧ getHeight other' = 0 ∧
    isAcquired other' = false ∧
    ∀ n, resize cfg al n other' = Raise undefined_behaviour.
Proof.
  intros Ht Ho. unfold move_assign, move_construct.
  rewrite !checkAcquired_released by done. simpl.
  destruct (move (m_array other)) as [arr rest] eqn:Hmove. simpl.
  rewrite ?checkAcquired_released by done. simpl.
  do 2 eexists. split; [reflexivity|]. split; [reflexivity|].
  unfold getPitch, getHeight, isAcquired. simpl.
  split_and!; try done.
  intros n. unfold resize. by rewrite checkAcquired_released.
Qed.

Lemma move_leaves_source_without_exec_conf_witness :
  ∃ this' other',
    move_assign example_build (λ m, (m, ManagedArray_empty))
                (example_1d false) example_2d = Ok (this', other') ∧
    getNumElements this' = 32 ∧
    resize example_build example_alloc 4 other' = Raise undefined_behaviour.
Proof.
  destruct (move_leaves_source_without_exec_conf example_build
              (λ m, (m, ManagedArray_empty)) (example_1d false) example_2d
              example_alloc eq_refl eq_refl)
    as (this' & other' & Hm & _ & Harr & _ & _ & _ & _ & _ & _ & _ & _ & Hres).
  exists this', other'. split; [exact Hm|].
  split; [unfold getNumElements; rewrite Harr; reflexivity|exact (Hres 4)].
Defined.

(** X10.  Copy assignment to a released array does what the copy
    constructor does, whatever the target held.  From a released source
    with an execution configuration both build a released array with the
    source's pitch, height and configuration on a copy of its storage; from
    a released source without one (default-constructed or moved-from) both
    dereference the null configuration in [REGISTER_ALLOCATION]; from an
    acquired source both stop, at their own [checkAcquired]. *)
Theorem assign_agrees_with_copy_construct {T : Type} (cfg : build)
    (copy : ManagedArray T → ManagedArray T) (this rhs : t (T:=T)) :
  m_acquired this = false →
  (m_acquired rhs = false →
   assign cfg copy this rhs = copy_construct cfg copy rhs) ∧
  (m_acquired rhs = false → is_Some (m_exec_conf rhs) →
   ∃ a', assign cfg copy this rhs = Ok a' ∧
     copy_construct cfg copy rhs = Ok a' ∧
     m_array a' = copy (m_array rhs) ∧ getPitch a' = getPitch rhs ∧
     getHeight a' = getHeight rhs ∧ m_exec_conf a' = m_exec_conf rhs ∧
     isAcquired a' = false) ∧
  (m_acquired rhs = false → m_exec_conf rhs = None →
   assign cfg copy this rhs = Raise undefined_behaviour ∧
   copy_construct cfg copy rhs = Raise undefined_behaviour) ∧
  (m_acquired rhs = true →
   assign cfg copy this rhs = Raise (scoping_violation cfg 79) ∧
   copy_construct cfg copy rhs = Raise (scoping_violation cfg 57)).
Proof.
  intros Ht. unfold assign, copy_construct. split_and!.
  - intros Hr. by rewrite !checkAcquired_released by done.
  - intros Hr [conf Hconf]. rewrite !checkAcquired_released by done.
    simpl. rewrite Hconf. simpl. eexists. by split_and!.
  - intros Hr Hconf. rewrite !checkAcquired_released by done.
    simpl. by rewrite Hconf.
  - intros Hr. rewrite !(checkAcquired_acquired cfg rhs) by done. done.
Qed.

Lemma assign_agrees_with_copy_construct_witness :
  assign example_build id example_2d (example_1d false)
  = Ok (example_1d false) ∧
  assign example_build id example_2d GlobalArray_empty
  = Raise undefined_behaviour ∧
  copy_construct example_build id (GlobalArray_empty (T:=Z))
  = Raise undefined_behaviour ∧
  copy_construct example_build id (example_1d true)
  = Raise (runtime_error
      "GlobalArray already acquired in hoomd/GlobalArray.h line 57 - ArrayHandle scoping mistake?").
Proof.
  destruct (assign_agrees_with_copy_construct example_build id example_2d
              (example_1d false) eq_refl) as (_ & Hok & _).
  destruct (assign_agrees_with_copy_construct example_build id example_2d
              GlobalArray_empty eq_refl) as (_ & _ & Hnull & _).
  destruct (assign_agrees_with_copy_construct example_build id example_2d
              (example_1d true) eq_refl) as (_ & _ & _ & Hbad).
  destruct (Hok eq_refl ltac:(by eexists)) as (a' & Ha & Hc & _).
  split_and!.
  - rewrite Ha. vm_compute in Hc. exact (eq_sym Hc).
  - exact (proj1 (Hnull eq_refl eq_refl)).
  - exact (proj2 (Hnull eq_refl eq_refl)).
  - exact (proj2 (Hbad eq_refl)).
Defined.

End GlobalArray.

(** ** mpcd/Communicator.cc *)

Module Communicator.

(** *** Raw arrays behind an ArrayHandle *)

(** [a.data[i]] as an rvalue; past the end is undefined. *)
Definition array_get {A : Type} (a : list A) (i : Z) : result A :=
  if decide (0 ≤ i) then
    match a !! Z.to_nat i with
    | Some x => Ok x
    | None => Raise undefined_behaviour
    end
  else Raise undefined_behaviour.

(** [a.data[i] = x] *)
Definition array_set {A : Type} (a : list A) (i : Z) (x : A)
  : result (list A) :=
  if decide (0 ≤ i < Z.of_nat (length a)) then Ok (<[Z.to_nat i := x]> a)
  else Raise undefined_behaviour.

(** [neigh_max] *)
Definition neigh_max : Z := 27.

(** *** Neighbour topology *)

(** [Index3D]: the extents of the process grid. *)
Record Index3D : Type := MkIndex3D {
  getW : Z;
  getH : Z;
  getD : Z
}.

(** [std::map<unsigned int, unsigned int>]: keys ascending, no key twice. *)
Definition neigh_map_t : Type := list (Z * Z).

(** [neigh_map.insert(std::make_pair(k, v))]: a key already present keeps
    its value. *)
Fixpoint map_insert (k v : Z) (m : neigh_map_t) : neigh_map_t :=
  match m with
  | [] => [(k, v)]
  | (k', v') :: m' =>
      if decide (k < k') then (k, v) :: m
      else if decide (k = k') then m
      else (k', v') :: map_insert k v m'
  end.

(** The neighbour arrays of the communicator and their counters. *)
Record neighbors_t : Type := MkNeighbors {
  m_neighbors : list Z;
  m_unique_neighbors : list Z;
  m_adj_mask : list Z;
  m_nneigh : Z;
  m_n_unique_neigh : Z
}.

Section topology.
(** [m_decomposition]: the domain indexer, the grid position of this rank
    and the rank table read through the indexer,
    [h_cart_ranks.data[di(i,j,k)]]. *)
Variable di : Index3D.
Variable mypos : Z * Z * Z.
Variable cart_rank : Z → Z → Z → Z.

(** The coordinate of the neighbour at offset [ix] along an axis of extent
    [ext], where this rank sits at [l]:
    [i = ix + l; if (i == (int)ext) i = 0; else if (i < 0) i += ext;] *)
Definition neighbor_coord (ix l ext : Z) : Z :=
  let i := ix + l in
  if decide (i = to_int ext) then 0
  else if decide (i < 0) then to_int (i + ext)
  else i.

(** One pass of [for (int ix = -1; ix <= 1; ix++)]. *)
Definition for_offsets {S : Type} (body : Z → S → result S) (s : S)
  : result S :=
  do s <- body (-1) s;
  do s <- body 0 s;
  body 1 s.

(** The innermost body past the [continue]s: record one neighbour. *)
Definition record_neighbor (ix iy iz i j k : Z) (s : neighbors_t)
  : result neighbors_t :=
  let dir := wrap32 (((iz + 1) * 3 + (iy + 1)) * 3 + (ix + 1)) in
  let mask := wrap32 (Z.shiftl 1 dir) in
  let neighbor := cart_rank i j k in
  do h_neighbors <- array_set (m_neighbors s) (m_nneigh s) neighbor;
  do h_adj_mask <- array_set (m_adj_mask s) (m_nneigh s) mask;
  Ok (MkNeighbors h_neighbors (m_unique_neighbors s) h_adj_mask
                  (wrap32 (m_nneigh s + 1)) (m_n_unique_neigh s)).

(** The loop over the 27 offsets. *)
Definition enumerate_neighbors (s : neighbors_t) : result neighbors_t :=
  let '(x, y, z) := mypos in
  let l := to_int x in
  let m := to_int y in
  let n := to_int z in
  for_offsets (λ ix s,
    let i := neighbor_coord ix l (getW di) in
    if negb (ix =? 0) && (getW di =? 1) then Ok s else
    for_offsets (λ iy s,
      let j := neighbor_coord iy m (getH di) in
      if negb (iy =? 0) && (getH di =? 1) then Ok s else
      for_offsets (λ iz s,
        let k := neighbor_coord iz n (getD di) in
        if negb (iz =? 0) && (getD di =? 1) then Ok s else
        if (ix =? 0) && (iy =? 0) && (iz =? 0) then Ok s else
        record_neighbor ix iy iz i j k s) s) s) s.

(** [for (j = 0; j < m_nneigh; ++j)
       if (h_neighbors.data[j] == h_neighbors.data[i]) m |= h_adj_mask.data[j];]
    with [cnt] iterations left. *)
Fixpoint combine_masks (cnt : nat) (j : Z) (h_neighbors h_adj_mask : list Z)
    (key : Z) (m : Z) : result Z :=
  match cnt with
  | O => Ok m
  | S cnt' =>
      do nj <- array_get h_neighbors j;
      do m' <- (if decide (nj = key)
                then do mj <- array_get h_adj_mask j; Ok (Z.lor m mj)
                else Ok m);
      combine_masks cnt' (wrap32 (j + 1)) h_neighbors h_adj_mask key m'
  end.

(** [for (i = 0; i < m_nneigh; ++i)] building [neigh_map]. *)
Fixpoint filter_neighbors (cnt : nat) (i : Z) (nneigh : Z)
    (h_neighbors h_adj_mask : list Z) (neigh_map : neigh_map_t)
  : result neigh_map_t :=
  match cnt with
  | O => Ok neigh_map
  | S cnt' =>
      do key <- array_get h_neighbors i;
      do m <- combine_masks (Z.to_nat nneigh) 0 h_neighbors h_adj_mask key 0;
      filter_neighbors cnt' (wrap32 (i + 1)) nneigh h_neighbors h_adj_mask
                       (map_insert key m neigh_map)
  end.

(** [for (auto it = neigh_map.begin(); it != neigh_map.end(); ++it)] *)
Fixpoint store_unique (entries : neigh_map_t) (n : Z)
    (h_unique_neighbors h_adj_mask : list Z) : result (list Z * list Z) :=
  match entries with
  | [] => Ok (h_unique_neighbors, h_adj_mask)
  | (first, second) :: rest =>
      do h_unique_neighbors <- array_set h_unique_neighbors n first;
      do h_adj_mask <- array_set h_adj_mask n second;
      store_unique rest (n + 1) h_unique_neighbors h_adj_mask
  end.

(** [initializeNeighborArrays()] *)
Definition initializeNeighborArrays (s : neighbors_t) : result neighbors_t :=
  let s := MkNeighbors (m_neighbors s) (m_unique_neighbors s) (m_adj_mask s)
                       0 (m_n_unique_neigh s) in
  do s <- enumerate_neighbors s;
  do neigh_map <- filter_neighbors (Z.to_nat (m_nneigh s)) 0 (m_nneigh s)
                    (m_neighbors s) (m_adj_mask s) [];
  let n_unique := wrap32 (Z.of_nat (length neigh_map)) in
  do '(h_unique_neighbors, h_adj_mask) <-
       store_unique neigh_map 0 (m_unique_neighbors s) (m_adj_mask s);
  Ok (MkNeighbors (m_neighbors s) h_unique_neighbors h_adj_mask
                  (m_nneigh s) n_unique).

End topology.

(** *** The neighbour set, as the spec words it *)

Section topology_facts.
Variable di : Index3D.
Variables l m n : Z.
Variable cart_rank : Z → Z → Z → Z.

(** The 27 offsets, [ix] outermost as in the loop. *)
Definition offsets : list (Z * Z * Z) :=
  ix ← [-1; 0; 1]; iy ← [-1; 0; 1]; iz ← [-1; 0; 1]; [(ix, iy, iz)].

(** A non-zero offset that moves along no axis of extent 1. *)
Definition survives (o : Z * Z * Z) : bool :=
  let '(dx, dy, dz) := o in
  negb (negb (dx =? 0) && (getW di =? 1)) &&
  negb (negb (dy =? 0) && (getH di =? 1)) &&
  negb (negb (dz =? 0) && (getD di =? 1)) &&
  negb ((dx =? 0) && (dy =? 0) && (dz =? 0)).

Definition surviving : list (Z * Z * Z) := List.filter survives offsets.

Definition direction (o : Z * Z * Z) : Z :=
  let '(dx, dy, dz) := o in ((dz + 1) * 3 + (dy + 1)) * 3 + (dx + 1).

(** The rank an offset resolves to, by per-axis modular wrapping. *)
Definition resolve (o : Z * Z * Z) : Z :=
  let '(dx, dy, dz) := o in
  cart_rank ((l + dx) mod getW di) ((m + dy) mod getH di)
            ((n + dz) mod getD di).

(** The same through the wrapping code of the loop. *)
Definition neighbor_of (o : Z * Z * Z) : Z :=
  let '(dx, dy, dz) := o in
  cart_rank (neighbor_coord dx (to_int l) (getW di))
            (neighbor_coord dy (to_int m) (getH di))
            (neighbor_coord dz (to_int n) (getD di)).

Definition bitwise_or (masks : list Z) : Z := foldr Z.lor 0 masks.

(** What the enumeration loop leaves in the first [m_nneigh] slots. *)
Definition found : list (Z * Z) :=
  (λ o, (neighbor_of o, 2 ^ direction o)) <$> surviving.

Lemma enumerate_neighbors_spec nb un am nu :
  length nb = 27%nat → length am = 27%nat →
  ∃ nb' am',
    enumerate_neighbors di (l, m, n) cart_rank (MkNeighbors nb un am 0 nu)
    = Ok (MkNeighbors (found.*1 ++ nb') un (found.*2 ++ am')
                      (Z.of_nat (length found)) nu) ∧
    length (found.*1 ++ nb') = 27%nat ∧ length (found.*2 ++ am') = 27%nat.
Proof.
  intros Hnb Ham.
  do 27 (destruct nb as [|? nb]; [discriminate Hnb|]).
  destruct nb; [|discriminate Hnb].
  do 27 (destruct am as [|? am]; [discriminate Ham|]).
  destruct am; [|discriminate Ham].
  clear Hnb Ham.
  unfold found, surviving, survives, enumerate_neighbors, neighbor_of.
  destruct (getW di =? 1), (getH di =? 1), (getD di =? 1);
    eexists _, _; (split; [cbv -[neighbor_coord to_int]; reflexivity|]);
    split; reflexivity.
Qed.

End topology_facts.

(** *** The merge by rank *)

Section merge_facts.
Implicit Types (f seen rest : list (Z * Z)) (acc : neigh_map_t).

(** The inner loop as a fold, and the mask it computes for [key]. *)
Definition or_step (key : Z) (m : Z) (p : Z * Z) : Z :=
  if decide (p.1 = key) then Z.lor m p.2 else m.

Definition or_masks (key : Z) f : Z := foldl (or_step key) 0 f.

(** The outer loop as a fold over the recorded neighbours. *)
Definition merge_step f acc (p : Z * Z) : neigh_map_t :=
  map_insert p.1 (or_masks p.1 f) acc.

Definition merged f : neigh_map_t := foldl (merge_step f) [] f.

Lemma array_get_app (xs ys : list Z) (i : nat) x :
  xs !! i = Some x → array_get (xs ++ ys) (Z.of_nat i) = Ok x.
Proof.
  intros Hx. unfold array_get. rewrite decide_True by lia.
  rewrite Nat2Z.id, lookup_app_l by (by eapply lookup_lt_Some).
  by rewrite Hx.
Qed.

Lemma combine_masks_spec f nb' am' key :
  Z.of_nat (length f) < 2 ^ 32 →
  ∀ rest seen m, f = seen ++ rest →
    combine_masks (length rest) (Z.of_nat (length seen))
                  (f.*1 ++ nb') (f.*2 ++ am') key m
    = Ok (foldl (or_step key) m rest).
Proof.
  intros Hlen. induction rest as [|p rest IH]; intros seen m Hf; [done|].
  simpl.
  assert (f !! length seen = Some p) as Hp.
  { rewrite Hf, lookup_app_r, Nat.sub_diag by lia. done. }
  rewrite (array_get_app _ _ _ p.1) by (by rewrite list_lookup_fmap, Hp).
  simpl.
  assert (wrap32 (Z.of_nat (length seen) + 1)
          = Z.of_nat (length (seen ++ [p]))) as ->.
  { rewrite length_app. simpl. unfold wrap32. rewrite Z.mod_small; [lia|].
    rewrite Hf, length_app in Hlen. simpl in Hlen. lia. }
  unfold or_step at 2. destruct (decide (p.1 = key)) as [Hk|Hk].
  - rewrite (array_get_app _ _ _ p.2) by (by rewrite list_lookup_fmap, Hp).
    simpl. apply IH. by rewrite <- app_assoc.
  - simpl. apply IH. by rewrite <- app_assoc.
Qed.

Lemma filter_neighbors_spec f nb' am' :
  Z.of_nat (length f) < 2 ^ 32 →
  ∀ rest seen acc, f = seen ++ rest →
    filter_neighbors (length rest) (Z.of_nat (length seen))
                     (Z.of_nat (length f)) (f.*1 ++ nb') (f.*2 ++ am') acc
    = Ok (foldl (merge_step f) acc rest).
Proof.
  intros Hlen. induction rest as [|p rest IH]; intros seen acc Hf; [done|].
  simpl.
  assert (f !! length seen = Some p) as Hp.
  { rewrite Hf, lookup_app_r, Nat.sub_diag by lia. done. }
  rewrite (array_get_app _ _ _ p.1) by (by rewrite list_lookup_fmap, Hp).
  simpl. rewrite Nat2Z.id.
  pose proof (combine_masks_spec f nb' am' p.1 Hlen f [] 0 eq_refl) as Hc.
  change (Z.of_nat (length [])) with 0 in Hc. rewrite Hc. simpl.
  assert (wrap32 (Z.of_nat (length seen) + 1)
          = Z.of_nat (length (seen ++ [p]))) as ->.
  { rewrite length_app. simpl. unfold wrap32. rewrite Z.mod_small; [lia|].
    rewrite Hf, length_app in Hlen. simpl in Hlen. lia. }
  apply IH. by rewrite <- app_assoc.
Qed.

Lemma array_set_app (pre post : list Z) x y :
  array_set (pre ++ x :: post) (Z.of_nat (length pre)) y
  = Ok (pre ++ y :: post).
Proof.
  unfold array_set. rewrite decide_True
    by (rewrite length_app; simpl; lia).
  rewrite Nat2Z.id. f_equal.
  rewrite insert_app_r_alt, Nat.sub_diag by lia. done.
Qed.

Lemma store_unique_spec (es : neigh_map_t) :
  ∀ pre_u pre_a rest_u rest_a,
    length pre_u = length pre_a →
    (length es ≤ length rest_u)%nat → (length es ≤ length rest_a)%nat →
    store_unique es (Z.of_nat (length pre_u))
                 (pre_u ++ rest_u) (pre_a ++ rest_a)
    = Ok (pre_u ++ es.*1 ++ drop (length es) rest_u,
          pre_a ++ es.*2 ++ drop (length es) rest_a).
Proof.
  induction es as [|[k v] es IH]; intros pre_u pre_a rest_u rest_a Hpre Hu Ha.
  { simpl. by rewrite !drop_0. }
  destruct rest_u as [|u rest_u]; [simpl in Hu; lia|].
  destruct rest_a as [|a rest_a]; [simpl in Ha; lia|].
  simpl in *. rewrite array_set_app. simpl.
  rewrite Hpre, array_set_app. simpl.
  specialize (IH (pre_u ++ [k]) (pre_a ++ [v]) rest_u rest_a).
  rewrite !length_app, <- !app_assoc in IH. simpl in IH.
  rewrite Hpre in IH.
  replace (Z.of_nat (length pre_a + 1)) with (Z.of_nat (length pre_a) + 1)
    in IH by lia.
  apply IH; lia.
Qed.

(** [std::map::insert] keeps the keys ascending and distinct. *)
Lemma map_insert_keys k v acc k' :
  k' ∈ (map_insert k v acc).*1 ↔ k' = k ∨ k' ∈ acc.*1.
Proof.
  induction acc as [|[k0 v0] acc IH]; simpl.
  - rewrite list_elem_of_singleton, elem_of_nil. naive_solver.
  - repeat case_decide; simpl; rewrite ?elem_of_cons, ?IH; naive_solver.
Qed.

Lemma map_insert_elem k v acc p :
  p ∈ map_insert k v acc → p = (k, v) ∨ p ∈ acc.
Proof.
  induction acc as [|[k0 v0] acc IH]; simpl.
  - rewrite list_elem_of_singleton. naive_solver.
  - repeat case_decide; rewrite ?elem_of_cons; naive_solver.
Qed.

Lemma map_insert_sorted k v acc :
  StronglySorted Z.lt acc.*1 → StronglySorted Z.lt (map_insert k v acc).*1.
Proof.
  induction acc as [|[k0 v0] acc IH]; simpl; intros Hs.
  - repeat constructor.
  - apply StronglySorted_cons in Hs as [Hall Hs].
    repeat case_decide; simpl.
    + apply StronglySorted_cons. split.
      * constructor; [done|]. eapply Forall_impl; [exact Hall|].
        simpl. intros. lia.
      * apply StronglySorted_cons. done.
    + apply StronglySorted_cons. done.
    + apply StronglySorted_cons. split; [|by apply IH].
      apply Forall_forall. intros k' [->|Hk']%map_insert_keys; [lia|].
      by eapply Forall_forall in Hall.
Qed.

Lemma sorted_keys_NoDup (ks : list Z) : StronglySorted Z.lt ks → NoDup ks.
Proof.
  induction ks as [|k ks IH]; [constructor|].
  intros [Hall Hs]%StronglySorted_cons. constructor; [|by apply IH].
  intros Hin. eapply Forall_forall in Hall; [|exact Hin]. lia.
Qed.

Lemma map_insert_length_le k v acc :
  (length (map_insert k v acc) ≤ S (length acc))%nat.
Proof.
  induction acc as [|[k0 v0] acc IH]; simpl; [lia|].
  repeat case_decide; simpl; lia.
Qed.

Lemma map_insert_length_absent k v acc :
  k ∉ acc.*1 → length (map_insert k v acc) = S (length acc).
Proof.
  induction acc as [|[k0 v0] acc IH]; simpl; [done|].
  rewrite not_elem_of_cons. intros [Hne Hnin].
  repeat case_decide; simpl; [done|done|]. by rewrite IH.
Qed.

(** What the outer loop maintains. *)
Lemma merge_invariant f :
  ∀ rest seen acc, f = seen ++ rest →
    StronglySorted Z.lt acc.*1 →
    (∀ k, k ∈ acc.*1 ↔ k ∈ seen.*1) →
    (∀ p, p ∈ acc → p.2 = or_masks p.1 f) →
    let r := foldl (merge_step f) acc rest in
    StronglySorted Z.lt r.*1 ∧
    (∀ k, k ∈ r.*1 ↔ k ∈ f.*1) ∧
    (∀ p, p ∈ r → p.2 = or_masks p.1 f) ∧
    (length r ≤ length acc + length rest)%nat ∧
    (NoDup f.*1 → length r = (length acc + length rest)%nat).
Proof.
  induction rest as [|p rest IH]; intros seen acc Hf Hs Hk Hv; simpl.
  { rewrite app_nil_r in Hf. subst seen. split_and!; try done; lia. }
  destruct (IH (seen ++ [p]) (merge_step f acc p))
    as (Hs' & Hk' & Hv' & Hle & Heq).
  - by rewrite <- app_assoc.
  - by apply map_insert_sorted.
  - intros k. unfold merge_step. rewrite map_insert_keys, Hk.
    rewrite fmap_app, elem_of_app. simpl.
    rewrite list_elem_of_singleton. naive_solver.
  - intros q [->|Hq]%map_insert_elem; [done|by apply Hv].
  - split_and!; [done|done|done|..].
    + pose proof (map_insert_length_le p.1 (or_masks p.1 f) acc) as Hl.
      change (map_insert p.1 (or_masks p.1 f) acc)
        with (merge_step f acc p) in Hl. lia.
    + intros Hnd. rewrite (Heq Hnd).
      change (merge_step f acc p)
        with (map_insert p.1 (or_masks p.1 f) acc).
      rewrite map_insert_length_absent; [lia|].
      rewrite Hk. rewrite Hf, fmap_app in Hnd.
      apply NoDup_app in Hnd as (_ & Hdisj & _).
      intros Hin. apply (Hdisj _ Hin). simpl. left.
Qed.

Lemma merged_spec f :
  NoDup (merged f).*1 ∧
  (∀ k, k ∈ (merged f).*1 ↔ k ∈ f.*1) ∧
  (∀ p, p ∈ merged f → p.2 = or_masks p.1 f) ∧
  (length (merged f) ≤ length f)%nat ∧
  (NoDup f.*1 → length (merged f) = length f).
Proof.
  destruct (merge_invariant f f [] [] eq_refl) as (Hs & Hk & Hv & Hle & Heq).
  - constructor.
  - done.
  - intros p Hp. by apply elem_of_nil in Hp.
  - split_and!; try done. by apply sorted_keys_NoDup.
Qed.

(** The iteration order of [std::map]: ascending keys. *)
Lemma merged_sorted f : StronglySorted Z.lt (merged f).*1.
Proof.
  destruct (merge_invariant f f [] [] eq_refl) as (Hs & _); try done.
  - constructor.
  - intros p Hp. by apply elem_of_nil in Hp.
Qed.

(** The accumulated mask is the OR of the masks recorded for the key. *)
Lemma or_masks_bitwise_or key f :
  or_masks key f = bitwise_or (filter (λ p, p.1 = key) f).*2.
Proof.
  unfold or_masks.
  enough (∀ m, foldl (or_step key) m f
               = Z.lor m (bitwise_or (filter (λ p, p.1 = key) f).*2)) as ->
    by apply Z.lor_0_l.
  induction f as [|p f IH]; intros m; simpl.
  - by rewrite Z.lor_0_r.
  - rewrite IH. unfold or_step. case_decide.
    + rewrite filter_cons_True by done. simpl. by rewrite Z.lor_assoc.
    + by rewrite filter_cons_False by done.
Qed.

Lemma filter_fmap {A B : Type} (g : A → B) (P : B → Prop)
    `{!∀ b, Decision (P b)} (l : list A) :
  filter P (g <$> l) = g <$> filter (λ a, P (g a)) l.
Proof.
  induction l as [|a l IH]; [done|]. rewrite fmap_cons.
  destruct (decide (P (g a))).
  - rewrite (filter_cons_True P), (filter_cons_True (λ a, P (g a))) by done.
    by rewrite fmap_cons, IH.
  - by rewrite (filter_cons_False P), (filter_cons_False (λ a, P (g a)))
      by done.
Qed.

End merge_facts.

(** *** What initializeNeighborArrays computes *)

(** The unique neighbours with their masks: the first [m_n_unique_neigh]
    slots of [m_unique_neighbors] and [m_adj_mask]. *)
Definition listed (s : neighbors_t) : list (Z * Z) :=
  take (Z.to_nat (m_n_unique_neigh s))
       (zip (m_unique_neighbors s) (m_adj_mask s)).

(** The offsets recorded by the loop: the first [m_nneigh] slots of
    [m_neighbors]. *)
Definition recorded (s : neighbors_t) : list Z :=
  take (Z.to_nat (m_nneigh s)) (m_neighbors s).

Definition arrays_allocated (s : neighbors_t) : Prop :=
  length (m_neighbors s) = 27%nat ∧
  length (m_unique_neighbors s) = 27%nat ∧
  length (m_adj_mask s) = 27%nat.

(** A grid position inside a grid whose extents fit [int]. *)
Definition valid_grid (di : Index3D) (l m n : Z) : Prop :=
  (0 ≤ l < getW di ∧ getW di < 2 ^ 31) ∧
  (0 ≤ m < getH di ∧ getH di < 2 ^ 31) ∧
  (0 ≤ n < getD di ∧ getD di < 2 ^ 31).

Definition unit_offset (d : Z) : Prop := d = -1 ∨ d = 0 ∨ d = 1.

Section neighbor_set.
Variable di : Index3D.
Variables l m n : Z.
Variable cart_rank : Z → Z → Z → Z.

Lemma neighbor_coord_mod ix x ext :
  unit_offset ix → 0 ≤ x < ext → ext < 2 ^ 31 →
  neighbor_coord ix x ext = (x + ix) mod ext.
Proof.
  intros Hix Hx Hext. pose proof to_int_small as Hint.
  unfold neighbor_coord. rewrite (Hint ext) by lia.
  case_decide as H1.
  - rewrite Z.add_comm, H1, Z.mod_same by lia. done.
  - case_decide as H2.
    + assert (ix = -1 ∧ x = 0) as [-> ->] by (unfold unit_offset in *; lia).
      rewrite Hint by lia.
      apply Z.mod_unique with (q := -1); lia.
    + rewrite Z.mod_small by (unfold unit_offset in *; lia). lia.
Qed.

Lemma offsets_unit :
  Forall (λ o : Z * Z * Z,
            unit_offset o.1.1 ∧ unit_offset o.1.2 ∧ unit_offset o.2) offsets.
Proof. unfold unit_offset. by apply (bool_decide_unpack _). Qed.

Lemma surviving_offsets o : o ∈ surviving di → o ∈ offsets.
Proof.
  unfold surviving. rewrite !list_elem_of_In, filter_In. naive_solver.
Qed.

Lemma neighbor_of_resolve o :
  valid_grid di l m n → o ∈ offsets →
  neighbor_of di l m n cart_rank o = resolve di l m n cart_rank o.
Proof.
  intros (Hx & Hy & Hz) Ho.
  pose proof offsets_unit as Hu. eapply Forall_forall in Hu; [|exact Ho].
  destruct o as [[dx dy] dz]. simpl in Hu. destruct Hu as (Hdx & Hdy & Hdz).
  unfold neighbor_of, resolve.
  rewrite !to_int_small by lia.
  rewrite !neighbor_coord_mod by (done || lia). done.
Qed.

Lemma take_zip_prefix (es : list (Z * Z)) (us ms : list Z) :
  take (length es) (zip (es.*1 ++ us) (es.*2 ++ ms)) = es.
Proof.
  rewrite zip_with_app by (by rewrite !length_fmap).
  rewrite zip_fst_snd.
  rewrite take_app_le by lia. by rewrite firstn_all.
Qed.

(** The whole function on allocated arrays. *)
Lemma initializeNeighborArrays_spec (s : neighbors_t) :
  arrays_allocated s →
  ∃ s', initializeNeighborArrays di (l, m, n) cart_rank s = Ok s' ∧
    arrays_allocated s' ∧
    recorded s' = (found di l m n cart_rank).*1 ∧
    listed s' = merged (found di l m n cart_rank) ∧
    m_n_unique_neigh s' =
      Z.of_nat (length (merged (found di l m n cart_rank))).
Proof.
  intros (Hnb & Hun & Ham). unfold initializeNeighborArrays.
  destruct (enumerate_neighbors_spec di l m n cart_rank (m_neighbors s)
              (m_unique_neighbors s) (m_adj_mask s) (m_n_unique_neigh s)
              Hnb Ham) as (nb' & am' & Hen & Hnb' & Ham').
  rewrite Hen. simpl. set (f := found di l m n cart_rank) in *.
  assert (length f ≤ 27)%nat as Hlen.
  { rewrite length_app, length_fmap in Hnb'. lia. }
  rewrite Nat2Z.id.
  pose proof (filter_neighbors_spec f nb' am' ltac:(lia) f [] [] eq_refl)
    as Hfilter.
  change (Z.of_nat (length [])) with 0 in Hfilter. rewrite Hfilter. simpl.
  fold (merged f).
  destruct (merged_spec f) as (_ & _ & _ & Hle & _).
  pose proof (store_unique_spec (merged f) [] [] (m_unique_neighbors s)
                (f.*2 ++ am') eq_refl ltac:(lia) ltac:(lia)) as Hstore.
  change (Z.of_nat (length [])) with 0 in Hstore.
  rewrite !app_nil_l in Hstore. rewrite Hstore. simpl.
  eexists. split; [reflexivity|].
  unfold arrays_allocated, recorded, listed. simpl.
  rewrite (wrap32_small_nat (length (merged f))) by lia.
  rewrite !Nat2Z.id. split_and!.
  - done.
  - rewrite length_app, length_fmap, length_drop. lia.
  - rewrite length_app, length_fmap, length_drop. lia.
  - rewrite take_app_le by (rewrite length_fmap; lia).
    rewrite firstn_all2 by (rewrite length_fmap; lia). done.
  - apply take_zip_prefix.
  - done.
Qed.

(** Membership in [surviving], spelled out. *)
Lemma elem_of_surviving dx dy dz :
  (dx, dy, dz) ∈ surviving di ↔
    (dx, dy, dz) ∈ offsets ∧ (dx, dy, dz) ≠ (0, 0, 0) ∧
    (dx ≠ 0 → getW di ≠ 1) ∧ (dy ≠ 0 → getH di ≠ 1) ∧
    (dz ≠ 0 → getD di ≠ 1).
Proof using di.
  clear l m n cart_rank.
  unfold surviving. rewrite !list_elem_of_In, filter_In.
  unfold survives.
  destruct (Z.eqb_spec dx 0), (Z.eqb_spec dy 0), (Z.eqb_spec dz 0),
    (Z.eqb_spec (getW di) 1), (Z.eqb_spec (getH di) 1),
    (Z.eqb_spec (getD di) 1); simpl; naive_solver.
Qed.

(** The recorded pairs in the spec's words: modular wrapping, [1 << dir]. *)
Lemma found_resolve :
  valid_grid di l m n →
  found di l m n cart_rank
  = (λ o, (resolve di l m n cart_rank o, Z.shiftl 1 (direction o)))
      <$> surviving di.
Proof.
  intros Hgrid. unfold found. apply list_fmap_ext. intros i o Ho.
  apply list_elem_of_lookup_2, surviving_offsets in Ho.
  rewrite neighbor_of_resolve by done. f_equal.
  pose proof offsets_unit as Hu. eapply Forall_forall in Hu; [|exact Ho].
  destruct o as [[dx dy] dz]. simpl in Hu. unfold unit_offset in Hu.
  rewrite Z.shiftl_1_l. done.
Qed.

Lemma listed_mask (f : list (Z * Z * Z)) (rank : Z * Z * Z → Z)
    (bit : Z * Z * Z → Z) (r : Z) :
  or_masks r ((λ o, (rank o, bit o)) <$> f)
  = bitwise_or (bit <$> filter (λ o, rank o = r) f).
Proof.
  rewrite or_masks_bitwise_or.
  rewrite (filter_fmap (λ o, (rank o, bit o)) (λ p, p.1 = r)).
  by rewrite <- list_fmap_compose.
Qed.

End neighbor_set.

(** *** Small grids *)

(** All 26 non-zero offsets, enumerated directly. *)
Definition nonzero_offsets : list (Z * Z * Z) :=
  filter (λ o, o ≠ (0, 0, 0)) offsets.

(** The rank table names every grid cell differently. *)
Definition injective_on_grid (di : Index3D) (cart_rank : Z → Z → Z → Z)
  : Prop :=
  ∀ i j k i' j' k',
    0 ≤ i < getW di → 0 ≤ j < getH di → 0 ≤ k < getD di →
    0 ≤ i' < getW di → 0 ≤ j' < getH di → 0 ≤ k' < getD di →
    cart_rank i j k = cart_rank i' j' k' → (i, j, k) = (i', j', k').

Lemma merged_same_rank (r a b : Z) :
  merged [(r, a); (r, b)] = [(r, Z.lor a b)].
Proof.
  unfold merged, merge_step, or_masks, or_step. simpl.
  rewrite !(decide_True (P := r = r)) by done.
  rewrite (decide_False (P := r < r)) by lia.
  by rewrite Z.lor_0_l.
Qed.

Lemma mod3_inj (x a b : Z) :
  0 ≤ x < 3 → unit_offset a → unit_offset b →
  (x + a) mod 3 = (x + b) mod 3 → a = b.
Proof.
  intros Hx Ha Hb.
  assert (x = 0 ∨ x = 1 ∨ x = 2) as [->|[->| ->]] by lia;
    destruct Ha as [->|[->| ->]], Hb as [->|[->| ->]];
    vm_compute; congruence.
Qed.

Lemma resolve_inj_3 (l m n : Z) (cart_rank : Z → Z → Z → Z) o1 o2 :
  0 ≤ l < 3 → 0 ≤ m < 3 → 0 ≤ n < 3 →
  injective_on_grid (MkIndex3D 3 3 3) cart_rank →
  o1 ∈ offsets → o2 ∈ offsets →
  resolve (MkIndex3D 3 3 3) l m n cart_rank o1
  = resolve (MkIndex3D 3 3 3) l m n cart_rank o2 →
  o1 = o2.
Proof.
  intros Hl Hm Hn Hinj Ho1 Ho2.
  pose proof offsets_unit as Hu1. eapply Forall_forall in Hu1; [|exact Ho1].
  pose proof offsets_unit as Hu2. eapply Forall_forall in Hu2; [|exact Ho2].
  destruct o1 as [[a1 b1] c1], o2 as [[a2 b2] c2]. simpl in *.
  intros Heq.
  assert (∀ z, 0 ≤ z mod 3 < 3) as Hmod
    by (intros; apply Z.mod_pos_bound; lia).
  apply Hinj in Heq; simpl; [|apply Hmod..].
  destruct Hu1 as (? & ? & ?), Hu2 as (? & ? & ?).
  injection Heq as Ex Ey Ez.
  f_equal; [f_equal|];
    [apply (mod3_inj l)|apply (mod3_inj m)|apply (mod3_inj n)]; done.
Qed.

(** *** The claims about the neighbour topology *)

(** C4.  On every valid grid position the computed neighbour set satisfies
    the NeighborSet invariant: the loop records exactly the non-zero offsets
    that move along no axis of extent 1, each resolved by per-axis modular
    wrapping; the listed unique ranks are pairwise distinct; every surviving
    offset resolves to exactly one listed rank; and each listed mask is the
    bitwise OR of [1 << dir] over the surviving offsets resolving to its
    rank. *)
Theorem neighbor_set_invariant (di : Index3D) (l m n : Z)
    (cart_rank : Z → Z → Z → Z) (s : neighbors_t) :
  valid_grid di l m n → arrays_allocated s →
  ∃ s', initializeNeighborArrays di (l, m, n) cart_rank s = Ok s' ∧
    recorded s' = resolve di l m n cart_rank <$> surviving di ∧
    (∀ dx dy dz, (dx, dy, dz) ∈ surviving di ↔
       (dx, dy, dz) ∈ offsets ∧ (dx, dy, dz) ≠ (0, 0, 0) ∧
       (dx ≠ 0 → getW di ≠ 1) ∧ (dy ≠ 0 → getH di ≠ 1) ∧
       (dz ≠ 0 → getD di ≠ 1)) ∧
    NoDup (listed s').*1 ∧
    (∀ o, o ∈ surviving di →
       ∃ i : nat,
         (listed s').*1 !! i = Some (resolve di l m n cart_rank o) ∧
         ∀ j : nat,
           (listed s').*1 !! j = Some (resolve di l m n cart_rank o) →
           j = i) ∧
    (∀ r mask, (r, mask) ∈ listed s' →
       mask = bitwise_or ((λ o, Z.shiftl 1 (direction o))
                <$> filter (λ o, resolve di l m n cart_rank o = r)
                           (surviving di))).
Proof.
  intros Hgrid Halloc.
  destruct (initializeNeighborArrays_spec di l m n cart_rank s Halloc)
    as (s' & Hinit & _ & Hrec & Hlisted & _).
  rewrite (found_resolve di l m n cart_rank Hgrid) in Hrec, Hlisted.
  set (f := (λ o, (resolve di l m n cart_rank o, Z.shiftl 1 (direction o)))
              <$> surviving di) in *.
  destruct (merged_spec f) as (Hnd & Hkeys & Hvals & _ & _).
  assert (f.*1 = resolve di l m n cart_rank <$> surviving di) as Hf1.
  { unfold f. by rewrite <- list_fmap_compose. }
  exists s'. rewrite Hlisted. split_and!.
  - done.
  - by rewrite Hrec.
  - exact (elem_of_surviving di).
  - done.
  - intros o Ho.
    assert (resolve di l m n cart_rank o ∈ (merged f).*1) as Hin.
    { rewrite Hkeys, Hf1. by apply list_elem_of_fmap_2. }
    apply list_elem_of_lookup in Hin as [i Hi]. exists i. split; [done|].
    intros j Hj. by eapply NoDup_lookup.
  - intros r mask Hin. specialize (Hvals _ Hin). simpl in Hvals.
    rewrite Hvals. unfold f. apply listed_mask.
Qed.

(** C5.  A 1x1x1 grid has no neighbour; on a 2x1x1 grid either rank has
    exactly one, whose mask is the OR of the -x and +x direction bits; on a
    3x3x3 grid with a rank table that is one-to-one every position has
    exactly 26 unique neighbours, the ranks of the 26 non-zero offsets. *)
Theorem unique_neighbors_on_small_grids
    (cart_rank : Z → Z → Z → Z) (s : neighbors_t) (x l m n : Z) :
  arrays_allocated s →
  0 ≤ x < 2 → 0 ≤ l < 3 → 0 ≤ m < 3 → 0 ≤ n < 3 →
  injective_on_grid (MkIndex3D 3 3 3) cart_rank →
  returns (initializeNeighborArrays (MkIndex3D 1 1 1) (0, 0, 0) cart_rank s)
    (λ s', m_n_unique_neigh s' = 0 ∧ listed s' = []) ∧
  returns (initializeNeighborArrays (MkIndex3D 2 1 1) (x, 0, 0) cart_rank s)
    (λ s', m_n_unique_neigh s' = 1 ∧
           listed s' = [(cart_rank ((x + 1) mod 2) 0 0,
                         Z.lor (Z.shiftl 1 (direction (-1, 0, 0)))
                               (Z.shiftl 1 (direction (1, 0, 0))))]) ∧
  returns (initializeNeighborArrays (MkIndex3D 3 3 3) (l, m, n) cart_rank s)
    (λ s', m_n_unique_neigh s' = 26 ∧ length (listed s') = 26%nat ∧
           NoDup (listed s').*1 ∧
           (listed s').*1
             ≡ₚ resolve (MkIndex3D 3 3 3) l m n cart_rank <$> nonzero_offsets).
Proof.
  intros Halloc Hx Hl Hm Hn Hinj. split_and!.
  - destruct (initializeNeighborArrays_spec (MkIndex3D 1 1 1) 0 0 0
                cart_rank s Halloc) as (s' & -> & _ & _ & Hlisted & Hcount).
    simpl. by rewrite Hcount, Hlisted.
  - destruct (initializeNeighborArrays_spec (MkIndex3D 2 1 1) x 0 0
                cart_rank s Halloc) as (s' & -> & _ & _ & Hlisted & Hcount).
    simpl. rewrite Hcount, Hlisted.
    rewrite found_resolve by (unfold valid_grid; simpl; lia).
    assert (x = 0 ∨ x = 1) as [-> | ->] by lia.
    + change (merged ((λ o, (resolve (MkIndex3D 2 1 1) 0 0 0 cart_rank o,
                             Z.shiftl 1 (direction o)))
                        <$> surviving (MkIndex3D 2 1 1)))
        with (merged [(cart_rank 1 0 0, Z.shiftl 1 (direction (-1, 0, 0)));
                      (cart_rank 1 0 0, Z.shiftl 1 (direction (1, 0, 0)))]).
      by rewrite merged_same_rank.
    + change (merged ((λ o, (resolve (MkIndex3D 2 1 1) 1 0 0 cart_rank o,
                             Z.shiftl 1 (direction o)))
                        <$> surviving (MkIndex3D 2 1 1)))
        with (merged [(cart_rank 0 0 0, Z.shiftl 1 (direction (-1, 0, 0)));
                      (cart_rank 0 0 0, Z.shiftl 1 (direction (1, 0, 0)))]).
      by rewrite merged_same_rank.
  - destruct (initializeNeighborArrays_spec (MkIndex3D 3 3 3) l m n
                cart_rank s Halloc) as (s' & -> & _ & _ & Hlisted & Hcount).
    simpl. rewrite Hcount, Hlisted.
    rewrite found_resolve by (unfold valid_grid; simpl; lia).
    change (surviving (MkIndex3D 3 3 3)) with nonzero_offsets.
    set (rank := resolve (MkIndex3D 3 3 3) l m n cart_rank).
    set (f := (λ o, (rank o, Z.shiftl 1 (direction o))) <$> nonzero_offsets).
    assert (f.*1 = rank <$> nonzero_offsets) as Hf1
      by (unfold f; by rewrite <- list_fmap_compose).
    assert (NoDup nonzero_offsets) as Hnd0 by (by apply (bool_decide_unpack _)).
    assert (∀ o, o ∈ nonzero_offsets → o ∈ offsets) as Hsub
      by (intros o Ho; by apply list_elem_of_filter in Ho as [_ ?]).
    assert (NoDup f.*1) as Hndf.
    { rewrite Hf1. apply NoDup_fmap_2_strong; [|done].
      intros o1 o2 Ho1 Ho2. apply resolve_inj_3; auto. }
    destruct (merged_spec f) as (Hnd & Hkeys & _ & _ & Hlen).
    assert (length (merged f) = 26%nat) as Hlen26
      by (rewrite Hlen by done; unfold f; by rewrite length_fmap).
    split_and!; [by rewrite Hlen26|done|done|].
    rewrite Hf1 in Hndf, Hkeys.
    apply NoDup_Permutation; [exact Hnd|exact Hndf|exact Hkeys].
Qed.

(** *** Concrete grids *)

(** A rank table that numbers the cells of a [W] x [H] x D grid row by
    row. *)
Definition row_major (W H : Z) (i j k : Z) : Z := (k * H + j) * W + i.

Definition fresh_arrays : neighbors_t :=
  MkNeighbors (replicate 27 0) (replicate 27 0) (replicate 27 0) 0 0.

Lemma row_major_injective : injective_on_grid (MkIndex3D 3 3 3) (row_major 3 3).
Proof.
  unfold injective_on_grid, row_major. simpl.
  intros i j k i' j' k' Hi Hj Hk Hi' Hj' Hk' Heq.
  assert (i = i' ∧ j = j' ∧ k = k') as (-> & -> & ->) by lia. reflexivity.
Qed.

Lemma neighbor_set_invariant_witness :
  ∃ s', initializeNeighborArrays (MkIndex3D 2 2 1) (0, 0, 0) (row_major 2 2)
                                 fresh_arrays = Ok s' ∧
    recorded s' = [3; 1; 3; 2; 2; 3; 1; 3] ∧ NoDup (listed s').*1.
Proof.
  destruct (neighbor_set_invariant (MkIndex3D 2 2 1) 0 0 0 (row_major 2 2)
              fresh_arrays) as (s' & Hinit & Hrec & _ & Hnd & _).
  - unfold valid_grid. simpl. lia.
  - unfold arrays_allocated. simpl. auto.
  - exists s'. split; [exact Hinit|]. split; [exact Hrec|exact Hnd].
Defined.

Lemma unique_neighbors_on_small_grids_witness :
  returns (initializeNeighborArrays (MkIndex3D 1 1 1) (0, 0, 0)
             (row_major 3 3) fresh_arrays)
    (λ s', m_n_unique_neigh s' = 0 ∧ listed s' = []) ∧
  returns (initializeNeighborArrays (MkIndex3D 2 1 1) (1, 0, 0)
             (row_major 3 3) fresh_arrays)
    (λ s', m_n_unique_neigh s' = 1 ∧ listed s' = [(0, 20480)]) ∧
  returns (initializeNeighborArrays (MkIndex3D 3 3 3) (1, 2, 0)
             (row_major 3 3) fresh_arrays)
    (λ s', m_n_unique_neigh s' = 26 ∧ length (listed s') = 26%nat ∧
           NoDup (listed s').*1 ∧
           (listed s').*1
             ≡ₚ resolve (MkIndex3D 3 3 3) 1 2 0 (row_major 3 3)
                  <$> nonzero_offsets).
Proof.
  apply (unique_neighbors_on_small_grids (row_major 3 3) fresh_arrays 1 1 2 0).
  - unfold arrays_allocated. simpl. auto.
  - lia.
  - lia.
  - lia.
  - lia.
  - exact row_major_injective.
Defined.

(** *** Particles, boxes and comm flags *)

(** [Scalar] is [float] or [double], by build.  The code compares and adds
    scalars; nothing here depends on how they round. *)
Class ScalarOps (Scalar : Type) : Type := {
  s_zero : Scalar;
  s_add : Scalar → Scalar → Scalar;
  s_sub : Scalar → Scalar → Scalar;
  s_lt : Scalar → Scalar → bool;
  s_gt : Scalar → Scalar → bool;
  s_ge : Scalar → Scalar → bool
}.

(** Integer-valued coordinates, on which floating-point arithmetic is
    exact. *)
#[export] Instance Z_scalar : ScalarOps Z := {
  s_zero := 0;
  s_add := Z.add;
  s_sub := Z.sub;
  s_lt := Z.ltb;
  s_gt := Z.gtb;
  s_ge := Z.geb
}.

Record Scalar3 (Scalar : Type) : Type := make_scalar3 {
  x3 : Scalar; y3 : Scalar; z3 : Scalar
}.
Arguments make_scalar3 {Scalar} _ _ _.
Arguments x3 {Scalar} _.
Arguments y3 {Scalar} _.
Arguments z3 {Scalar} _.

Record Scalar4 (Scalar : Type) : Type := make_scalar4 {
  x4 : Scalar; y4 : Scalar; z4 : Scalar; w4 : Scalar
}.
Arguments make_scalar4 {Scalar} _ _ _ _.
Arguments x4 {Scalar} _.
Arguments y4 {Scalar} _.
Arguments z4 {Scalar} _.
Arguments w4 {Scalar} _.

(** Modelled from the spec: BoxDim.h is not part of the sources.  A box is
    its low and high corners and a periodicity flag per axis. *)
Record BoxDim (Scalar : Type) : Type := MkBoxDim {
  getLo : Scalar3 Scalar;
  getHi : Scalar3 Scalar;
  getPeriodic : bool * bool * bool
}.
Arguments MkBoxDim {Scalar} _ _ _.
Arguments getLo {Scalar} _.
Arguments getHi {Scalar} _.
Arguments getPeriodic {Scalar} _.

(** Modelled from the spec: CommunicatorUtilities.h is not part of the
    sources.  The six faces in enumeration order, and the send mask of a
    face, the bit [1 << face] that migrateParticles uses as [comm_mask]. *)
Inductive face : Type := east | west | north | south | up | down.

Definition face_index (f : face) : Z :=
  match f with
  | east => 0 | west => 1 | north => 2 | south => 3 | up => 4 | down => 5
  end.

Definition send_mask (f : face) : Z := Z.shiftl 1 (face_index f).

(** The particle arrays the communicator reads and writes. *)
Record ParticleData (Scalar : Type) : Type := MkParticleData {
  getN : Z;
  getPositions : list (Scalar4 Scalar);
  getCommFlags : list Z
}.
Arguments MkParticleData {Scalar} _ _ _.
Arguments getN {Scalar} _.
Arguments getPositions {Scalar} _.
Arguments getCommFlags {Scalar} _.

Section particles.
Context {Scalar : Type} `{ScalarOps Scalar}.

(** The body of the loop of setCommFlags: the flags of one position. *)
Definition comm_flags (lo hi : Scalar3 Scalar) (postype : Scalar4 Scalar)
  : Z :=
  let pos := make_scalar3 (x4 postype) (y4 postype) (z4 postype) in
  let flags := 0 in
  let flags :=
    if s_ge (x3 pos) (x3 hi) then Z.lor flags (send_mask east)
    else if s_lt (x3 pos) (x3 lo) then Z.lor flags (send_mask west)
    else flags in
  let flags :=
    if s_ge (y3 pos) (y3 hi) then Z.lor flags (send_mask north)
    else if s_lt (y3 pos) (y3 lo) then Z.lor flags (send_mask south)
    else flags in
  let flags :=
    if s_ge (z3 pos) (z3 hi) then Z.lor flags (send_mask up)
    else if s_lt (z3 pos) (z3 lo) then Z.lor flags (send_mask down)
    else flags in
  flags.

(** [for (idx = 0; idx < N; ++idx)], [cnt] iterations left. *)
Fixpoint setCommFlags_loop (cnt : nat) (idx : Z) (lo hi : Scalar3 Scalar)
    (h_pos : list (Scalar4 Scalar)) (h_comm_flag : list Z)
  : result (list Z) :=
  match cnt with
  | O => Ok h_comm_flag
  | S cnt' =>
      do postype <- array_get h_pos idx;
      do h_comm_flag <- array_set h_comm_flag idx (comm_flags lo hi postype);
      setCommFlags_loop cnt' (wrap32 (idx + 1)) lo hi h_pos h_comm_flag
  end.

(** [setCommFlags(box)]; the profiler calls around the loop are left
    out. *)
Definition setCommFlags (box : BoxDim Scalar) (pdata : ParticleData Scalar)
  : result (ParticleData Scalar) :=
  let N := getN pdata in
  let lo := getLo box in
  let hi := getHi box in
  do h_comm_flag <- setCommFlags_loop (Z.to_nat N) 0 lo hi
                      (getPositions pdata) (getCommFlags pdata);
  Ok (MkParticleData N (getPositions pdata) h_comm_flag).

(** Modelled from the spec: [BoxDim::wrap] along one axis.  "A particle
    crossing the high boundary of a periodic axis reappears at
    pos - boxLength; crossing low reappears at pos + boxLength"; the
    boundaries are closed below and open above, as in setCommFlags. *)
Definition wrap_axis (periodic : bool) (lo hi pos : Scalar) : Scalar :=
  if periodic then
    let L := s_sub hi lo in
    if s_ge pos hi then s_sub pos L
    else if s_lt pos lo then s_add pos L
    else pos
  else pos.

(** Modelled from the spec: [BoxDim::wrap(postype, image)], the image
    counters left out (the caller discards them). *)
Definition wrap (box : BoxDim Scalar) (postype : Scalar4 Scalar)
  : Scalar4 Scalar :=
  let '(px, py, pz) := getPeriodic box in
  make_scalar4
    (wrap_axis px (x3 (getLo box)) (x3 (getHi box)) (x4 postype))
    (wrap_axis py (y3 (getLo box)) (y3 (getHi box)) (y4 postype))
    (wrap_axis pz (z3 (getLo box)) (z3 (getHi box)) (z4 postype))
    (w4 postype).

Definition add3 (a b : Scalar3 Scalar) : Scalar3 Scalar :=
  make_scalar3 (s_add (x3 a) (x3 b)) (s_add (y3 a) (y3 b))
               (s_add (z3 a) (z3 b)).

(** What the communicator asks of its collaborators in getWrapBox. *)
Variable cfg : build.
Variable global_box : BoxDim Scalar.
Variable grid_size : Z * Z * Z.
Variable isCommunicating : face → bool.

(** One of the three [if (grid_size.x > 1) { assert(...); ... }] blocks:
    the shift along one axis. *)
Definition shift_axis (line : Z) (grid_extent : Z)
    (lo hi global_lo global_hi : Scalar) : result Scalar :=
  if decide (grid_extent > 1) then
    assert_ cfg line (xorb (s_gt hi global_hi) (s_lt lo global_lo)) ;;
    Ok (if s_gt hi global_hi then s_sub hi global_hi
        else if s_lt lo global_lo then s_sub lo global_lo
        else s_zero)
  else Ok s_zero.

(** [getWrapBox(box)] *)
Definition getWrapBox (box : BoxDim Scalar) : result (BoxDim Scalar) :=
  let hi := getHi box in
  let lo := getLo box in
  let global_hi := getHi global_box in
  let global_lo := getLo global_box in
  let '(gx, gy, gz) := grid_size in
  do sx <- shift_axis 325 gx (x3 lo) (x3 hi) (x3 global_lo) (x3 global_hi);
  do sy <- shift_axis 332 gy (y3 lo) (y3 hi) (y3 global_lo) (y3 global_hi);
  do sz <- shift_axis 339 gz (z3 lo) (z3 hi) (z3 global_lo) (z3 global_hi);
  let shift := make_scalar3 sx sy sz in
  let periodic := (isCommunicating east, isCommunicating north,
                   isCommunicating up) in
  Ok (MkBoxDim (add3 global_lo shift) (add3 global_hi shift) periodic).

(** The rewrap loop of migrateParticles over the received positions. *)
Definition rewrap (box : BoxDim Scalar) (recv : list (Scalar4 Scalar))
  : result (list (Scalar4 Scalar)) :=
  do wrap_box <- getWrapBox box;
  Ok (wrap wrap_box <$> recv).

End particles.

(** *** Comm flags *)

(** Whether the bit of face [f] is set in [flags]. *)
Definition has_flag (flags : Z) (f : face) : bool :=
  Z.testbit flags (face_index f).

Section comm_flags_facts.
Context {Scalar : Type} `{ScalarOps Scalar}.
Implicit Types (lo hi : Scalar3 Scalar) (p : Scalar4 Scalar).

(** The six bits of the flags of a position, read off the branches. *)
Lemma comm_flags_bits lo hi p :
  let flags := comm_flags lo hi p in
  has_flag flags east = s_ge (x4 p) (x3 hi) ∧
  has_flag flags west = negb (s_ge (x4 p) (x3 hi)) && s_lt (x4 p) (x3 lo) ∧
  has_flag flags north = s_ge (y4 p) (y3 hi) ∧
  has_flag flags south = negb (s_ge (y4 p) (y3 hi)) && s_lt (y4 p) (y3 lo) ∧
  has_flag flags up = s_ge (z4 p) (z3 hi) ∧
  has_flag flags down = negb (s_ge (z4 p) (z3 hi)) && s_lt (z4 p) (z3 lo) ∧
  0 ≤ flags < 2 ^ 6.
Proof.
  unfold comm_flags, has_flag. simpl.
  destruct (s_ge (x4 p) (x3 hi)), (s_lt (x4 p) (x3 lo)),
    (s_ge (y4 p) (y3 hi)), (s_lt (y4 p) (y3 lo)),
    (s_ge (z4 p) (z3 hi)), (s_lt (z4 p) (z3 lo));
    vm_compute; intuition congruence.
Qed.

Lemma array_get_lookup {A : Type} (a : list A) (i : nat) (v : A) :
  a !! i = Some v → array_get a (Z.of_nat i) = Ok v.
Proof.
  intros Hv. unfold array_get. rewrite decide_True by lia.
  by rewrite Nat2Z.id, Hv.
Qed.

Lemma array_set_insert {A : Type} (a : list A) (i : nat) (v : A) :
  (i < length a)%nat → array_set a (Z.of_nat i) v = Ok (<[i := v]> a).
Proof.
  intros Hi. unfold array_set. rewrite decide_True by lia.
  by rewrite Nat2Z.id.
Qed.

Lemma setCommFlags_loop_spec lo hi (h_pos : list (Scalar4 Scalar)) :
  ∀ (cnt i : nat) (flags : list Z),
    (i + cnt ≤ length h_pos)%nat → (i + cnt ≤ length flags)%nat →
    Z.of_nat (i + cnt) < 2 ^ 32 →
    ∃ flags',
      setCommFlags_loop cnt (Z.of_nat i) lo hi h_pos flags = Ok flags' ∧
      length flags' = length flags ∧
      (∀ k : nat, (i ≤ k < i + cnt)%nat →
         ∃ p, h_pos !! k = Some p ∧
              flags' !! k = Some (comm_flags lo hi p)) ∧
      (∀ k : nat, ¬ (i ≤ k < i + cnt)%nat → flags' !! k = flags !! k).
Proof.
  induction cnt as [|cnt IH]; intros i flags Hpos Hflags Hfit.
  { exists flags. simpl. split_and!; try done. intros k Hk. lia. }
  simpl.
  destruct (lookup_lt_is_Some_2 h_pos i ltac:(lia)) as [p Hp].
  rewrite (array_get_lookup _ _ _ Hp). simpl.
  rewrite array_set_insert by lia. simpl.
  replace (wrap32 (Z.of_nat i + 1)) with (Z.of_nat (S i))
    by (unfold wrap32; rewrite Z.mod_small; lia).
  destruct (IH (S i) (<[i := comm_flags lo hi p]> flags))
    as (flags' & Hloop & Hlen & Hnew & Hold);
    [lia|rewrite length_insert; lia|lia|].
  exists flags'. split; [done|].
  split; [by rewrite Hlen, length_insert|]. split.
  - intros k Hk. destruct (decide (k = i)) as [->|Hne].
    + exists p. split; [done|]. rewrite Hold by lia.
      apply list_lookup_insert_eq. lia.
    + apply Hnew. lia.
  - intros k Hk. rewrite Hold by lia.
    apply list_lookup_insert_ne. lia.
Qed.

End comm_flags_facts.

(** C6.  setCommFlags gives each of the N local particles the flags of its
    current position, whatever its flags were: per axis the positive-face
    bit is set iff pos >= hi, otherwise the negative-face bit iff pos < lo,
    otherwise neither; no bit beyond the six faces is set; positions, N and
    the flags past N are left alone. *)
Theorem setCommFlags_classifies {Scalar : Type} `{ScalarOps Scalar}
    (box : BoxDim Scalar) (pdata : ParticleData Scalar) :
  0 ≤ getN pdata < 2 ^ 32 →
  getN pdata ≤ Z.of_nat (length (getPositions pdata)) →
  getN pdata ≤ Z.of_nat (length (getCommFlags pdata)) →
  ∃ pdata', setCommFlags box pdata = Ok pdata' ∧
    getN pdata' = getN pdata ∧ getPositions pdata' = getPositions pdata ∧
    (∀ idx : nat, Z.of_nat idx < getN pdata →
       ∃ p, getPositions pdata !! idx = Some p ∧
         getCommFlags pdata' !! idx
           = Some (comm_flags (getLo box) (getHi box) p)) ∧
    (∀ idx : nat, getN pdata ≤ Z.of_nat idx →
       getCommFlags pdata' !! idx = getCommFlags pdata !! idx) ∧
    (∀ p, let lo := getLo box in
          let hi := getHi box in
          let flags := comm_flags lo hi p in
       has_flag flags east = s_ge (x4 p) (x3 hi) ∧
       has_flag flags west
         = negb (s_ge (x4 p) (x3 hi)) && s_lt (x4 p) (x3 lo) ∧
       has_flag flags north = s_ge (y4 p) (y3 hi) ∧
       has_flag flags south
         = negb (s_ge (y4 p) (y3 hi)) && s_lt (y4 p) (y3 lo) ∧
       has_flag flags up = s_ge (z4 p) (z3 hi) ∧
       has_flag flags down
         = negb (s_ge (z4 p) (z3 hi)) && s_lt (z4 p) (z3 lo) ∧
       has_flag flags east && has_flag flags west = false ∧
       has_flag flags north && has_flag flags south = false ∧
       has_flag flags up && has_flag flags down = false ∧
       0 ≤ flags < 2 ^ 6).
Proof.
  intros HN Hpos Hflags. unfold setCommFlags.
  destruct (setCommFlags_loop_spec (getLo box) (getHi box)
              (getPositions pdata) (Z.to_nat (getN pdata)) 0
              (getCommFlags pdata))
    as (flags' & Hloop & Hlen & Hnew & Hold); [lia|lia|lia|].
  change (Z.of_nat 0) with 0 in Hloop. rewrite Hloop. simpl.
  eexists. split; [reflexivity|]. simpl. split_and!; [done|done|..].
  - intros idx Hidx. apply Hnew. lia.
  - intros idx Hidx. apply Hold. lia.
  - intros p.
    destruct (comm_flags_bits (getLo box) (getHi box) p)
      as (He & Hw & Hn & Hs & Hu & Hd & Hb).
    cbv zeta in *. rewrite He, Hw, Hn, Hs, Hu, Hd. destruct Hb as [Hb0 Hb6].
    split_and!;
      first [ done
            | by destruct (s_ge (x4 p) (x3 (getHi box)))
            | by destruct (s_ge (y4 p) (y3 (getHi box)))
            | by destruct (s_ge (z4 p) (z3 (getHi box))) ].
Qed.

Lemma setCommFlags_classifies_witness :
  ∃ pdata',
    setCommFlags (MkBoxDim (make_scalar3 0 0 0) (make_scalar3 10 10 10)
                           (true, true, true))
      (MkParticleData 2 [make_scalar4 12 (-1) 5 0; make_scalar4 3 10 (-4) 0;
                         make_scalar4 1 1 1 0]
                      [63; 63; 63]) = Ok pdata' ∧
    getCommFlags pdata' = [9; 36; 63].
Proof.
  destruct (setCommFlags_classifies
              (MkBoxDim (make_scalar3 0 0 0) (make_scalar3 10 10 10)
                        (true, true, true))
              (MkParticleData 2 [make_scalar4 12 (-1) 5 0;
                                 make_scalar4 3 10 (-4) 0;
                                 make_scalar4 1 1 1 0]
                              [63; 63; 63]))
    as (pdata' & Hset & _); simpl; [lia|lia|lia|].
  exists pdata'. split; [exact Hset|].
  vm_compute in Hset. injection Hset as <-. reflexivity.
Defined.

(** *** The communicator object *)

(** [std::vector<A>]: its elements ([size()] of them) and its capacity. *)
Record vector (A : Type) : Type := MkVector {
  vec_elems : list A;
  vec_capacity : Z
}.
Arguments MkVector {A} _ _.
Arguments vec_elems {A} _.
Arguments vec_capacity {A} _.

(** A default-constructed vector. *)
Definition vector_empty {A : Type} : vector A := MkVector [] 0.

Definition vec_size {A : Type} (v : vector A) : Z :=
  Z.of_nat (length (vec_elems v)).

(** [v.reserve(n)] makes room for [n] elements; it creates none. *)
Definition reserve {A : Type} (n : Z) (v : vector A) : vector A :=
  MkVector (vec_elems v) (Z.max (vec_capacity v) n).

(** [v.resize(n)], filling with [a]. *)
Definition vec_resize {A : Type} (n : Z) (a : A) (v : vector A) : vector A :=
  MkVector (take (Z.to_nat n) (vec_elems v)
            ++ replicate (Z.to_nat n - length (vec_elems v)) a)
           (Z.max (vec_capacity v) n).

(** [v[i]] names an element only below [size()]. *)
Definition in_bounds {A : Type} (v : vector A) (i : Z) : Prop :=
  0 ≤ i < vec_size v.

(** [&v[i]] *)
Definition vec_at {A : Type} (v : vector A) (i : Z) : result Z :=
  if decide (in_bounds v i) then Ok i else Raise undefined_behaviour.

(** [v.data()] used as an array of [n] elements. *)
Definition vec_data {A : Type} (v : vector A) (n : Z) : result unit :=
  if decide (n ≤ vec_size v) then Ok tt else Raise undefined_behaviour.

(** [MPI_Request] and [MPI_Status] are opaque handles. *)
Definition MPI_Request : Type := Z.
Definition MPI_Status : Type := Z.

(** The members of [mpcd::Communicator] that this file reads or writes;
    [PD] is the MPCD particle data.  [m_prof] is the profiler stack when a
    profiler is attached and [msg] the warnings the messenger has printed. *)
Record Communicator_t (PD : Type) : Type := MkCommunicator {
  m_mpcd_pdata : PD;
  m_is_communicating : bool;
  m_force_migrate : bool;
  m_neigh : neighbors_t;
  m_reqs : vector MPI_Request;
  m_stats : vector MPI_Status;
  m_prof : option (list string);
  msg : list string
}.
Arguments MkCommunicator {PD} _ _ _ _ _ _ _ _.
Arguments m_mpcd_pdata {PD} _.
Arguments m_is_communicating {PD} _.
Arguments m_force_migrate {PD} _.
Arguments m_neigh {PD} _.
Arguments m_reqs {PD} _.
Arguments m_stats {PD} _.
Arguments m_prof {PD} _.
Arguments msg {PD} _.

Section communicator.
Context {PD : Type}.
Implicit Type c : Communicator_t PD.

Definition set_is_communicating (b : bool) c : Communicator_t PD :=
  MkCommunicator (m_mpcd_pdata c) b (m_force_migrate c) (m_neigh c)
                 (m_reqs c) (m_stats c) (m_prof c) (msg c).

(** [if (m_prof) m_prof->push(name)] *)
Definition prof_push (name : string) c : Communicator_t PD :=
  MkCommunicator (m_mpcd_pdata c) (m_is_communicating c) (m_force_migrate c)
                 (m_neigh c) (m_reqs c) (m_stats c)
                 (cons name <$> m_prof c) (msg c).

(** [if (m_prof) m_prof->pop()] *)
Definition prof_pop c : Communicator_t PD :=
  MkCommunicator (m_mpcd_pdata c) (m_is_communicating c) (m_force_migrate c)
                 (m_neigh c) (m_reqs c) (m_stats c)
                 (tail <$> m_prof c) (msg c).

(** [m_exec_conf->msg->warning() << text << std::endl] *)
Definition warning (text : string) c : Communicator_t PD :=
  MkCommunicator (m_mpcd_pdata c) (m_is_communicating c) (m_force_migrate c)
                 (m_neigh c) (m_reqs c) (m_stats c) (m_prof c)
                 (msg c ++ [text]).

(** The constructor: the flags cleared, the three neighbour arrays
    allocated with [neigh_max] elements (holding whatever [init] says)
    and filled by initializeNeighborArrays, the request and status
    vectors default-constructed. *)
Definition Communicator_new (pdata : PD) (di : Index3D) (mypos : Z * Z * Z)
    (cart_rank : Z → Z → Z → Z) (init : nat → Z) (prof : option (list string))
  : result (Communicator_t PD) :=
  let n := Z.to_nat neigh_max in
  let arrays := MkNeighbors (init <$> seq 0 n) (init <$> seq n n)
                            (init <$> seq (2 * n) n) 0 0 in
  do neigh <- initializeNeighborArrays di mypos cart_rank arrays;
  Ok (MkCommunicator pdata false false neigh vector_empty vector_empty prof
                     []).

(** The size handshake of one direction, as far as the request and status
    vectors go:
    [m_reqs.reserve(2); m_stats.reserve(2);
     MPI_Isend(..., &m_reqs[0]); MPI_Irecv(..., &m_reqs[1]);
     MPI_Waitall(2, m_reqs.data(), m_stats.data());] *)
Definition request_slots c : result (Communicator_t PD) :=
  let reqs := reserve 2 (m_reqs c) in
  let stats := reserve 2 (m_stats c) in
  vec_at reqs 0 ;;
  vec_at reqs 1 ;;
  vec_data reqs 2 ;;
  vec_data stats 2 ;;
  Ok (MkCommunicator (m_mpcd_pdata c) (m_is_communicating c)
        (m_force_migrate c) (m_neigh c) reqs stats (m_prof c) (msg c)).

(** The round communicate runs.  [migrateParticles()] itself is defined
    further down, once its parts are (setCommFlags above, the request
    vectors in [request_slots], getWrapBox and the rewrap loop); communicate
    is written over the round it calls and is used on that definition. *)
Variable migrateParticles : Communicator_t PD → result (Communicator_t PD).

(** [communicate(timestep)] *)
Definition communicate (timestep : Z) c : result (Communicator_t PD) :=
  if m_is_communicating c then
    Ok (warning "MPCD communication currently underway, ignoring request" c)
  else
    (* Guard to prevent recursive triggering of migration *)
    let c := set_is_communicating true c in
    let c := prof_push "MPCD comm" c in
    do c <- migrateParticles c;
    let c := prof_pop c in
    Ok (set_is_communicating false c).

End communicator.

(** *** The request and status vectors *)

Lemma reserve_size {A : Type} (n : Z) (v : vector A) :
  vec_size (reserve n v) = vec_size v.
Proof. reflexivity. Qed.

(** The handshake keeps the vectors as small as it found them. *)
Lemma request_slots_size {PD : Type} (c c' : Communicator_t PD) :
  request_slots c = Ok c' →
  vec_size (m_reqs c') = vec_size (m_reqs c) ∧
  vec_size (m_stats c') = vec_size (m_stats c).
Proof.
  unfold request_slots.
  destruct (vec_at _ 0); [|discriminate]. simpl.
  destruct (vec_at _ 1); [|discriminate]. simpl.
  destruct (vec_data (reserve 2 (m_reqs c)) 2); [|discriminate]. simpl.
  destruct (vec_data (reserve 2 (m_stats c)) 2); [|discriminate]. simpl.
  intros [= <-]. done.
Qed.

(** With fewer than two requests the handshake reads past the end. *)
Lemma request_slots_short {PD : Type} (c : Communicator_t PD) :
  vec_size (m_reqs c) < 2 → request_slots c = Raise undefined_behaviour.
Proof.
  intros Hsz. unfold request_slots, vec_at, in_bounds.
  rewrite !reserve_size. unfold vec_size, MPI_Request in *.
  case_decide; [|done]. simpl.
  rewrite decide_False by lia. done.
Qed.

(** C9.  [reserve(2)] leaves the default-constructed request vector with
    no element: its size stays 0 while its capacity becomes 2, so neither
    [m_reqs[0]] nor [m_reqs[1]] is within its bounds, and the handshake of a
    freshly constructed communicator is undefined. *)
Theorem reserve_leaves_request_vector_empty :
  vec_size (reserve 2 (vector_empty : vector MPI_Request)) = 0 ∧
  vec_capacity (reserve 2 (vector_empty : vector MPI_Request)) = 2 ∧
  ¬ in_bounds (reserve 2 (vector_empty : vector MPI_Request)) 0 ∧
  ¬ in_bounds (reserve 2 (vector_empty : vector MPI_Request)) 1 ∧
  vec_data (reserve 2 (vector_empty : vector MPI_Status)) 2
    = Raise undefined_behaviour ∧
  returns (Communicator_new [1; 2] (MkIndex3D 2 1 1) (0, 0, 0)
             (row_major 2 1) (λ _, 0) None)
          (λ c, request_slots c = Raise undefined_behaviour).
Proof.
  split_and!; try reflexivity.
  - unfold in_bounds, vec_size. simpl. lia.
  - unfold in_bounds, vec_size. simpl. lia.
Qed.

(** *** Rewrapping received particles *)

(** The coverage box passes the assertion of getWrapBox along an axis of
    [grid_extent] ranks: it sticks out of the global box on exactly one
    side. *)
Definition one_sided {Scalar : Type} `{ScalarOps Scalar} (grid_extent : Z)
    (lo hi global_lo global_hi : Scalar) : Prop :=
  grid_extent > 1 → xorb (s_gt hi global_hi) (s_lt lo global_lo) = true.

(** By how much the coverage box sticks out along an axis. *)
Definition overflow {Scalar : Type} `{ScalarOps Scalar} (grid_extent : Z)
    (lo hi global_lo global_hi : Scalar) : Scalar :=
  if decide (grid_extent > 1) then
    if s_gt hi global_hi then s_sub hi global_hi else s_sub lo global_lo
  else s_zero.

(** What rewrapping does to one coordinate, against the bounds [lo], [hi] of
    the wrap box. *)
Definition rewrapped {Scalar : Type} `{ScalarOps Scalar} (communicated : bool)
    (lo hi pos pos' : Scalar) : Prop :=
  (communicated = false → pos' = pos) ∧
  (communicated = true → s_ge pos hi = true →
     pos' = s_sub pos (s_sub hi lo)) ∧
  (communicated = true → s_ge pos hi = false → s_lt pos lo = true →
     pos' = s_add pos (s_sub hi lo)) ∧
  (communicated = true → s_ge pos hi = false → s_lt pos lo = false →
     pos' = pos).

Section rewrap_facts.
Context {Scalar : Type} `{ScalarOps Scalar}.

Lemma shift_axis_one_sided cfg line g (lo hi glo ghi : Scalar) :
  one_sided g lo hi glo ghi →
  shift_axis cfg line g lo hi glo ghi = Ok (overflow g lo hi glo ghi).
Proof.
  unfold one_sided, shift_axis, overflow, assert_. intros Hone.
  case_decide as Hg; [|done]. specialize (Hone Hg).
  rewrite Hone. destruct (ndebug cfg); simpl;
    destruct (s_gt hi ghi), (s_lt lo glo); done.
Qed.

Lemma wrap_axis_rewrapped communicated (lo hi pos : Scalar) :
  rewrapped communicated lo hi pos (wrap_axis communicated lo hi pos).
Proof.
  unfold rewrapped, wrap_axis.
  destruct communicated, (s_ge pos hi), (s_lt pos lo); done.
Qed.

End rewrap_facts.

(** With exact arithmetic a coordinate less than one box length outside the
    wrap box lands inside it. *)
Lemma wrap_axis_lands (lo hi pos : Z) :
  lo - (hi - lo) ≤ pos < hi + (hi - lo) →
  lo ≤ wrap_axis true lo hi pos < hi.
Proof.
  intros Hpos. unfold wrap_axis. simpl.
  destruct (Z.geb_spec pos hi), (Z.ltb_spec pos lo); lia.
Qed.

(** C8, as the code has it.  When the coverage box sticks out of the global
    box on exactly one side of every decomposed axis, getWrapBox returns
    the global box shifted by that overflow, periodic exactly along the
    communicated axes, and every received position is wrapped against this
    shifted box: along a communicated axis a coordinate at or beyond its
    high bound moves to pos - boxLength, one below its low bound to
    pos + boxLength, any other stays; along the other axes nothing moves.
    With exact arithmetic a coordinate less than one box length outside the
    shifted box lands inside it. *)
Theorem rewrap_wraps_against_shifted_box {Scalar : Type} `{ScalarOps Scalar}
    (cfg : build) (global_box box : BoxDim Scalar) (gx gy gz : Z)
    (isCommunicating : face → bool) (recv : list (Scalar4 Scalar)) :
  let lo := getLo box in
  let hi := getHi box in
  let glo := getLo global_box in
  let ghi := getHi global_box in
  one_sided gx (x3 lo) (x3 hi) (x3 glo) (x3 ghi) →
  one_sided gy (y3 lo) (y3 hi) (y3 glo) (y3 ghi) →
  one_sided gz (z3 lo) (z3 hi) (z3 glo) (z3 ghi) →
  ∃ wrap_box,
    getWrapBox cfg global_box (gx, gy, gz) isCommunicating box = Ok wrap_box ∧
    rewrap cfg global_box (gx, gy, gz) isCommunicating box recv
      = Ok (wrap wrap_box <$> recv) ∧
    getPeriodic wrap_box
      = (isCommunicating east, isCommunicating north, isCommunicating up) ∧
    (let shift := make_scalar3 (overflow gx (x3 lo) (x3 hi) (x3 glo) (x3 ghi))
                               (overflow gy (y3 lo) (y3 hi) (y3 glo) (y3 ghi))
                               (overflow gz (z3 lo) (z3 hi) (z3 glo) (z3 ghi))
     in getLo wrap_box = add3 glo shift ∧ getHi wrap_box = add3 ghi shift) ∧
    (∀ p, let p' := wrap wrap_box p in
       rewrapped (isCommunicating east) (x3 (getLo wrap_box))
                 (x3 (getHi wrap_box)) (x4 p) (x4 p') ∧
       rewrapped (isCommunicating north) (y3 (getLo wrap_box))
                 (y3 (getHi wrap_box)) (y4 p) (y4 p') ∧
       rewrapped (isCommunicating up) (z3 (getLo wrap_box))
                 (z3 (getHi wrap_box)) (z4 p) (z4 p') ∧
       w4 p' = w4 p) ∧
    (∀ wlo whi pos : Z,
       wlo - (whi - wlo) ≤ pos < whi + (whi - wlo) →
       wlo ≤ wrap_axis true wlo whi pos < whi).
Proof.
  intros lo hi glo ghi Hx Hy Hz.
  unfold rewrap, getWrapBox.
  rewrite !shift_axis_one_sided by done. simpl.
  eexists. split; [reflexivity|]. simpl. split_and!; try done.
  - intros p. unfold wrap. simpl. split_and!; try done;
      apply wrap_axis_rewrapped.
  - apply wrap_axis_lands.
Qed.

(** A global box [0, 100) cubed, cut in two along x only; this rank's
    coverage box reaches 5 beyond the high x face. *)
Definition example_global_box : BoxDim Z :=
  MkBoxDim (make_scalar3 0 0 0) (make_scalar3 100 100 100) (true, true, true).

Definition example_coverage_box : BoxDim Z :=
  MkBoxDim (make_scalar3 50 0 0) (make_scalar3 105 100 100)
           (false, false, false).

Definition x_only (f : face) : bool :=
  match f with
  | east | west => true
  | _ => false
  end.

Lemma rewrap_wraps_against_shifted_box_witness :
  rewrap (Build false "Communicator.cc") example_global_box (2, 1, 1) x_only
         example_coverage_box
         [make_scalar4 107 120 (-3) 0; make_scalar4 3 50 50 1]
  = Ok [make_scalar4 7 120 (-3) 0; make_scalar4 103 50 50 1].
Proof.
  destruct (rewrap_wraps_against_shifted_box (Build false "Communicator.cc")
              example_global_box example_coverage_box 2 1 1 x_only
              [make_scalar4 107 120 (-3) 0; make_scalar4 3 50 50 1])
    as (wrap_box & Hbox & Hre & _).
  - intros _. reflexivity.
  - intros Hg. lia.
  - intros Hg. lia.
  - rewrite Hre. vm_compute in Hbox. injection Hbox as <-. reflexivity.
Defined.

(** C8, as the claim words it, fails on the code.  On the rank above, the x
    axis is periodic, decomposed and communicated and the coverage box
    sticks out on the high side only.  A received particle at x = 102 has
    crossed the high global boundary (102 >= 100), yet it is left at 102,
    not moved to 102 - 100 = 2, and 102 is outside the global box; a
    received particle at x = 3 is moved to 103, outside the global box as
    well. *)
Lemma rewrap_keeps_particle_in_overhang :
  rewrap (Build false "Communicator.cc") example_global_box (2, 1, 1) x_only
         example_coverage_box
         [make_scalar4 102 50 50 0; make_scalar4 3 50 50 0]
  = Ok [make_scalar4 102 50 50 0; make_scalar4 103 50 50 0] ∧
  s_ge 102 (x3 (getHi example_global_box)) = true ∧
  s_sub 102 (s_sub (x3 (getHi example_global_box))
                   (x3 (getLo example_global_box))) = 2 ∧
  102 ≠ 2 ∧
  ¬ (x3 (getLo example_global_box) ≤ 102 < x3 (getHi example_global_box)) ∧
  ¬ (x3 (getLo example_global_box) ≤ 103 < x3 (getHi example_global_box)).
Proof.
  split; [reflexivity|]. split; [reflexivity|]. split; [reflexivity|].
  simpl. lia.
Qed.

(** *** More about the neighbour topology *)

(** How many axes a rank has neighbours along. *)
Definition moving_axes (di : Index3D) : Z :=
  (if getW di =? 1 then 0 else 1) + (if getH di =? 1 then 0 else 1)
  + (if getD di =? 1 then 0 else 1).

(** The cell an offset leads to, and the offset that leads back. *)
Definition neighbor_cell (di : Index3D) (l m n : Z) (o : Z * Z * Z)
  : Z * Z * Z :=
  let '(dx, dy, dz) := o in
  ((l + dx) mod getW di, (m + dy) mod getH di, (n + dz) mod getD di).

Definition opposite (o : Z * Z * Z) : Z * Z * Z :=
  let '(dx, dy, dz) := o in (- dx, - dy, - dz).

Section topology_more.
Variable di : Index3D.
Variables l m n : Z.
Variable cart_rank : Z → Z → Z → Z.

(** The state initializeNeighborArrays leaves, slot by slot. *)
Lemma initializeNeighborArrays_result (s : neighbors_t) :
  arrays_allocated s →
  let f := found di l m n cart_rank in
  ∃ nb' am',
    initializeNeighborArrays di (l, m, n) cart_rank s
    = Ok (MkNeighbors (f.*1 ++ nb')
            ((merged f).*1 ++ drop (length (merged f)) (m_unique_neighbors s))
            ((merged f).*2 ++ drop (length (merged f)) (f.*2 ++ am'))
            (Z.of_nat (length f)) (Z.of_nat (length (merged f)))) ∧
    length (f.*1 ++ nb') = 27%nat ∧ length (f.*2 ++ am') = 27%nat ∧
    (length (merged f) ≤ length f)%nat.
Proof.
  intros (Hnb & Hun & Ham) f. unfold initializeNeighborArrays.
  destruct (enumerate_neighbors_spec di l m n cart_rank (m_neighbors s)
              (m_unique_neighbors s) (m_adj_mask s) (m_n_unique_neigh s)
              Hnb Ham) as (nb' & am' & Hen & Hnb' & Ham').
  rewrite Hen. simpl. fold f in Hnb', Ham' |- *.
  assert (length f ≤ 27)%nat as Hlen.
  { rewrite length_app, length_fmap in Hnb'. lia. }
  rewrite Nat2Z.id.
  pose proof (filter_neighbors_spec f nb' am' ltac:(lia) f [] [] eq_refl)
    as Hfilter.
  change (Z.of_nat (length [])) with 0 in Hfilter. rewrite Hfilter. simpl.
  fold (merged f).
  destruct (merged_spec f) as (_ & _ & _ & Hle & _).
  pose proof (store_unique_spec (merged f) [] [] (m_unique_neighbors s)
                (f.*2 ++ am') eq_refl ltac:(lia) ltac:(lia)) as Hstore.
  change (Z.of_nat (length [])) with 0 in Hstore.
  rewrite !app_nil_l in Hstore. rewrite Hstore. simpl.
  rewrite (wrap32_small_nat (length (merged f))) by lia.
  by exists nb', am'.
Qed.

Lemma surviving_length :
  Z.of_nat (length (surviving di)) = 3 ^ moving_axes di - 1.
Proof using di.
  clear l m n cart_rank.
  unfold surviving, survives, moving_axes.
  destruct (getW di =? 1), (getH di =? 1), (getD di =? 1); reflexivity.
Qed.

Lemma elem_of_offsets dx dy dz :
  (dx, dy, dz) ∈ offsets ↔
    unit_offset dx ∧ unit_offset dy ∧ unit_offset dz.
Proof using.
  clear. split.
  - intros Ho. pose proof offsets_unit as Hu.
    eapply Forall_forall in Hu; [|exact Ho]. exact Hu.
  - unfold unit_offset.
    intros ([->|[->| ->]] & [->|[->| ->]] & [->|[->| ->]]);
      by apply (bool_decide_unpack _).
Qed.

Lemma direction_range o :
  o ∈ offsets → 0 ≤ direction o ≤ 26 ∧ (direction o = 13 → o = (0, 0, 0)).
Proof using.
  clear. destruct o as [[dx dy] dz]. rewrite elem_of_offsets.
  unfold unit_offset, direction. intros (Hx & Hy & Hz). split; [lia|].
  intros Hd. assert (dx = 0 ∧ dy = 0 ∧ dz = 0) as (-> & -> & ->) by lia.
  done.
Qed.

Lemma direction_inj o1 o2 :
  o1 ∈ offsets → o2 ∈ offsets → direction o1 = direction o2 → o1 = o2.
Proof using.
  clear. destruct o1 as [[a1 b1] c1], o2 as [[a2 b2] c2].
  rewrite !elem_of_offsets. unfold unit_offset, direction.
  intros (? & ? & ?) (? & ? & ?) Hd.
  assert (a1 = a2 ∧ b1 = b2 ∧ c1 = c2) as (-> & -> & ->) by lia. done.
Qed.

(** One step along an axis with more than one rank leaves the cell. *)
Lemma mod_step_ne x d ext :
  0 ≤ x < ext → ext ≠ 1 → unit_offset d → d ≠ 0 → (x + d) mod ext ≠ x.
Proof using.
  clear. intros Hx Hext [->|[->| ->]] Hd; [|done|].
  - destruct (decide (x = 0)) as [->|Hx0].
    + rewrite <- (Z.mod_unique (0 + -1) ext (-1) (ext - 1)); lia.
    + rewrite Z.mod_small; lia.
  - destruct (decide (x + 1 = ext)) as [Hx1|Hx1].
    + rewrite Hx1, Z.mod_same by lia. lia.
    + rewrite Z.mod_small; lia.
Qed.

Lemma mod_step_back x d ext :
  0 ≤ x < ext → ((x + d) mod ext + - d) mod ext = x.
Proof using.
  clear. intros Hx. rewrite Zplus_mod_idemp_l.
  replace (x + d + - d) with x by lia. apply Z.mod_small. lia.
Qed.

(** The bits of an OR of powers of two. *)
Lemma testbit_bitwise_or (ds : list Z) (b : Z) :
  Forall (λ d, 0 ≤ d) ds →
  Z.testbit (bitwise_or ((λ d, Z.shiftl 1 d) <$> ds)) b = true ↔ b ∈ ds.
Proof using.
  clear. induction ds as [|d ds IH]; intros Hpos; simpl.
  - rewrite Z.bits_0, elem_of_nil. split; [discriminate|done].
  - apply Forall_cons in Hpos as [Hd Hpos].
    rewrite Z.lor_spec, orb_true_iff, (IH Hpos), elem_of_cons.
    rewrite Z.shiftl_1_l, Z.pow2_bits_eqb by done.
    rewrite Z.eqb_eq. naive_solver.
Qed.

(** The masks listed by initializeNeighborArrays, bit by bit. *)
Lemma listed_bits (s s' : neighbors_t) r mask b :
  valid_grid di l m n → arrays_allocated s →
  initializeNeighborArrays di (l, m, n) cart_rank s = Ok s' →
  (r, mask) ∈ listed s' →
  Z.testbit mask b = true ↔
    ∃ o, o ∈ surviving di ∧ resolve di l m n cart_rank o = r ∧
         direction o = b.
Proof.
  intros Hgrid Halloc Hinit Hin.
  destruct (initializeNeighborArrays_spec di l m n cart_rank s Halloc)
    as (s0 & Hinit0 & _ & _ & Hlisted & _).
  rewrite Hinit in Hinit0. injection Hinit0 as <-.
  rewrite (found_resolve di l m n cart_rank Hgrid) in Hlisted.
  rewrite Hlisted in Hin.
  destruct (merged_spec
              ((λ o, (resolve di l m n cart_rank o, Z.shiftl 1 (direction o)))
                 <$> surviving di)) as (_ & _ & Hvals & _).
  specialize (Hvals _ Hin). simpl in Hvals.
  rewrite listed_mask in Hvals. rewrite Hvals.
  rewrite (list_fmap_compose direction (λ d, Z.shiftl 1 d)).
  rewrite testbit_bitwise_or.
  - rewrite list_elem_of_fmap. setoid_rewrite list_elem_of_filter.
    naive_solver.
  - apply Forall_fmap, Forall_forall. intros o Ho. simpl.
    apply list_elem_of_filter in Ho as [_ Ho].
    apply surviving_offsets in Ho. by apply direction_range in Ho as [[? ?] _].
Qed.

End topology_more.

Lemma sorted_lookup_lt (ks : list Z) (i j : nat) ki kj :
  StronglySorted Z.lt ks → ks !! i = Some ki → ks !! j = Some kj →
  (i < j)%nat → ki < kj.
Proof.
  intros Hs. revert i j. induction Hs as [|k ks Hs IH Hall]; intros i j.
  { by rewrite lookup_nil. }
  destruct i as [|i], j as [|j]; simpl; try lia.
  - intros [= <-] Hj _. eapply Forall_forall in Hall; [done|].
    by eapply list_elem_of_lookup_2.
  - intros Hi Hj Hij. apply (IH i j); [done|done|lia].
Qed.

(** X11.  The neighbour counters.  On a valid grid position the enumeration
    records 3^k - 1 neighbours, k the number of axes with more than one
    rank (0, 2, 8 or 26), so the arrays of [neigh_max] = 27 slots are never
    overrun; the unique neighbours are at most as many, and at least one
    as soon as any neighbour is recorded. *)
Theorem neighbor_counts (di : Index3D) (l m n : Z)
    (cart_rank : Z → Z → Z → Z) (s : neighbors_t) :
  valid_grid di l m n → arrays_allocated s →
  ∃ s', initializeNeighborArrays di (l, m, n) cart_rank s = Ok s' ∧
    m_nneigh s' = 3 ^ moving_axes di - 1 ∧
    0 ≤ moving_axes di ≤ 3 ∧
    m_n_unique_neigh s' ≤ m_nneigh s' ∧ m_nneigh s' < neigh_max ∧
    (0 < m_nneigh s' → 0 < m_n_unique_neigh s') ∧
    arrays_allocated s'.
Proof.
  intros _ Halloc.
  destruct (initializeNeighborArrays_result di l m n cart_rank s Halloc)
    as (nb' & am' & Hinit & Hnb' & Ham' & Hle).
  set (f := found di l m n cart_rank) in *.
  eexists. split; [exact Hinit|]. simpl.
  assert (Z.of_nat (length f) = 3 ^ moving_axes di - 1) as Hcount.
  { unfold f, found. rewrite length_fmap. apply surviving_length. }
  assert (0 ≤ moving_axes di ≤ 3) as Hk
    by (unfold moving_axes;
        destruct (getW di =? 1), (getH di =? 1), (getD di =? 1); lia).
  assert (3 ^ moving_axes di ≤ 3 ^ 3) as Hpow
    by (apply Z.pow_le_mono_r; lia).
  destruct Halloc as (_ & Hun & _).
  split_and!; try lia.
  - unfold neigh_max. lia.
  - intros Hpos. destruct f as [|p f'] eqn:Hf; [simpl in Hpos; lia|].
    destruct (merged_spec (p :: f')) as (_ & Hkeys & _).
    destruct (merged (p :: f')) as [|q qs] eqn:Hm; [|simpl; lia].
    specialize (Hkeys p.1). simpl in Hkeys.
    rewrite elem_of_nil, elem_of_cons in Hkeys. naive_solver.
  - unfold arrays_allocated. simpl. split_and!; [done| |].
    + rewrite length_app, length_fmap, length_drop. lia.
    + rewrite length_app, length_fmap, length_drop. lia.
Qed.

Lemma neighbor_counts_witness :
  ∃ s', initializeNeighborArrays (MkIndex3D 2 2 1) (0, 0, 0) (row_major 2 2)
                                 fresh_arrays = Ok s' ∧
    m_nneigh s' = 8 ∧ m_n_unique_neigh s' ≤ 8.
Proof.
  destruct (neighbor_counts (MkIndex3D 2 2 1) 0 0 0 (row_major 2 2)
              fresh_arrays) as (s' & Hinit & Hn & _ & Hu & _).
  - unfold valid_grid. simpl. lia.
  - unfold arrays_allocated. simpl. auto.
  - exists s'. split; [exact Hinit|].
    change (3 ^ moving_axes (MkIndex3D 2 2 1) - 1) with 8 in Hn.
    split; [exact Hn|]. rewrite Hn in Hu. exact Hu.
Defined.

(** X12.  The unique neighbours come out in strictly ascending rank order,
    the iteration order of the [std::map] they were merged in, whatever the
    rank table and whatever the arrays held before. *)
Theorem unique_neighbors_ascending (di : Index3D) (l m n : Z)
    (cart_rank : Z → Z → Z → Z) (s : neighbors_t) :
  valid_grid di l m n → arrays_allocated s →
  ∃ s', initializeNeighborArrays di (l, m, n) cart_rank s = Ok s' ∧
    StronglySorted Z.lt (listed s').*1 ∧
    ∀ (i j : nat) ri rj,
      (listed s').*1 !! i = Some ri → (listed s').*1 !! j = Some rj →
      (i < j)%nat → ri < rj.
Proof.
  intros _ Halloc.
  destruct (initializeNeighborArrays_spec di l m n cart_rank s Halloc)
    as (s' & Hinit & _ & _ & Hlisted & _).
  exists s'. split; [done|]. rewrite Hlisted.
  pose proof (merged_sorted (found di l m n cart_rank)) as Hs.
  split; [done|]. intros i j ri rj Hi Hj Hij.
  by eapply (sorted_lookup_lt _ i j).
Qed.

Lemma unique_neighbors_ascending_witness :
  ∃ s', initializeNeighborArrays (MkIndex3D 2 2 1) (0, 0, 0) (row_major 2 2)
                                 fresh_arrays = Ok s' ∧
    (listed s').*1 = [1; 2; 3].
Proof.
  destruct (unique_neighbors_ascending (MkIndex3D 2 2 1) 0 0 0
              (row_major 2 2) fresh_arrays) as (s' & Hinit & _).
  - unfold valid_grid. simpl. lia.
  - unfold arrays_allocated. simpl. auto.
  - exists s'. split; [exact Hinit|].
    vm_compute in Hinit. injection Hinit as <-. reflexivity.
Defined.

(** X13.  The mask array is used twice.  The enumeration writes the mask
    [1 << dir] of every recorded neighbour into it, the merge then stores
    the combined masks from slot 0 on; so after the function the slots
    from [m_n_unique_neigh] up to [m_nneigh] still hold the single
    direction bits of the enumeration, in enumeration order, and the slots
    of [m_unique_neighbors] beyond the unique neighbours are untouched. *)
Theorem adj_mask_keeps_enumeration_tail (di : Index3D) (l m n : Z)
    (cart_rank : Z → Z → Z → Z) (s : neighbors_t) :
  valid_grid di l m n → arrays_allocated s →
  ∃ s', initializeNeighborArrays di (l, m, n) cart_rank s = Ok s' ∧
    (∀ (i : nat) o, m_n_unique_neigh s' ≤ Z.of_nat i →
       surviving di !! i = Some o →
       m_adj_mask s' !! i = Some (2 ^ direction o)) ∧
    (∀ i : nat, m_n_unique_neigh s' ≤ Z.of_nat i →
       m_unique_neighbors s' !! i = m_unique_neighbors s !! i).
Proof.
  intros _ Halloc.
  destruct (initializeNeighborArrays_result di l m n cart_rank s Halloc)
    as (nb' & am' & Hinit & Hnb' & Ham' & Hle).
  set (f := found di l m n cart_rank) in *.
  eexists. split; [exact Hinit|]. simpl. split.
  - intros i o Hi Ho.
    rewrite lookup_app_r by (rewrite length_fmap; lia).
    rewrite length_fmap, lookup_drop.
    replace (length (merged f) + (i - length (merged f)))%nat with i by lia.
    assert (f !! i = Some (neighbor_of di l m n cart_rank o, 2 ^ direction o))
      as Hf by (unfold f, found; by rewrite list_lookup_fmap, Ho).
    rewrite lookup_app_l
      by (rewrite length_fmap; by eapply lookup_lt_Some).
    by rewrite list_lookup_fmap, Hf.
  - intros i Hi.
    rewrite lookup_app_r by (rewrite length_fmap; lia).
    rewrite length_fmap, lookup_drop. f_equal. lia.
Qed.

Lemma adj_mask_keeps_enumeration_tail_witness :
  ∃ s', initializeNeighborArrays (MkIndex3D 2 1 1) (0, 0, 0) (row_major 2 1)
                                 fresh_arrays = Ok s' ∧
    m_n_unique_neigh s' = 1 ∧ m_nneigh s' = 2 ∧
    m_adj_mask s' !! 0%nat = Some 20480 ∧
    m_adj_mask s' !! 1%nat = Some (2 ^ 14).
Proof.
  destruct (adj_mask_keeps_enumeration_tail (MkIndex3D 2 1 1) 0 0 0
              (row_major 2 1) fresh_arrays) as (s' & Hinit & Htail & _).
  - unfold valid_grid. simpl. lia.
  - unfold arrays_allocated. simpl. auto.
  - exists s'. split; [exact Hinit|].
    assert (m_n_unique_neigh s' = 1) as Hu
      by (vm_compute in Hinit; by injection Hinit as <-).
    split; [exact Hu|].
    split; [vm_compute in Hinit; by injection Hinit as <-|].
    split; [vm_compute in Hinit; by injection Hinit as <-|].
    apply (Htail 1%nat (1, 0, 0)); [lia|reflexivity].
Defined.

(** X14.  With a rank table that names every cell of the grid differently,
    a rank never records or lists itself as a neighbour: every surviving
    offset moves along an axis with more than one rank, and one step along
    such an axis, wrapped or not, leaves the cell. *)
Theorem own_rank_never_listed (di : Index3D) (l m n : Z)
    (cart_rank : Z → Z → Z → Z) (s : neighbors_t) :
  valid_grid di l m n → injective_on_grid di cart_rank →
  arrays_allocated s →
  ∃ s', initializeNeighborArrays di (l, m, n) cart_rank s = Ok s' ∧
    (cart_rank l m n ∉ recorded s') ∧ (cart_rank l m n ∉ (listed s').*1).
Proof.
  intros Hgrid Hinj Halloc.
  destruct (initializeNeighborArrays_spec di l m n cart_rank s Halloc)
    as (s' & Hinit & _ & Hrec & Hlisted & _).
  exists s'. split; [done|].
  rewrite (found_resolve di l m n cart_rank Hgrid) in Hrec, Hlisted.
  set (f := (λ o, (resolve di l m n cart_rank o, Z.shiftl 1 (direction o)))
              <$> surviving di) in *.
  assert (cart_rank l m n ∉ f.*1) as Hnot.
  { unfold f. rewrite <- list_fmap_compose. rewrite list_elem_of_fmap.
    intros ([[dx dy] dz] & Heq & Ho). simpl in Heq.
    apply elem_of_surviving in Ho as (Hoff & Hnz & Hx & Hy & Hz).
    apply elem_of_offsets in Hoff as (Hux & Huy & Huz).
    destruct Hgrid as ((Hl & _) & (Hm & _) & (Hn & _)).
    apply Hinj in Heq; try done; try (apply Z.mod_pos_bound; lia).
    injection Heq as Ex Ey Ez.
    destruct (decide (dx = 0)) as [->|Hdx];
      [|by eapply (mod_step_ne l dx (getW di)); eauto].
    destruct (decide (dy = 0)) as [->|Hdy];
      [|by eapply (mod_step_ne m dy (getH di)); eauto].
    destruct (decide (dz = 0)) as [->|Hdz];
      [|by eapply (mod_step_ne n dz (getD di)); eauto].
    done. }
  rewrite Hrec, Hlisted. split; [done|].
  destruct (merged_spec f) as (_ & Hkeys & _). by rewrite Hkeys.
Qed.

Lemma own_rank_never_listed_witness :
  ∃ s', initializeNeighborArrays (MkIndex3D 3 3 3) (1, 2, 0) (row_major 3 3)
                                 fresh_arrays = Ok s' ∧
    row_major 3 3 1 2 0 = 7 ∧ 7 ∉ (listed s').*1.
Proof.
  destruct (own_rank_never_listed (MkIndex3D 3 3 3) 1 2 0 (row_major 3 3)
              fresh_arrays) as (s' & Hinit & _ & Hl).
  - unfold valid_grid. simpl. lia.
  - exact row_major_injective.
  - unfold arrays_allocated. simpl. auto.
  - exists s'. split; [exact Hinit|]. split; [reflexivity|exact Hl].
Defined.

(** X15.  The direction bits are shared out among the unique neighbours.
    Bit [b] of the mask listed for rank [r] is set exactly when the
    surviving offset with direction number [b] resolves to [r]; so every
    listed mask is non-zero, sets only bits 0..26 and never bit 13 (the
    rank's own cell), and the masks of two different listed ranks have no
    bit in common. *)
Theorem direction_bits_partition (di : Index3D) (l m n : Z)
    (cart_rank : Z → Z → Z → Z) (s : neighbors_t) :
  valid_grid di l m n → arrays_allocated s →
  ∃ s', initializeNeighborArrays di (l, m, n) cart_rank s = Ok s' ∧
    (∀ r mask b, (r, mask) ∈ listed s' →
       Z.testbit mask b = true ↔
         ∃ o, o ∈ surviving di ∧ resolve di l m n cart_rank o = r ∧
              direction o = b) ∧
    (∀ r mask, (r, mask) ∈ listed s' →
       mask ≠ 0 ∧
       ∀ b, Z.testbit mask b = true → 0 ≤ b ≤ 26 ∧ b ≠ 13) ∧
    (∀ r1 mask1 r2 mask2,
       (r1, mask1) ∈ listed s' → (r2, mask2) ∈ listed s' → r1 ≠ r2 →
       Z.land mask1 mask2 = 0).
Proof.
  intros Hgrid Halloc.
  destruct (initializeNeighborArrays_spec di l m n cart_rank s Halloc)
    as (s' & Hinit & _ & _ & Hlisted & _).
  exists s'. split; [done|].
  pose proof (λ r mask b, listed_bits di l m n cart_rank s s' r mask b
                            Hgrid Halloc Hinit) as Hbits.
  split; [exact Hbits|]. split.
  - intros r mask Hin. split.
    + assert (r ∈ (listed s').*1) as Hr
        by (apply list_elem_of_fmap; by exists (r, mask)).
      rewrite Hlisted in Hr.
      destruct (merged_spec (found di l m n cart_rank)) as (_ & Hkeys & _).
      apply Hkeys in Hr.
      rewrite (found_resolve di l m n cart_rank Hgrid) in Hr.
      rewrite <- list_fmap_compose in Hr.
      apply list_elem_of_fmap in Hr as (o & Hro & Ho). simpl in Hro.
      intros ->.
      assert (Z.testbit 0 (direction o) = true) as Habs
        by (apply (Hbits r 0 (direction o) Hin); by exists o).
      by rewrite Z.bits_0 in Habs.
    + intros b (o & Ho & _ & <-)%(Hbits r mask b Hin).
      pose proof Ho as Hoff%surviving_offsets.
      apply direction_range in Hoff as [Hrange H13].
      split; [done|]. intros Hd. specialize (H13 Hd). subst o.
      by apply elem_of_surviving in Ho as (_ & Hnz & _).
  - intros r1 mask1 r2 mask2 H1 H2 Hne. apply Z.bits_inj'.
    intros b _. rewrite Z.land_spec, Z.bits_0.
    destruct (Z.testbit mask1 b) eqn:Hb1; [|done].
    destruct (Z.testbit mask2 b) eqn:Hb2; [|done].
    apply (Hbits r1 mask1 b H1) in Hb1 as (o1 & Ho1 & Hr1 & Hd1).
    apply (Hbits r2 mask2 b H2) in Hb2 as (o2 & Ho2 & Hr2 & Hd2).
    assert (o1 = o2) as ->.
    { apply direction_inj; [by apply (surviving_offsets di)..|congruence]. }
    congruence.
Qed.

Lemma direction_bits_partition_witness :
  ∃ s', initializeNeighborArrays (MkIndex3D 2 2 1) (0, 0, 0) (row_major 2 2)
                                 fresh_arrays = Ok s' ∧
    listed s' = [(1, 20480); (2, 66560); (3, 166400)] ∧
    Z.land 20480 66560 = 0.
Proof.
  destruct (direction_bits_partition (MkIndex3D 2 2 1) 0 0 0 (row_major 2 2)
              fresh_arrays) as (s' & Hinit & _ & _ & Hdisj).
  - unfold valid_grid. simpl. lia.
  - unfold arrays_allocated. simpl. auto.
  - exists s'. split; [exact Hinit|].
    assert (listed s' = [(1, 20480); (2, 66560); (3, 166400)]) as Hl
      by (vm_compute in Hinit; by injection Hinit as <-).
    split; [exact Hl|].
    apply (Hdisj 1 20480 2 66560); [rewrite Hl..|]; [| |done].
    + apply list_elem_of_here.
    + apply list_elem_of_further, list_elem_of_here.
Defined.

(** X16.  The neighbour relation is symmetric.  If this rank records the
    cell at offset [o], then that cell is a valid grid position, the
    opposite offset survives there (the extents are the same), it leads
    back to this rank, and its direction number is 26 minus the direction
    number of [o]: the rank in that cell, running the same function,
    records this rank. *)
Theorem neighbor_relation_symmetric (di : Index3D) (l m n : Z)
    (cart_rank : Z → Z → Z → Z) (s : neighbors_t) (o : Z * Z * Z) :
  valid_grid di l m n → arrays_allocated s → o ∈ surviving di →
  let '(l', m', n') := neighbor_cell di l m n o in
  valid_grid di l' m' n' ∧ opposite o ∈ surviving di ∧
  neighbor_of di l' m' n' cart_rank (opposite o) = cart_rank l m n ∧
  direction (opposite o) = 26 - direction o ∧
  ∃ s', initializeNeighborArrays di (l', m', n') cart_rank s = Ok s' ∧
    cart_rank l m n ∈ recorded s'.
Proof.
  intros Hgrid Halloc Ho. destruct o as [[dx dy] dz].
  unfold neighbor_cell, opposite.
  pose proof Hgrid as ((Hl & HW) & (Hm & HH) & (Hn & HD)).
  assert (valid_grid di ((l + dx) mod getW di) ((m + dy) mod getH di)
            ((n + dz) mod getD di)) as Hgrid'.
  { unfold valid_grid.
    pose proof (Z.mod_pos_bound (l + dx) (getW di) ltac:(lia)).
    pose proof (Z.mod_pos_bound (m + dy) (getH di) ltac:(lia)).
    pose proof (Z.mod_pos_bound (n + dz) (getD di) ltac:(lia)). lia. }
  apply elem_of_surviving in Ho as (Hoff & Hnz & Hx & Hy & Hz).
  apply elem_of_offsets in Hoff as (Hux & Huy & Huz).
  assert ((- dx, - dy, - dz) ∈ surviving di) as Hopp.
  { apply elem_of_surviving. split_and!.
    - apply elem_of_offsets. unfold unit_offset in *. lia.
    - intros [= ? ? ?]. apply Hnz. f_equal; [f_equal|]; lia.
    - intros ?. apply Hx. lia.
    - intros ?. apply Hy. lia.
    - intros ?. apply Hz. lia. }
  assert (neighbor_of di ((l + dx) mod getW di) ((m + dy) mod getH di)
            ((n + dz) mod getD di) cart_rank (- dx, - dy, - dz)
          = cart_rank l m n) as Hback.
  { rewrite neighbor_of_resolve
      by (done || apply elem_of_offsets; unfold unit_offset in *; lia).
    unfold resolve. by rewrite !mod_step_back by done. }
  split_and!; [done|done|done|unfold direction; lia|].
  destruct (initializeNeighborArrays_spec di ((l + dx) mod getW di)
              ((m + dy) mod getH di) ((n + dz) mod getD di) cart_rank s
              Halloc) as (s' & Hinit & _ & Hrec & _).
  exists s'. split; [done|]. rewrite Hrec. unfold found.
  rewrite <- list_fmap_compose. apply list_elem_of_fmap.
  exists (- dx, - dy, - dz). split; [|done]. exact (eq_sym Hback).
Qed.

Lemma neighbor_relation_symmetric_witness :
  neighbor_of (MkIndex3D 3 3 3) 2 2 0 (row_major 3 3) (-1, 0, 0)
  = row_major 3 3 1 2 0 ∧
  direction (-1, 0, 0) = 26 - direction (1, 0, 0).
Proof.
  pose proof (neighbor_relation_symmetric (MkIndex3D 3 3 3) 1 2 0
                (row_major 3 3) fresh_arrays (1, 0, 0)) as Hsym.
  simpl in Hsym.
  destruct Hsym as (_ & _ & Hback & Hdir & _).
  - unfold valid_grid. simpl. lia.
  - unfold arrays_allocated. simpl. auto.
  - by apply (bool_decide_unpack _).
  - split; [exact Hback|exact Hdir].
Defined.

(** *** More about the comm flags *)

Section comm_flags_more.
Context {Scalar : Type} `{ScalarOps Scalar}.

(** With fewer positions or flags than iterations the loop runs off the
    end of an array. *)
Lemma setCommFlags_loop_overrun (lo hi : Scalar3 Scalar)
    (h_pos : list (Scalar4 Scalar)) :
  ∀ (cnt i : nat) (flags : list Z),
    Z.of_nat (i + cnt) < 2 ^ 32 →
    (i ≤ length h_pos)%nat → (i ≤ length flags)%nat →
    (length h_pos < i + cnt)%nat ∨ (length flags < i + cnt)%nat →
    setCommFlags_loop cnt (Z.of_nat i) lo hi h_pos flags
    = Raise undefined_behaviour.
Proof.
  induction cnt as [|cnt IH]; intros i flags Hfit Hpos Hflags Hshort.
  { lia. }
  simpl. destruct (h_pos !! i) as [p|] eqn:Hp.
  - rewrite (array_get_lookup _ _ _ Hp). simpl.
    apply lookup_lt_Some in Hp.
    destruct (decide (i < length flags)%nat) as [Hi|Hi].
    + rewrite array_set_insert by done. simpl.
      replace (wrap32 (Z.of_nat i + 1)) with (Z.of_nat (S i))
        by (unfold wrap32; rewrite Z.mod_small; lia).
      apply IH; rewrite ?length_insert; lia.
    + unfold array_set. rewrite decide_False by lia. done.
  - unfold array_get. rewrite decide_True by lia.
    by rewrite Nat2Z.id, Hp.
Qed.

End comm_flags_more.

(** X17.  setCommFlags forgets every earlier classification: run after a
    classification against any other box, it gives the particle data it
    gives when run alone; in particular, running it twice against the same
    box changes nothing the second time. *)
Theorem setCommFlags_overrides {Scalar : Type} `{ScalarOps Scalar}
    (box1 box2 : BoxDim Scalar) (pdata : ParticleData Scalar) :
  0 ≤ getN pdata < 2 ^ 32 →
  getN pdata ≤ Z.of_nat (length (getPositions pdata)) →
  getN pdata ≤ Z.of_nat (length (getCommFlags pdata)) →
  ∃ pdata1 pdata2,
    setCommFlags box1 pdata = Ok pdata1 ∧
    setCommFlags box2 pdata = Ok pdata2 ∧
    setCommFlags box2 pdata1 = Ok pdata2 ∧
    setCommFlags box2 pdata2 = Ok pdata2.
Proof.
  intros HN Hpos Hflags. unfold setCommFlags.
  destruct (setCommFlags_loop_spec (getLo box1) (getHi box1)
              (getPositions pdata) (Z.to_nat (getN pdata)) 0
              (getCommFlags pdata))
    as (flags1 & Hloop1 & Hlen1 & Hnew1 & Hold1); [lia|lia|lia|].
  destruct (setCommFlags_loop_spec (getLo box2) (getHi box2)
              (getPositions pdata) (Z.to_nat (getN pdata)) 0
              (getCommFlags pdata))
    as (flags2 & Hloop2 & Hlen2 & Hnew2 & Hold2); [lia|lia|lia|].
  destruct (setCommFlags_loop_spec (getLo box2) (getHi box2)
              (getPositions pdata) (Z.to_nat (getN pdata)) 0 flags1)
    as (flags3 & Hloop3 & Hlen3 & Hnew3 & Hold3); [lia|lia|lia|].
  destruct (setCommFlags_loop_spec (getLo box2) (getHi box2)
              (getPositions pdata) (Z.to_nat (getN pdata)) 0 flags2)
    as (flags4 & Hloop4 & Hlen4 & Hnew4 & Hold4); [lia|lia|lia|].
  change (Z.of_nat 0) with 0 in *.
  assert (∀ fa fb : list Z,
            (∀ k : nat, (0 ≤ k < 0 + Z.to_nat (getN pdata))%nat →
               ∃ p, getPositions pdata !! k = Some p ∧
                    fa !! k = Some (comm_flags (getLo box2) (getHi box2) p)) →
            (∀ k : nat, (0 ≤ k < 0 + Z.to_nat (getN pdata))%nat →
               ∃ p, getPositions pdata !! k = Some p ∧
                    fb !! k = Some (comm_flags (getLo box2) (getHi box2) p)) →
            (∀ k : nat, ¬ (0 ≤ k < 0 + Z.to_nat (getN pdata))%nat →
               fa !! k = fb !! k) →
            fa = fb) as Hext.
  { intros fa fb Ha Hb Hrest. apply list_eq. intros k.
    destruct (decide (0 ≤ k < 0 + Z.to_nat (getN pdata))%nat) as [Hk|Hk].
    - destruct (Ha k Hk) as (p & Hp & ->).
      destruct (Hb k Hk) as (p' & Hp' & ->). congruence.
    - by apply Hrest. }
  assert (flags3 = flags2) as ->.
  { apply Hext; [done|done|]. intros k Hk.
    by rewrite Hold3, Hold2, Hold1. }
  assert (flags4 = flags2) as ->.
  { apply Hext; [done|done|]. intros k Hk. by rewrite Hold4. }
  rewrite Hloop1, Hloop2. simpl. do 2 eexists.
  split; [reflexivity|]. split; [reflexivity|]. simpl.
  rewrite Hloop3, Hloop4. done.
Qed.

Lemma setCommFlags_overrides_witness :
  ∃ pdata2,
    setCommFlags (MkBoxDim (make_scalar3 0 0 0) (make_scalar3 10 10 10)
                           (true, true, true))
      (MkParticleData 2 [make_scalar4 12 (-1) 5 0; make_scalar4 3 10 (-4) 0]
                      [63; 63]) = Ok pdata2 ∧
    getCommFlags pdata2 = [9; 36] ∧
    setCommFlags (MkBoxDim (make_scalar3 0 0 0) (make_scalar3 10 10 10)
                           (true, true, true)) pdata2 = Ok pdata2.
Proof.
  destruct (setCommFlags_overrides
              (MkBoxDim (make_scalar3 0 0 0) (make_scalar3 10 10 10)
                        (true, true, true))
              (MkBoxDim (make_scalar3 0 0 0) (make_scalar3 10 10 10)
                        (true, true, true))
              (MkParticleData 2 [make_scalar4 12 (-1) 5 0;
                                 make_scalar4 3 10 (-4) 0] [63; 63]))
    as (pdata1 & pdata2 & _ & H2 & _ & Hidem); simpl; [lia|lia|lia|].
  exists pdata2. split; [exact H2|]. split; [|exact Hidem].
  vm_compute in H2. injection H2 as <-. reflexivity.
Defined.

(** X18.  A position gets no flag at all exactly when none of the six
    comparisons holds; with exact coordinates, exactly when it lies in
    [lo, hi) along all three axes.  Only then is the particle not sent
    anywhere. *)
Theorem comm_flags_zero_iff_inside :
  (∀ (Scalar : Type) (ops : ScalarOps Scalar) (lo hi : Scalar3 Scalar)
     (p : Scalar4 Scalar),
     comm_flags lo hi p = 0 ↔
       s_ge (x4 p) (x3 hi) = false ∧ s_lt (x4 p) (x3 lo) = false ∧
       s_ge (y4 p) (y3 hi) = false ∧ s_lt (y4 p) (y3 lo) = false ∧
       s_ge (z4 p) (z3 hi) = false ∧ s_lt (z4 p) (z3 lo) = false) ∧
  (∀ (lo hi : Scalar3 Z) (p : Scalar4 Z),
     comm_flags lo hi p = 0 ↔
       x3 lo ≤ x4 p < x3 hi ∧ y3 lo ≤ y4 p < y3 hi ∧ z3 lo ≤ z4 p < z3 hi).
Proof.
  assert (∀ (Scalar : Type) (ops : ScalarOps Scalar) (lo hi : Scalar3 Scalar)
            (p : Scalar4 Scalar),
            comm_flags lo hi p = 0 ↔
              s_ge (x4 p) (x3 hi) = false ∧ s_lt (x4 p) (x3 lo) = false ∧
              s_ge (y4 p) (y3 hi) = false ∧ s_lt (y4 p) (y3 lo) = false ∧
              s_ge (z4 p) (z3 hi) = false ∧ s_lt (z4 p) (z3 lo) = false)
    as Hgen.
  { intros Scalar ops lo hi p. unfold comm_flags. simpl.
    destruct (s_ge (x4 p) (x3 hi)), (s_lt (x4 p) (x3 lo)),
      (s_ge (y4 p) (y3 hi)), (s_lt (y4 p) (y3 lo)),
      (s_ge (z4 p) (z3 hi)), (s_lt (z4 p) (z3 lo));
      vm_compute; intuition congruence. }
  split; [exact Hgen|]. intros lo hi p. rewrite Hgen. simpl.
  rewrite !Z.geb_leb, !Z.leb_gt, !Z.ltb_ge. lia.
Qed.

(** X19.  setCommFlags trusts [getN]: when the particle data reports more
    particles than its position array or its flag array holds, the loop
    runs off the end of that array. *)
Theorem setCommFlags_overruns_short_arrays {Scalar : Type}
    `{ScalarOps Scalar} (box : BoxDim Scalar) (pdata : ParticleData Scalar) :
  0 ≤ getN pdata < 2 ^ 32 →
  Z.of_nat (length (getPositions pdata)) < getN pdata ∨
  Z.of_nat (length (getCommFlags pdata)) < getN pdata →
  setCommFlags box pdata = Raise undefined_behaviour.
Proof.
  intros HN Hshort. unfold setCommFlags.
  rewrite (setCommFlags_loop_overrun (getLo box) (getHi box)
             (getPositions pdata) (Z.to_nat (getN pdata)) 0
             (getCommFlags pdata)); [done|lia|lia|lia|lia].
Qed.

Lemma setCommFlags_overruns_short_arrays_witness :
  setCommFlags (MkBoxDim (make_scalar3 0 0 0) (make_scalar3 10 10 10)
                         (true, true, true))
    (MkParticleData 3 [make_scalar4 12 (-1) 5 0; make_scalar4 3 10 (-4) 0]
                    [63; 63; 63])
  = Raise undefined_behaviour.
Proof.
  apply (setCommFlags_overruns_short_arrays
           (MkBoxDim (make_scalar3 0 0 0) (make_scalar3 10 10 10)
                     (true, true, true))
           (MkParticleData 3 [make_scalar4 12 (-1) 5 0;
                              make_scalar4 3 10 (-4) 0] [63; 63; 63]));
    simpl; lia.
Defined.

(** *** More about getWrapBox *)

(** X20.  getWrapBox asserts on every decomposed axis, communicated or
    not, that the coverage box sticks out of the global box on exactly one
    side.  With asserts compiled in, a rank whose coverage box sticks out
    on neither side (an interior rank of three or more along the axis) or
    on both stops at the assertion of the first such axis: line 325 for x,
    332 for y, 339 for z. *)
Theorem getWrapBox_asserts_unless_one_sided {Scalar : Type}
    `{ScalarOps Scalar} (cfg : build) (global_box box : BoxDim Scalar)
    (gx gy gz : Z) (isCommunicating : face → bool) :
  let lo := getLo box in
  let hi := getHi box in
  let glo := getLo global_box in
  let ghi := getHi global_box in
  ndebug cfg = false →
  (gx > 1 → xorb (s_gt (x3 hi) (x3 ghi)) (s_lt (x3 lo) (x3 glo)) = false →
   getWrapBox cfg global_box (gx, gy, gz) isCommunicating box
   = Raise (assertion_failed 325)) ∧
  (one_sided gx (x3 lo) (x3 hi) (x3 glo) (x3 ghi) →
   gy > 1 → xorb (s_gt (y3 hi) (y3 ghi)) (s_lt (y3 lo) (y3 glo)) = false →
   getWrapBox cfg global_box (gx, gy, gz) isCommunicating box
   = Raise (assertion_failed 332)) ∧
  (one_sided gx (x3 lo) (x3 hi) (x3 glo) (x3 ghi) →
   one_sided gy (y3 lo) (y3 hi) (y3 glo) (y3 ghi) →
   gz > 1 → xorb (s_gt (z3 hi) (z3 ghi)) (s_lt (z3 lo) (z3 glo)) = false →
   getWrapBox cfg global_box (gx, gy, gz) isCommunicating box
   = Raise (assertion_failed 339)).
Proof.
  intros lo hi glo ghi Hdbg.
  assert (∀ line g (a b c d : Scalar),
            g > 1 → xorb (s_gt b d) (s_lt a c) = false →
            shift_axis cfg line g a b c d = Raise (assertion_failed line))
    as Hfail.
  { intros line g a b c d Hg Hx. unfold shift_axis, assert_.
    rewrite decide_True by done. by rewrite Hdbg, Hx. }
  split_and!.
  - intros Hg Hx. unfold getWrapBox. by rewrite Hfail.
  - intros H1 Hg Hx. unfold getWrapBox.
    rewrite (shift_axis_one_sided cfg 325) by done. simpl.
    by rewrite Hfail.
  - intros H1 H2 Hg Hx. unfold getWrapBox.
    rewrite (shift_axis_one_sided cfg 325) by done. simpl.
    rewrite (shift_axis_one_sided cfg 332) by done. simpl.
    by rewrite Hfail.
Qed.

(** The middle rank of three along x: its coverage box lies inside the
    global box. *)
Definition example_interior_box : BoxDim Z :=
  MkBoxDim (make_scalar3 30 0 0) (make_scalar3 70 100 100)
           (false, false, false).

Lemma getWrapBox_asserts_unless_one_sided_witness :
  getWrapBox (Build false "Communicator.cc") example_global_box (3, 1, 1)
             x_only example_interior_box
  = Raise (assertion_failed 325).
Proof.
  destruct (getWrapBox_asserts_unless_one_sided
              (Build false "Communicator.cc") example_global_box
              example_interior_box 3 1 1 x_only eq_refl) as (Hx & _).
  apply Hx; [lia|reflexivity].
Defined.

(** X21.  With asserts compiled out getWrapBox always returns a box.  In
    exact arithmetic that box is a translate of the global box: along
    every axis it is as long as the global box; along an axis that is not
    decomposed, or along which the coverage box sticks out on neither side,
    it has the bounds of the global box; and where the coverage box sticks
    out on both sides the high side decides the shift. *)
Theorem getWrapBox_translates_global_box (cfg : build)
    (global_box box : BoxDim Z) (gx gy gz : Z)
    (isCommunicating : face → bool) :
  ndebug cfg = true →
  ∃ wrap_box,
    getWrapBox cfg global_box (gx, gy, gz) isCommunicating box = Ok wrap_box ∧
    getPeriodic wrap_box
      = (isCommunicating east, isCommunicating north, isCommunicating up) ∧
    x3 (getHi wrap_box) - x3 (getLo wrap_box)
      = x3 (getHi global_box) - x3 (getLo global_box) ∧
    y3 (getHi wrap_box) - y3 (getLo wrap_box)
      = y3 (getHi global_box) - y3 (getLo global_box) ∧
    z3 (getHi wrap_box) - z3 (getLo wrap_box)
      = z3 (getHi global_box) - z3 (getLo global_box) ∧
    (gx ≤ 1 ∨ (x3 (getHi box) ≤ x3 (getHi global_box) ∧
               x3 (getLo global_box) ≤ x3 (getLo box)) →
     x3 (getLo wrap_box) = x3 (getLo global_box)) ∧
    (gx > 1 → x3 (getHi box) > x3 (getHi global_box) →
     x3 (getHi wrap_box) = x3 (getHi box)) ∧
    (gx > 1 → x3 (getHi box) ≤ x3 (getHi global_box) →
     x3 (getLo box) < x3 (getLo global_box) →
     x3 (getLo wrap_box) = x3 (getLo box)).
Proof.
  intros Hn. unfold getWrapBox, shift_axis, assert_. rewrite Hn. simpl.
  destruct (decide (gx > 1)), (decide (gy > 1)), (decide (gz > 1)); simpl;
    (eexists; split; [reflexivity|]; simpl; split; [done|]);
    destruct (Z.gtb_spec (x3 (getHi box)) (x3 (getHi global_box)));
    destruct (Z.ltb_spec (x3 (getLo box)) (x3 (getLo global_box)));
    destruct (y3 (getHi box) >? y3 (getHi global_box));
    destruct (y3 (getLo box) <? y3 (getLo global_box));
    destruct (z3 (getHi box) >? z3 (getHi global_box));
    destruct (z3 (getLo box) <? z3 (getLo global_box));
    simpl; lia.
Qed.

Lemma getWrapBox_translates_global_box_witness :
  getWrapBox (Build true "Communicator.cc") example_global_box (3, 1, 1)
             x_only example_interior_box
  = Ok (MkBoxDim (make_scalar3 0 0 0) (make_scalar3 100 100 100)
                 (true, false, false)).
Proof.
  destruct (getWrapBox_translates_global_box (Build true "Communicator.cc")
              example_global_box example_interior_box 3 1 1 x_only eq_refl)
    as (wrap_box & Hbox & _).
  rewrite Hbox. vm_compute in Hbox. injection Hbox as <-. reflexivity.
Defined.

(** *** migrateParticles *)

Section migrate.
Context {Scalar : Type} `{ScalarOps Scalar}.

(** [mpcd::detail::pdata_element], a packed particle; the rewrap loop reads
    and writes its [pos] member only. *)
Context {pdata_element : Type}.
Variable pos : pdata_element → Scalar4 Scalar.
Variable set_pos : Scalar4 Scalar → pdata_element → pdata_element.

(** What migrateParticles asks of its collaborators, none of them part of
    this file: the build, the global box, the grid size and the neighbour
    ranks of the decomposition, the faces this rank communicates through,
    the coverage box of the cell list, the packing and unpacking of the
    particle data, and what MPI delivers from [recv_neighbor] while the
    send buffer goes to [send_neighbor]. *)
Variable cfg : build.
Variable global_box : BoxDim Scalar.
Variable grid_size : Z * Z * Z.
Variable isCommunicating : face → bool.
Variable getCoverageBox : BoxDim Scalar.
Variable getNeighborRank : Z → Z.
Variable removeParticles :
  ParticleData Scalar → Z → ParticleData Scalar * list pdata_element.
Variable addParticles :
  ParticleData Scalar → list pdata_element → Z → ParticleData Scalar.
Variable MPI_exchange : Z → Z → list pdata_element → list pdata_element.

Implicit Type c : Communicator_t (ParticleData Scalar).

Definition set_pdata (pdata : ParticleData Scalar) c
  : Communicator_t (ParticleData Scalar) :=
  MkCommunicator pdata (m_is_communicating c) (m_force_migrate c)
                 (m_neigh c) (m_reqs c) (m_stats c) (m_prof c) (msg c).

(** [setCommFlags(box)] as the member function it is, profiler calls
    included. *)
Definition Communicator_setCommFlags (box : BoxDim Scalar) c
  : result (Communicator_t (ParticleData Scalar)) :=
  let c := prof_push "comm flags" c in
  do pdata <- setCommFlags box (m_mpcd_pdata c);
  let c := set_pdata pdata c in
  Ok (prof_pop c).

(** [MPI_Isend(..., &m_reqs[0]); MPI_Irecv(..., &m_reqs[1]);
     MPI_Waitall(2, m_reqs.data(), m_stats.data());] of the payload
    exchange, as far as the request and status vectors go. *)
Definition waitall c : result unit :=
  vec_at (m_reqs c) 0 ;;
  vec_at (m_reqs c) 1 ;;
  vec_data (m_reqs c) 2 ;;
  vec_data (m_stats c) 2.

(** The body of [for (dir = 0; dir < 6; dir++)] for the face numbered
    [dir].  The send and receive buffers live from one direction to the
    next only as storage; each direction overwrites them. *)
Definition migrate_direction (f : face) c
  : result (Communicator_t (ParticleData Scalar)) :=
  let dir := face_index f in
  let comm_mask := Z.shiftl 1 dir in
  if negb (isCommunicating f) then Ok c else
  (* fill send buffer *)
  let c := prof_push "pack" c in
  let '(pdata, m_sendbuf) := removeParticles (m_mpcd_pdata c) comm_mask in
  let c := set_pdata pdata c in
  let c := prof_pop c in
  (* we receive from the direction opposite to the one we send to *)
  let send_neighbor := getNeighborRank dir in
  let recv_neighbor :=
    if decide (dir mod 2 = 0) then getNeighborRank (dir + 1)
    else getNeighborRank (dir - 1) in
  (* communicate size of the message *)
  do c <- request_slots c;
  let m_recvbuf := MPI_exchange send_neighbor recv_neighbor m_sendbuf in
  (* exchange particle data *)
  let c := prof_push "MPI send/recv" c in
  waitall c ;;
  let c := prof_pop c in
  (* wrap received particles *)
  let c := prof_push "wrap" c in
  do wrap_box <- getWrapBox cfg global_box grid_size isCommunicating
                   getCoverageBox;
  let m_recvbuf := (λ p, set_pos (wrap wrap_box (pos p)) p) <$> m_recvbuf in
  let c := prof_pop c in
  (* fill particle data with wrapped, received particles *)
  let c := prof_push "unpack" c in
  let c := set_pdata (addParticles (m_mpcd_pdata c) m_recvbuf comm_mask) c in
  Ok (prof_pop c).

(** The faces in the order of their numbers 0..5. *)
Definition faces : list face := [east; west; north; south; up; down].

Fixpoint for_faces (fs : list face) c
  : result (Communicator_t (ParticleData Scalar)) :=
  match fs with
  | [] => Ok c
  | f :: fs' => do c <- migrate_direction f c; for_faces fs' c
  end.

(** [migrateParticles()] *)
Definition migrateParticles c
  : result (Communicator_t (ParticleData Scalar)) :=
  let c := prof_push "migrate" c in
  do c <- Communicator_setCommFlags getCoverageBox c;
  do c <- for_faces faces c;
  Ok (prof_pop c).

Lemma prof_pop_push (name : string) c : prof_pop (prof_push name c) = c.
Proof. destruct c as [? ? ? ? ? ? [stack|] ?]; reflexivity. Qed.

Lemma for_faces_idle (fs : list face) c :
  (∀ f, isCommunicating f = false) → for_faces fs c = Ok c.
Proof.
  intros Hnone. induction fs as [|f fs IH]; [done|]. simpl.
  unfold migrate_direction. by rewrite Hnone.
Qed.

Lemma for_faces_short (fs : list face) c f :
  f ∈ fs → isCommunicating f = true → vec_size (m_reqs c) < 2 →
  for_faces fs c = Raise undefined_behaviour.
Proof.
  intros Hin Hf Hshort. induction fs as [|f' fs IH]; [by apply elem_of_nil in Hin|].
  simpl. unfold migrate_direction.
  destruct (isCommunicating f') eqn:Hf'; simpl.
  - destruct (removeParticles _ _) as [pdata sendbuf].
    by rewrite request_slots_short.
  - apply IH. apply elem_of_cons in Hin as [->|Hin]; [congruence|done].
Qed.

Lemma setCommFlags_ok (box : BoxDim Scalar) (pdata : ParticleData Scalar) :
  0 ≤ getN pdata < 2 ^ 32 →
  getN pdata ≤ Z.of_nat (length (getPositions pdata)) →
  getN pdata ≤ Z.of_nat (length (getCommFlags pdata)) →
  ∃ pdata', setCommFlags box pdata = Ok pdata' ∧
    getN pdata' = getN pdata ∧ getPositions pdata' = getPositions pdata ∧
    length (getCommFlags pdata') = length (getCommFlags pdata) ∧
    ∀ idx : nat, Z.of_nat idx < getN pdata →
      ∃ p, getPositions pdata !! idx = Some p ∧
           getCommFlags pdata' !! idx
           = Some (comm_flags (getLo box) (getHi box) p).
Proof.
  intros HN Hpos Hflags. unfold setCommFlags.
  destruct (setCommFlags_loop_spec (getLo box) (getHi box)
              (getPositions pdata) (Z.to_nat (getN pdata)) 0
              (getCommFlags pdata))
    as (flags' & Hloop & Hlen & Hnew & _); [lia|lia|lia|].
  change (Z.of_nat 0) with 0 in Hloop. rewrite Hloop. simpl.
  eexists. split; [reflexivity|]. simpl. split_and!; try done.
  intros idx Hidx. apply Hnew. lia.
Qed.

(** What a migration round leaves alone: everything but the particle data
    and the capacity of the request and status vectors. *)
Definition keeps_all_but_particles c c' : Prop :=
  m_is_communicating c' = m_is_communicating c ∧
  m_force_migrate c' = m_force_migrate c ∧
  m_neigh c' = m_neigh c ∧
  vec_elems (m_reqs c') = vec_elems (m_reqs c) ∧
  vec_elems (m_stats c') = vec_elems (m_stats c) ∧
  m_prof c' = m_prof c ∧ msg c' = msg c.

Lemma request_slots_result c c' :
  request_slots c = Ok c' →
  c' = MkCommunicator (m_mpcd_pdata c) (m_is_communicating c)
         (m_force_migrate c) (m_neigh c) (reserve 2 (m_reqs c))
         (reserve 2 (m_stats c)) (m_prof c) (msg c).
Proof.
  unfold request_slots.
  destruct (vec_at _ 0); [|discriminate]. simpl.
  destruct (vec_at _ 1); [|discriminate]. simpl.
  destruct (vec_data (reserve 2 (m_reqs c)) 2); [|discriminate]. simpl.
  destruct (vec_data (reserve 2 (m_stats c)) 2); [|discriminate]. simpl.
  by intros [= <-].
Qed.

Lemma request_slots_ok c :
  2 ≤ vec_size (m_reqs c) → 2 ≤ vec_size (m_stats c) →
  ∃ c', request_slots c = Ok c'.
Proof.
  intros Hr Hs. unfold request_slots, vec_at, vec_data, in_bounds.
  rewrite !reserve_size. unfold vec_size, MPI_Request, MPI_Status in *.
  rewrite !decide_True by lia. simpl. by eexists.
Qed.

Lemma waitall_ok c :
  2 ≤ vec_size (m_reqs c) → 2 ≤ vec_size (m_stats c) → waitall c = Ok tt.
Proof.
  intros Hr Hs. unfold waitall, vec_at, vec_data, in_bounds.
  unfold vec_size, MPI_Request, MPI_Status in *.
  by rewrite !decide_True by lia.
Qed.

Lemma migrate_direction_keeps (f : face) c c' :
  migrate_direction f c = Ok c' → keeps_all_but_particles c c'.
Proof.
  unfold migrate_direction.
  destruct (isCommunicating f); cbn [negb];
    [|by intros [= <-]; unfold keeps_all_but_particles].
  destruct (removeParticles _ _) as [pdata sendbuf].
  destruct (request_slots _) as [c1|] eqn:Hslots; [|discriminate].
  apply request_slots_result in Hslots. subst c1. cbn [bind].
  destruct (waitall _); [|discriminate]. cbn [bind].
  destruct (getWrapBox _ _ _ _ _) as [wrap_box|]; [|discriminate]. cbn [bind].
  intros [= <-]. unfold keeps_all_but_particles. simpl.
  by destruct (m_prof c).
Qed.

Lemma migrate_direction_returns (f : face) c wrap_box :
  2 ≤ vec_size (m_reqs c) → 2 ≤ vec_size (m_stats c) →
  getWrapBox cfg global_box grid_size isCommunicating getCoverageBox
  = Ok wrap_box →
  ∃ c', migrate_direction f c = Ok c'.
Proof.
  intros Hr Hs Hbox. unfold migrate_direction.
  destruct (isCommunicating f); cbn [negb]; [|by eexists].
  destruct (removeParticles _ _) as [pdata sendbuf].
  destruct (request_slots_ok
              (prof_pop (set_pdata pdata (prof_push "pack" c))) Hr Hs)
    as [c1 Hslots].
  rewrite Hslots. cbn [bind].
  apply request_slots_result in Hslots. subst c1.
  rewrite waitall_ok by done. cbn [bind]. rewrite Hbox. cbn [bind].
  by eexists.
Qed.

Lemma for_faces_keeps (fs : list face) :
  ∀ c c', for_faces fs c = Ok c' → keeps_all_but_particles c c'.
Proof.
  induction fs as [|f fs IH]; intros c c'; simpl.
  { by intros [= <-]. }
  destruct (migrate_direction f c) as [c1|] eqn:Hdir; [|discriminate].
  cbn [bind]. intros Hrest.
  apply migrate_direction_keeps in Hdir. apply IH in Hrest.
  unfold keeps_all_but_particles in *.
  destruct Hdir as (? & ? & ? & ? & ? & ? & ?).
  destruct Hrest as (? & ? & ? & ? & ? & ? & ?).
  split_and!; congruence.
Qed.

Lemma for_faces_returns (fs : list face) wrap_box :
  getWrapBox cfg global_box grid_size isCommunicating getCoverageBox
  = Ok wrap_box →
  ∀ c, 2 ≤ vec_size (m_reqs c) → 2 ≤ vec_size (m_stats c) →
    ∃ c', for_faces fs c = Ok c'.
Proof.
  intros Hbox. induction fs as [|f fs IH]; intros c Hr Hs; simpl.
  { by eexists. }
  destruct (migrate_direction_returns f c wrap_box Hr Hs Hbox) as [c1 Hdir].
  rewrite Hdir. cbn [bind].
  apply migrate_direction_keeps in Hdir as (_ & _ & _ & Hreqs & Hstats & _).
  apply IH; unfold vec_size in *; by rewrite ?Hreqs, ?Hstats.
Qed.

Lemma migrateParticles_keeps c c' :
  migrateParticles c = Ok c' → keeps_all_but_particles c c'.
Proof.
  unfold migrateParticles, Communicator_setCommFlags.
  destruct (setCommFlags _ _) as [pdata|]; [|discriminate].
  cbn -[for_faces].
  destruct (for_faces faces _) as [c1|] eqn:Hfaces; [|discriminate].
  cbn [bind]. intros [= <-]. apply for_faces_keeps in Hfaces.
  unfold keeps_all_but_particles in *. simpl in *.
  destruct Hfaces as (? & ? & ? & ? & ? & Hprof & ?).
  split_and!; try congruence.
  rewrite Hprof. by destruct (m_prof c).
Qed.

Lemma migrateParticles_returns c wrap_box :
  0 ≤ getN (m_mpcd_pdata c) < 2 ^ 32 →
  getN (m_mpcd_pdata c) ≤ Z.of_nat (length (getPositions (m_mpcd_pdata c))) →
  getN (m_mpcd_pdata c) ≤ Z.of_nat (length (getCommFlags (m_mpcd_pdata c))) →
  2 ≤ vec_size (m_reqs c) → 2 ≤ vec_size (m_stats c) →
  getWrapBox cfg global_box grid_size isCommunicating getCoverageBox
  = Ok wrap_box →
  ∃ c', migrateParticles c = Ok c'.
Proof.
  intros HN Hpos Hflags Hr Hs Hbox.
  destruct (setCommFlags_ok getCoverageBox (m_mpcd_pdata c) HN Hpos Hflags)
    as (pdata' & Hset & _).
  unfold migrateParticles, Communicator_setCommFlags.
  cbn -[for_faces]. rewrite Hset. cbn -[for_faces].
  destruct (for_faces_returns faces wrap_box Hbox
              (prof_pop (set_pdata pdata'
                 (prof_push "comm flags" (prof_push "migrate" c)))))
    as [c1 Hfaces]; [done|done|].
  rewrite Hfaces. cbn [bind]. by eexists.
Qed.

Lemma migrateParticles_idle_rank c :
  (∀ f, isCommunicating f = false) →
  0 ≤ getN (m_mpcd_pdata c) < 2 ^ 32 →
  getN (m_mpcd_pdata c) ≤ Z.of_nat (length (getPositions (m_mpcd_pdata c))) →
  getN (m_mpcd_pdata c) ≤ Z.of_nat (length (getCommFlags (m_mpcd_pdata c))) →
  ∃ pdata', setCommFlags getCoverageBox (m_mpcd_pdata c) = Ok pdata' ∧
    migrateParticles c = Ok (set_pdata pdata' c).
Proof.
  intros Hnone HN Hpos Hflags.
  destruct (setCommFlags_ok getCoverageBox (m_mpcd_pdata c) HN Hpos Hflags)
    as (pdata' & Hset & _).
  exists pdata'. split; [done|].
  unfold migrateParticles, Communicator_setCommFlags.
  cbn -[for_faces]. rewrite Hset. cbn -[for_faces].
  rewrite for_faces_idle by done. simpl.
  destruct c as [? ? ? ? ? ? [stack|] ?]; reflexivity.
Qed.

Lemma migrateParticles_short c (f : face) :
  isCommunicating f = true → vec_size (m_reqs c) < 2 →
  0 ≤ getN (m_mpcd_pdata c) < 2 ^ 32 →
  getN (m_mpcd_pdata c) ≤ Z.of_nat (length (getPositions (m_mpcd_pdata c))) →
  getN (m_mpcd_pdata c) ≤ Z.of_nat (length (getCommFlags (m_mpcd_pdata c))) →
  migrateParticles c = Raise undefined_behaviour.
Proof.
  intros Hf Hshort HN Hpos Hflags.
  assert (f ∈ faces) as Hin
    by (destruct f; unfold faces; rewrite !elem_of_cons; tauto).
  destruct (setCommFlags_ok getCoverageBox (m_mpcd_pdata c) HN Hpos Hflags)
    as (pdata' & Hset & _).
  unfold migrateParticles, Communicator_setCommFlags.
  cbn -[for_faces]. rewrite Hset. cbn -[for_faces].
  by rewrite (for_faces_short _ _ f).
Qed.

End migrate.

(** X22.  On a rank that communicates through no face, migrateParticles
    only reclassifies the comm flags of the local particles against the
    coverage box: no particle is packed, no request is posted, no wrap box
    is computed, and the profiler stack is back where it was.  A
    communicate from Idle therefore returns the same communicator with the
    new flags, Idle again. *)
Theorem migrate_without_communication {Scalar : Type} `{ScalarOps Scalar}
    {pdata_element : Type} (pos : pdata_element → Scalar4 Scalar)
    (set_pos : Scalar4 Scalar → pdata_element → pdata_element)
    (cfg : build) (global_box : BoxDim Scalar) (grid_size : Z * Z * Z)
    (isCommunicating : face → bool) (getCoverageBox : BoxDim Scalar)
    (getNeighborRank : Z → Z)
    (removeParticles :
       ParticleData Scalar → Z → ParticleData Scalar * list pdata_element)
    (addParticles :
       ParticleData Scalar → list pdata_element → Z → ParticleData Scalar)
    (MPI_exchange : Z → Z → list pdata_element → list pdata_element)
    (timestep : Z) (c : Communicator_t (ParticleData Scalar)) :
  let migrate :=
    migrateParticles pos set_pos cfg global_box grid_size isCommunicating
      getCoverageBox getNeighborRank removeParticles addParticles
      MPI_exchange in
  (∀ f, isCommunicating f = false) →
  0 ≤ getN (m_mpcd_pdata c) < 2 ^ 32 →
  getN (m_mpcd_pdata c) ≤ Z.of_nat (length (getPositions (m_mpcd_pdata c))) →
  getN (m_mpcd_pdata c) ≤ Z.of_nat (length (getCommFlags (m_mpcd_pdata c))) →
  ∃ pdata',
    setCommFlags getCoverageBox (m_mpcd_pdata c) = Ok pdata' ∧
    migrate c = Ok (set_pdata pdata' c) ∧
    (m_is_communicating c = false →
     communicate migrate timestep c = Ok (set_pdata pdata' c)).
Proof.
  intros migrate Hnone HN Hpos Hflags.
  destruct (setCommFlags_ok getCoverageBox (m_mpcd_pdata c) HN Hpos Hflags)
    as (pdata' & Hset & _).
  exists pdata'. split; [done|].
  assert (∀ c0, m_mpcd_pdata c0 = m_mpcd_pdata c →
                migrate c0 = Ok (set_pdata pdata' c0)) as Hmig.
  { intros c0 Hpd. unfold migrate, migrateParticles, Communicator_setCommFlags.
    cbn -[for_faces]. rewrite Hpd, Hset. cbn -[for_faces].
    rewrite for_faces_idle by done. simpl.
    destruct c0 as [? ? ? ? ? ? [stack|] ?]; reflexivity. }
  split; [by apply Hmig|].
  intros Hidle. unfold communicate. rewrite Hidle.
  rewrite Hmig by reflexivity. simpl.
  destruct c as [? ? ? ? ? ? [stack|] ?]; simpl in *; by subst.
Qed.

(** Two particles on a rank of an undecomposed 1x1x1 grid. *)
Definition example_particles : ParticleData Z :=
  MkParticleData 2 [make_scalar4 12 (-1) 5 0; make_scalar4 3 1 4 0]
                 [63; 63].

Definition example_idle_communicator : Communicator_t (ParticleData Z) :=
  MkCommunicator example_particles false false fresh_arrays vector_empty
                 vector_empty (Some ["integrate"]) [].

Lemma migrate_without_communication_witness :
  communicate
    (migrateParticles (pdata_element := Scalar4 Z) id (λ q _, q)
       (Build false "Communicator.cc") example_global_box (1, 1, 1)
       (λ _, false) example_global_box (λ _, 0) (λ pd _, (pd, []))
       (λ pd _ _, pd) (λ _ _ buf, buf))
    3 example_idle_communicator
  = Ok (MkCommunicator
          (MkParticleData 2 [make_scalar4 12 (-1) 5 0; make_scalar4 3 1 4 0]
                          [8; 0])
          false false fresh_arrays vector_empty vector_empty
          (Some ["integrate"]) []).
Proof.
  destruct (migrate_without_communication (pdata_element := Scalar4 Z)
              id (λ q _, q) (Build false "Communicator.cc")
              example_global_box (1, 1, 1) (λ _, false) example_global_box
              (λ _, 0) (λ pd _, (pd, [])) (λ pd _ _, pd) (λ _ _ buf, buf)
              3 example_idle_communicator)
    as (pdata' & Hset & _ & Hcomm); simpl; [done|lia|lia|lia|].
  rewrite (Hcomm eq_refl).
  vm_compute in Hset. injection Hset as <-. reflexivity.
Defined.

(** X23.  The request vector is only ever [reserve]d, so it never has an
    element: the constructor leaves it empty and no function of this file
    grows it.  On a rank that communicates through any face,
    migrateParticles therefore reaches [&m_reqs[0]] of the first such face
    with an empty vector, and so does communicate from Idle: undefined
    behaviour, after the flags are set and the first send buffer is
    packed. *)
Theorem migrate_indexes_empty_request_vector {Scalar : Type}
    `{ScalarOps Scalar} {pdata_element : Type}
    (pos : pdata_element → Scalar4 Scalar)
    (set_pos : Scalar4 Scalar → pdata_element → pdata_element)
    (cfg : build) (global_box : BoxDim Scalar) (grid_size : Z * Z * Z)
    (isCommunicating : face → bool) (getCoverageBox : BoxDim Scalar)
    (getNeighborRank : Z → Z)
    (removeParticles :
       ParticleData Scalar → Z → ParticleData Scalar * list pdata_element)
    (addParticles :
       ParticleData Scalar → list pdata_element → Z → ParticleData Scalar)
    (MPI_exchange : Z → Z → list pdata_element → list pdata_element)
    (timestep : Z) (f : face) (c : Communicator_t (ParticleData Scalar)) :
  let migrate :=
    migrateParticles pos set_pos cfg global_box grid_size isCommunicating
      getCoverageBox getNeighborRank removeParticles addParticles
      MPI_exchange in
  isCommunicating f = true →
  vec_size (m_reqs c) < 2 →
  0 ≤ getN (m_mpcd_pdata c) < 2 ^ 32 →
  getN (m_mpcd_pdata c) ≤ Z.of_nat (length (getPositions (m_mpcd_pdata c))) →
  getN (m_mpcd_pdata c) ≤ Z.of_nat (length (getCommFlags (m_mpcd_pdata c))) →
  migrate c = Raise undefined_behaviour ∧
  (m_is_communicating c = false →
   communicate migrate timestep c = Raise undefined_behaviour) ∧
  (∀ c', request_slots c = Ok c' → vec_size (m_reqs c') = vec_size (m_reqs c)).
Proof.
  intros migrate Hf Hshort HN Hpos Hflags.
  assert (f ∈ faces) as Hin
    by (destruct f; unfold faces; rewrite !elem_of_cons; tauto).
  assert (∀ c0, m_mpcd_pdata c0 = m_mpcd_pdata c → m_reqs c0 = m_reqs c →
                migrate c0 = Raise undefined_behaviour) as Hmig.
  { intros c0 Hpd Hreqs.
    destruct (setCommFlags_ok getCoverageBox (m_mpcd_pdata c) HN Hpos Hflags)
      as (pdata' & Hset & _).
    unfold migrate, migrateParticles, Communicator_setCommFlags.
    cbn -[for_faces]. rewrite Hpd, Hset. cbn -[for_faces].
    rewrite (for_faces_short _ _ _ _ _ _ _ _ _ _ _ _ _ f); try done.
    simpl. by rewrite Hreqs. }
  split; [by apply Hmig|]. split.
  - intros Hidle. unfold communicate. rewrite Hidle.
    by rewrite Hmig.
  - intros c' Hc'. by apply request_slots_size in Hc' as [? _].
Qed.

Lemma migrate_indexes_empty_request_vector_witness :
  returns (Communicator_new example_particles (MkIndex3D 2 1 1) (0, 0, 0)
             (row_major 2 1) (λ _, 0) None)
    (λ c,
       communicate
         (migrateParticles (pdata_element := Scalar4 Z) id (λ q _, q)
            (Build false "Communicator.cc") example_global_box (2, 1, 1)
            x_only example_coverage_box (λ _, 1) (λ pd _, (pd, []))
            (λ pd _ _, pd) (λ _ _ buf, buf))
         0 c
       = Raise undefined_behaviour).
Proof.
  assert (∃ c, Communicator_new example_particles (MkIndex3D 2 1 1) (0, 0, 0)
                 (row_major 2 1) (λ _, 0) None = Ok c ∧
               m_mpcd_pdata c = example_particles ∧
               m_reqs c = vector_empty ∧ m_is_communicating c = false)
    as (c & Hnew & Hpd & Hreqs & Hidle)
    by (eexists; split; [reflexivity|done]).
  rewrite Hnew. simpl.
  destruct (migrate_indexes_empty_request_vector (pdata_element := Scalar4 Z)
              id (λ q _, q) (Build false "Communicator.cc")
              example_global_box (2, 1, 1) x_only example_coverage_box
              (λ _, 1) (λ pd _, (pd, [])) (λ pd _ _, pd) (λ _ _ buf, buf)
              0 east c) as (_ & Hcomm & _).
  - reflexivity.
  - rewrite Hreqs. unfold vec_size. simpl. lia.
  - rewrite Hpd. simpl. lia.
  - rewrite Hpd. simpl. lia.
  - rewrite Hpd. simpl. lia.
  - exact (Hcomm Hidle).
Defined.

(** X24.  The constructor on a valid grid position always succeeds and
    leaves the communicator Idle, not forced to migrate, with empty request
    and status vectors and no warning printed; and although the three
    neighbour arrays are allocated uninitialised, the neighbours it
    records and lists and both counters do not depend on what the memory
    held. *)
Theorem Communicator_new_ignores_uninitialised_memory {PD : Type}
    (pdata : PD) (di : Index3D) (l m n : Z) (cart_rank : Z → Z → Z → Z)
    (init1 init2 : nat → Z) (prof : option (list string)) :
  valid_grid di l m n →
  ∃ c1 c2,
    Communicator_new pdata di (l, m, n) cart_rank init1 prof = Ok c1 ∧
    Communicator_new pdata di (l, m, n) cart_rank init2 prof = Ok c2 ∧
    m_mpcd_pdata c1 = pdata ∧ m_is_communicating c1 = false ∧
    m_force_migrate c1 = false ∧ m_reqs c1 = vector_empty ∧
    m_stats c1 = vector_empty ∧ m_prof c1 = prof ∧ msg c1 = [] ∧
    arrays_allocated (m_neigh c1) ∧
    recorded (m_neigh c1) = recorded (m_neigh c2) ∧
    listed (m_neigh c1) = listed (m_neigh c2) ∧
    m_nneigh (m_neigh c1) = m_nneigh (m_neigh c2) ∧
    m_n_unique_neigh (m_neigh c1) = m_n_unique_neigh (m_neigh c2).
Proof.
  intros _. unfold Communicator_new.
  set (k := Z.to_nat neigh_max).
  assert (∀ init : nat → Z,
            arrays_allocated
              (MkNeighbors (init <$> seq 0 k) (init <$> seq k k)
                           (init <$> seq (2 * k) k) 0 0)) as Halloc.
  { intros init. unfold arrays_allocated.
    cbn [m_neighbors m_unique_neighbors m_adj_mask].
    by rewrite !length_fmap, !length_seq. }
  destruct (initializeNeighborArrays_spec di l m n cart_rank _ (Halloc init1))
    as (s1 & Hinit1 & Hall1 & Hrec1 & Hlist1 & Hcnt1).
  destruct (initializeNeighborArrays_spec di l m n cart_rank _ (Halloc init2))
    as (s2 & Hinit2 & _ & Hrec2 & Hlist2 & Hcnt2).
  destruct (initializeNeighborArrays_result di l m n cart_rank _
              (Halloc init1)) as (? & ? & Hres1 & _).
  destruct (initializeNeighborArrays_result di l m n cart_rank _
              (Halloc init2)) as (? & ? & Hres2 & _).
  rewrite Hinit1 in Hres1. injection Hres1 as Hs1.
  rewrite Hinit2 in Hres2. injection Hres2 as Hs2.
  rewrite Hinit1, Hinit2. simpl. do 2 eexists.
  split; [reflexivity|]. split; [reflexivity|]. simpl.
  split_and!; try done; try congruence.
  by rewrite Hs1, Hs2.
Qed.

Lemma Communicator_new_ignores_uninitialised_memory_witness :
  ∃ c1 c2,
    Communicator_new example_particles (MkIndex3D 2 2 1) (0, 0, 0)
                     (row_major 2 2) (λ _, 0) None = Ok c1 ∧
    Communicator_new example_particles (MkIndex3D 2 2 1) (0, 0, 0)
                     (row_major 2 2) (λ i, Z.of_nat i + 1000) None = Ok c2 ∧
    listed (m_neigh c1) = listed (m_neigh c2) ∧
    m_is_communicating c1 = false.
Proof.
  destruct (Communicator_new_ignores_uninitialised_memory example_particles
              (MkIndex3D 2 2 1) 0 0 0 (row_major 2 2) (λ _, 0)
              (λ i, Z.of_nat i + 1000) None)
    as (c1 & c2 & H1 & H2 & _ & Hidle & _ & _ & _ & _ & _ & _ & _ & Hl & _).
  - unfold valid_grid. simpl. lia.
  - exists c1, c2. split; [exact H1|]. split; [exact H2|].
    split; [exact Hl|exact Hidle].
Defined.

(** *** The claim about communicate *)

(** The communicator [c] marked Communicating, as communicate hands it to
    migrateParticles: the flag raised, the round's name on the profiler
    stack, nothing else changed. *)
Definition marked_communicating {PD : Type} (c c_in : Communicator_t PD)
  : Prop :=
  m_is_communicating c_in = true ∧
  m_prof c_in = cons "MPCD comm" <$> m_prof c ∧
  m_mpcd_pdata c_in = m_mpcd_pdata c ∧
  m_force_migrate c_in = m_force_migrate c ∧ m_neigh c_in = m_neigh c ∧
  m_reqs c_in = m_reqs c ∧ m_stats c_in = m_stats c ∧ msg c_in = msg c.


(** The communicator the constructor builds on rank 0 of a 2x1x1 grid,
    and the same communicator in the middle of a round. *)
Definition example_fresh_communicator : Communicator_t (ParticleData Z) :=
  MkCommunicator example_particles false false
    (MkNeighbors ([1; 1] ++ replicate 25 0) ([1] ++ replicate 26 0)
                 ([20480; 16384] ++ replicate 25 0) 2 1)
    vector_empty vector_empty None [].

Definition example_busy_communicator : Communicator_t (ParticleData Z) :=
  set_is_communicating true example_fresh_communicator.


End Communicator.
